(** * markdown-to-moodle-xml: a shallow embedding of [m2m.py]

    The development follows the source file top-down: Python strings and
    the few [str] methods the program calls, the backtracking semantics of
    the regular expressions it compiles, the line classifiers, the
    line-oriented parser over a store of shared objects, the scoring pass
    [completing_dictionary], the renderers of answers and question
    bodies, and the XML assembler.  External capabilities ([markdown], the
    code rasterizer, the image loader, the MD5 digest, the random
    generator and the printing of floats) are section variables. *)

From Stdlib Require Import String Ascii NArith ZArith QArith Qabs Lia.
From Stdlib Require Import SpecFloat DecimalString.
From stdpp Require Import list.

Local Open Scope nat_scope.

(** ** Python strings *)

(** A [str] is a sequence of code points. *)
Definition char := N.
Definition str := list char.

Definition ch (a : ascii) : char := N_of_ascii a.
Definition u (s : string) : str := map N_of_ascii (list_ascii_of_string s).

Definition char_eqb (a b : char) : bool := N.eqb a b.

Definition bq : char := 96%N.  (* the backtick *)
Definition nl : char := 10%N.  (* line feed *)
Definition cr : char := 13%N.  (* carriage return *)
Definition bsl : char := 92%N. (* the backslash *)

Module Str.

(** [s.startswith(p)] *)
Fixpoint startswith (p s : str) : bool :=
  match p, s with
  | [], _ => true
  | _ :: _, [] => false
  | a :: p', b :: s' => char_eqb a b && startswith p' s'
  end.

(** [s.find(sub)]: the lowest index of an occurrence, or -1. *)
Fixpoint find_from (sub s : str) (i : Z) : Z :=
  if startswith sub s then i
  else match s with
       | [] => (-1)%Z
       | _ :: s' => find_from sub s' (i + 1)%Z
       end.

Definition find (s sub : str) : Z := find_from sub s 0%Z.

(** [s.rstrip(c)] for a one-character argument: every trailing [c] goes. *)
Fixpoint rstrip (s : str) (c : char) : str :=
  match s with
  | [] => []
  | x :: s' =>
      match rstrip s' c with
      | [] => if char_eqb x c then [] else [x]
      | r => x :: r
      end
  end.

(** [s.replace(old, new)]: all non-overlapping occurrences, leftmost
    first.  [skip] counts the characters of an occurrence still to be
    dropped.  With an empty [old] Python puts [new] around every
    character. *)
Fixpoint replace_aux (old new : str) (skip : nat) (s : str) : str :=
  match skip with
  | S k => match s with
           | [] => []
           | _ :: s' => replace_aux old new k s'
           end
  | O =>
      match s with
      | [] => []
      | c :: s' =>
          if startswith old s
          then new ++ replace_aux old new (length old - 1) s'
          else c :: replace_aux old new 0 s'
      end
  end.

Definition replace (s old new : str) : str :=
  match old with
  | [] => new ++ flat_map (fun c => c :: new) s
  | _ :: _ => replace_aux old new 0 s
  end.

(** [s.split(sep)] for a one-character separator: never empty, and a
    trailing separator leaves a last empty piece. *)
Fixpoint split (s : str) (sep : char) : list str :=
  match s with
  | [] => [[]]
  | c :: s' =>
      if char_eqb c sep then [] :: split s' sep
      else match split s' sep with
           | [] => [[c]]
           | w :: ws => (c :: w) :: ws
           end
  end.

End Str.

(** ** The [re] module, for the patterns of this program

    Every pattern of [m2m.py] is a sequence of anchors, group parentheses
    and one-character atoms with an optional [*] or [+]; there is no
    alternation and no quantified group.  The matcher below is Python's
    backtracking matcher restricted to that shape: quantifiers are greedy
    and give characters back one at a time. *)

Module Re.

Inductive quant := One | ZeroOrMore | OneOrMore.

Inductive item :=
| Bol                                   (* the anchor ^ *)
| Eol                                   (* the anchor $ *)
| Open                                  (* opens a group *)
| Close                                 (* closes a group *)
| Atom (cls : char -> bool) (q : quant).

Definition regex := list item.

(** Character classes. *)

(** [\s] on a [str] pattern: the characters for which [str.isspace]
    holds. *)
Definition space (c : char) : bool :=
  ((9 <=? c) && (c <=? 13) || (28 <=? c) && (c <=? 32)
   || (c =? 133) || (c =? 160) || (c =? 5760)
   || (8192 <=? c) && (c <=? 8202)
   || (c =? 8232) || (c =? 8233) || (c =? 8239) || (c =? 8287)
   || (c =? 12288))%N.

Definition lit (a : char) (c : char) : bool := char_eqb c a.
Definition dot (c : char) : bool := negb (char_eqb c nl).
Definition any (c : char) : bool := true.
Definition non (a : char) (c : char) : bool := negb (char_eqb c a).

(** [$] without [re.MULTILINE]: at the end of the string, or just before
    a newline that ends it. *)
Definition at_eol (s : str) : bool :=
  match s with
  | [] => true
  | c :: [] => char_eqb c nl
  | _ => false
  end.

(** The outcome of a successful match from a position: the positions
    of the group parentheses met, in pattern order, and the end. *)
Definition outcome : Type := list nat * nat.

Definition mark (pos : nat) (o : option outcome) : option outcome :=
  match o with
  | Some (ms, e) => Some (pos :: ms, e)
  | None => None
  end.

(** Greedy repetition of a class, then the continuation [k]; on failure
    of what follows, the last character taken is given back. *)
Fixpoint star (cls : char -> bool) (k : nat -> str -> option outcome)
         (pos : nat) (s : str) : option outcome :=
  match s with
  | c :: s' =>
      if cls c then
        match star cls k (S pos) s' with
        | Some o => Some o
        | None => k pos s
        end
      else k pos s
  | [] => k pos s
  end.

(** [s] is the subject from position [pos] on. *)
Fixpoint exec (p : regex) (pos : nat) (s : str) : option outcome :=
  match p with
  | [] => Some ([], pos)
  | Bol :: p' => if Nat.eqb pos 0 then exec p' pos s else None
  | Eol :: p' => if at_eol s then exec p' pos s else None
  | Open :: p' => mark pos (exec p' pos s)
  | Close :: p' => mark pos (exec p' pos s)
  | Atom cls One :: p' =>
      match s with
      | c :: s' => if cls c then exec p' (S pos) s' else None
      | [] => None
      end
  | Atom cls ZeroOrMore :: p' => star cls (exec p') pos s
  | Atom cls OneOrMore :: p' =>
      match s with
      | c :: s' => if cls c then star cls (exec p') (S pos) s' else None
      | [] => None
      end
  end.

(** A match object: the subject, the span and the group marks. *)
Record match_obj := MatchObj {
  m_string : str;
  m_start : nat;
  m_marks : list nat;
  m_end : nat
}.

Definition slice (s : str) (a b : nat) : str := take (b - a) (drop a s).

(** [m.group(i)] for [i >= 1]; a group the pattern does not have reads
    as the empty string. *)
Definition group (m : match_obj) (i : nat) : str :=
  match m_marks m !! (2 * (i - 1)), m_marks m !! (2 * (i - 1) + 1) with
  | Some a, Some b => slice (m_string m) a b
  | _, _ => []
  end.

(** [re.match(p, s)] *)
Definition match_ (p : regex) (s : str) : option match_obj :=
  match exec p 0 s with
  | Some (ms, e) => Some (MatchObj s 0 ms e)
  | None => None
  end.

(** [re.search(p, s)]: the leftmost position with a match. *)
Fixpoint search_from (p : regex) (subject : str) (pos : nat) (s : str)
  : option match_obj :=
  match exec p pos s with
  | Some (ms, e) => Some (MatchObj subject pos ms e)
  | None =>
      match s with
      | [] => None
      | _ :: s' => search_from p subject (S pos) s'
      end
  end.

Definition search (p : regex) (s : str) : option match_obj :=
  search_from p s 0 s.

(** [re.sub(p, repl, s)] with a function [repl]: matches are looked for
    from left to right and do not overlap.  [skip] counts the characters
    of the last match still to be passed over; an empty match is
    replaced and the scan moves on by one character. *)
Fixpoint sub_from (p : regex) (repl : match_obj -> str) (subject : str)
         (skip pos : nat) (s : str) : str :=
  match skip with
  | S k =>
      match s with
      | [] => []
      | _ :: s' => sub_from p repl subject k (S pos) s'
      end
  | O =>
      match exec p pos s with
      | Some (ms, e) =>
          repl (MatchObj subject pos ms e) ++
          match s with
          | [] => []
          | c :: s' =>
              if e <=? pos then c :: sub_from p repl subject 0 (S pos) s'
              else sub_from p repl subject (e - pos - 1) (S pos) s'
          end
      | None =>
          match s with
          | [] => []
          | c :: s' => c :: sub_from p repl subject 0 (S pos) s'
          end
      end
  end.

Definition sub (p : regex) (repl : match_obj -> str) (s : str) : str :=
  sub_from p repl s 0 0 s.

End Re.

Import Re.

(** ** The patterns of the program

    Each comment gives the source pattern, its tokens set apart by
    blanks. *)

Definition NEW_LINE : char := nl.

(* ^ \s* # \x20 ( .* ) $ *)
Definition HEADER_PATTERN : regex :=
  [Bol; Atom space ZeroOrMore; Atom (lit (ch "#")) One; Atom (lit (ch " ")) One;
   Open; Atom dot ZeroOrMore; Close; Eol].

(* ^ ( \s* ) \* ( \s ) ( .* ) $ *)
Definition QUESTION_PATTERN : regex :=
  [Bol; Open; Atom space ZeroOrMore; Close; Atom (lit (ch "*")) One;
   Open; Atom space One; Close; Open; Atom dot ZeroOrMore; Close; Eol].

(* ^ ( \s* ) - ( \s ) ! ( .* ) $ *)
Definition CORRECT_ANSWER_PATTERN : regex :=
  [Bol; Open; Atom space ZeroOrMore; Close; Atom (lit (ch "-")) One;
   Open; Atom space One; Close; Atom (lit (ch "!")) One;
   Open; Atom dot ZeroOrMore; Close; Eol].

(* ^ ( \s* ) - ( \s ) ( .* [^\x20] ) $ *)
Definition WRONG_ANSWER_PATTERN : regex :=
  [Bol; Open; Atom space ZeroOrMore; Close; Atom (lit (ch "-")) One;
   Open; Atom space One; Close;
   Open; Atom dot ZeroOrMore; Atom (non (ch " ")) One; Close; Eol].

(* ^ \s* $ *)
Definition EMPTY_LINE_PATTERN : regex :=
  [Bol; Atom space ZeroOrMore; Eol].

(* ``` ( .* ) \n ( [\s\S]+ ) ```   compiled with re.MULTILINE, which
   changes the anchors only; the pattern has none *)
Definition MULTI_LINE_CODE_PATTERN : regex :=
  [Atom (lit bq) One; Atom (lit bq) One; Atom (lit bq) One;
   Open; Atom dot ZeroOrMore; Close; Atom (lit nl) One;
   Open; Atom any OneOrMore; Close;
   Atom (lit bq) One; Atom (lit bq) One; Atom (lit bq) One].

(* ` ( [^`]+ ) ` *)
Definition SINGLE_LINE_CODE_PATTERN : regex :=
  [Atom (lit bq) One; Open; Atom (non bq) OneOrMore; Close; Atom (lit bq) One].

(* \$ ( .+ ) \$ *)
Definition SINGLE_DOLLAR_LATEX_PATTERN : regex :=
  [Atom (lit (ch "$")) One; Open; Atom dot OneOrMore; Close;
   Atom (lit (ch "$")) One].

(* \$\$ ( .+ ) \$\$ *)
Definition DOUBLE_DOLLAR_LATEX_PATTERN : regex :=
  [Atom (lit (ch "$")) One; Atom (lit (ch "$")) One;
   Open; Atom dot OneOrMore; Close;
   Atom (lit (ch "$")) One; Atom (lit (ch "$")) One].

(* ! \[ .* \] \( ( .+ ) \) *)
Definition IMAGE_PATTERN : regex :=
  [Atom (lit (ch "!")) One; Atom (lit (ch "[")) One; Atom dot ZeroOrMore;
   Atom (lit (ch "]")) One; Atom (lit (ch "(")) One;
   Open; Atom dot OneOrMore; Close; Atom (lit (ch ")")) One].

(** ** Line classifiers *)

Definition get_header (string : str) : option str :=
  match Re.match_ HEADER_PATTERN string with
  | Some m => Some (group m 1)
  | None => None
  end.

Definition get_question (string : str) : option str :=
  match Re.match_ QUESTION_PATTERN string with
  | Some m => Some (group m 3)
  | None => None
  end.

Definition get_correct_answer (string : str) : option str :=
  match Re.match_ CORRECT_ANSWER_PATTERN string with
  | Some m => Some (group m 3)
  | None => None
  end.

Definition get_wrong_answer (string : str) : option str :=
  match Re.match_ WRONG_ANSWER_PATTERN string with
  | Some m => Some (group m 3)
  | None => None
  end.

Definition is_header (string : str) : bool :=
  match get_header string with None => false | Some _ => true end.

Definition is_question (string : str) : bool :=
  match get_question string with None => false | Some _ => true end.

Definition is_correct_answer (string : str) : bool :=
  match get_correct_answer string with None => false | Some _ => true end.

Definition is_wrong_answer (string : str) : bool :=
  match get_wrong_answer string with None => false | Some _ => true end.

Definition is_empty_line (string : str) : bool :=
  match Re.match_ EMPTY_LINE_PATTERN string with None => false | Some _ => true end.

(** ** Python numbers

    A weight is the [int] 0 or a [float].  Floats are IEEE 754 binary64
    values, computed with the operations of [SpecFloat]. *)

Module Py.

Definition prec : Z := 53.
Definition emax : Z := 1024.

Inductive number :=
| PyInt (z : Z)
| PyFloat (f : spec_float).

(** [float(z)], rounded to nearest, ties to even. *)
Definition float_of_Z (z : Z) : spec_float := binary_normalize prec emax z 0 false.

(** [x / y] on floats. *)
Definition truediv (x y : spec_float) : spec_float := SFdiv prec emax x y.

(** The integer nearest to [n / d] for [d > 0], ties to even. *)
Definition div_half_even (n d : Z) : Z :=
  let q := (n / d)%Z in
  match (2 * (n mod d) ?= d)%Z with
  | Lt => q
  | Gt => (q + 1)%Z
  | Eq => if Z.even q then q else (q + 1)%Z
  end.

(** [round(x, ndigits)] for [ndigits >= 0]: the exact binary value of [x]
    is rounded to [ndigits] decimals, ties to even, and the decimal
    [k / 10^ndigits] found is converted back to the nearest float.  Both
    [k] and [10^ndigits] are floats themselves as long as they stay below
    [2^53], so that the conversion is one correctly rounded division. *)
Definition round (x : spec_float) (ndigits : Z) : spec_float :=
  match x with
  | S754_finite s m e =>
      let scale := (10 ^ ndigits)%Z in
      let k := div_half_even (Z.pos m * scale * 2 ^ Z.max e 0) (2 ^ Z.max (- e) 0) in
      if (k =? 0)%Z then S754_zero s
      else truediv (float_of_Z (if s then - k else k)%Z) (float_of_Z scale)
  | _ => x
  end.

(** The rational a float denotes (0 for what is not finite). *)
Definition Q_of_float (x : spec_float) : Q :=
  match x with
  | S754_finite s m e =>
      let n := (if s then Z.neg m else Z.pos m) in
      if (0 <=? e)%Z then inject_Z (n * 2 ^ e) else n # Z.to_pos (2 ^ (- e))
  | _ => 0%Q
  end.

Definition value (w : number) : Q :=
  match w with
  | PyInt z => inject_Z z
  | PyFloat f => Q_of_float f
  end.

End Py.

Import Py.

(** ** Exceptions *)

Inductive exn :=
  | KeyError (key : str)
  | BadAddress.   (* an address outside the store; never raised, see [parse_rows_wf] *)

Inductive result (A : Type) :=
  | Ok (a : A)
  | Raise (e : exn).
Arguments Ok {A} a.
Arguments Raise {A} e.

Definition bind {A B} (r : result A) (k : A -> result B) : result B :=
  match r with
  | Ok a => k a
  | Raise e => Raise e
  end.

Notation "x <- e1 ;; e2" := (bind e1 (fun x => e2))
  (at level 100, e1 at next level, e2 at level 200, right associativity).

(** ** The document model

    The parser builds dicts and lists that it keeps reaching through
    several names ([section] is also [dictionary[caption]],
    [current_question] is also an element of a section), so the objects
    live in a store and are named by their address.  A key that a dict does
    not have is [None]. *)

(** {'text': ..., 'correct': ..., 'weight': ...} *)
Record answer := Answer {
  a_text : str;
  a_correct : bool;
  a_weight : option number
}.

(** {'text': ..., 'answers': [...], 'single': ...}; the answers of a
    question are reached through that question only. *)
Record question := Question {
  q_text : option str;
  q_answers : option (list answer);
  q_single : option bool
}.

Record store := Store {
  dictionary : list (str * nat);  (* caption -> address of a list, in insertion order *)
  lists : list (list nat);        (* the section lists: addresses of questions *)
  dicts : list question           (* the question dicts *)
}.

Fixpoint str_eqb (a b : str) : bool :=
  match a, b with
  | [], [] => true
  | x :: a', y :: b' => char_eqb x y && str_eqb a' b'
  | _, _ => false
  end.

(** [d[k]] *)
Fixpoint dict_get {V} (d : list (str * V)) (k : str) : option V :=
  match d with
  | [] => None
  | (k', v) :: d' => if str_eqb k' k then Some v else dict_get d' k
  end.

(** [d[k] = v]: a key already there keeps its place. *)
Fixpoint dict_set {V} (d : list (str * V)) (k : str) (v : V) : list (str * V) :=
  match d with
  | [] => [(k, v)]
  | (k', v') :: d' =>
      if str_eqb k' k then (k', v) :: d' else (k', v') :: dict_set d' k v
  end.

Definition keys {V} (d : list (str * V)) : list str := map fst d.

(** The question objects of the document: those in a list bound to a
    caption. *)
Definition reachable (st : store) (i : nat) : Prop :=
  exists key a section,
    dict_get (dictionary st) key = Some a /\
    lists st !! a = Some section /\
    i ∈ section.

Definition in_document (st : store) (q : question) : Prop :=
  exists i, reachable st i /\ dicts st !! i = Some q.

(** The document as a value: each caption with the questions of its
    section. *)
Definition section_view (st : store) (a : nat) : list question :=
  omap (fun i => dicts st !! i) (default [] (lists st !! a)).

Definition document (st : store) : list (str * list question) :=
  map (fun '(k, a) => (k, section_view st a)) (dictionary st).

(** ** The scoring pass *)

Definition count_correct (answers : list answer) : nat :=
  length (List.filter a_correct answers).

Definition score (weight : spec_float) (a : answer) : answer :=
  if a_correct a
  then Answer (a_text a) (a_correct a) (Some (PyFloat weight))
  else Answer (a_text a) (a_correct a) (Some (PyInt 0)).

(** The body of the inner loop of [completing_dictionary]. *)
Definition complete_question (q : question) : result question :=
  match q_answers q with
  | None => Raise (KeyError (u "answers"))
  | Some answers =>
      let correct_answers := List.filter a_correct answers in
      let correct_answer_count := length correct_answers in
      let correct_answer_count :=
        if correct_answer_count <? 1 then 1 else correct_answer_count in
      let single := correct_answer_count =? 1 in
      let weight :=
        Py.round (truediv (float_of_Z 100) (float_of_Z (Z.of_nat correct_answer_count))) 7 in
      Ok (Question (q_text q) (Some (map (score weight) answers)) (Some single))
  end.

(** [for question in section], writing each question back in place. *)
Fixpoint complete_section (ds : list question) (section : list nat)
  : result (list question) :=
  match section with
  | [] => Ok ds
  | i :: section' =>
      match ds !! i with
      | None => Raise BadAddress
      | Some q =>
          q' <- complete_question q ;;
          complete_section (<[i := q']> ds) section'
      end
  end.

(** [for key in dictionary] *)
Fixpoint complete_keys (d : list (str * nat)) (ls : list (list nat))
         (ds : list question) (ks : list str) : result (list question) :=
  match ks with
  | [] => Ok ds
  | key :: ks' =>
      match dict_get d key with
      | None => Raise (KeyError key)
      | Some a =>
          match ls !! a with
          | None => Raise BadAddress
          | Some section =>
              ds' <- complete_section ds section ;;
              complete_keys d ls ds' ks'
          end
      end
  end.

Definition completing_dictionary (st : store) : result store :=
  ds <- complete_keys (dictionary st) (lists st) (dicts st) (keys (dictionary st)) ;;
  Ok (Store (dictionary st) (lists st) ds).

(** ** The parser *)

(** The local variables of [md_script_to_dictionary].  [current_answer] is
    assigned and never read, and is left out. *)
Record pstate := PState {
  heap : store;
  section : nat;            (* address of the list [section] *)
  current_question : nat    (* address of the dict [current_question] *)
}.

(** [dictionary = {}] and [section, current_question = ([], {})]: the list
    at address 0 and the dict at address 0 are bound to no caption and are
    in no section. *)
Definition initial : pstate :=
  PState (Store [] [[]] [Question None None None]) 0 0.

(** [current_question['answers'].append(current_answer)] *)
Definition append_answer (ps : pstate) (current_answer : answer) : result pstate :=
  let st := heap ps in
  match dicts st !! current_question ps with
  | None => Raise BadAddress
  | Some q =>
      match q_answers q with
      | None => Raise (KeyError (u "answers"))
      | Some answers =>
          let q' := Question (q_text q) (Some (answers ++ [current_answer])) (q_single q) in
          Ok (PState (Store (dictionary st) (lists st)
                            (<[current_question ps := q']> (dicts st)))
                     (section ps) (current_question ps))
      end
  end.

(** [current_question['text'] = text] *)
Definition set_text (ps : pstate) (q : question) (text : str) : pstate :=
  let st := heap ps in
  PState (Store (dictionary st) (lists st)
                (<[current_question ps := Question (Some text) (q_answers q) (q_single q)]>
                   (dicts st)))
         (section ps) (current_question ps).

(** One turn of the loop, on the row already stripped.  The tests follow
    the [if]/[elif] chain; [is_header md_row] holds exactly when
    [get_header md_row] is a caption, and so on for the other three. *)
Definition parse_row (ps : pstate) (md_row : str) : result pstate :=
  let st := heap ps in
  match get_header md_row with
  | Some caption =>
      let section := length (lists st) in
      Ok (PState (Store (dict_set (dictionary st) caption section)
                        (lists st ++ [[]]) (dicts st))
                 section (current_question ps))
  | None =>
  match get_question md_row with
  | Some text =>
      let current_question := length (dicts st) in
      match lists st !! section ps with
      | None => Raise BadAddress
      | Some l =>
          Ok (PState (Store (dictionary st)
                            (<[section ps := l ++ [current_question]]> (lists st))
                            (dicts st ++ [Question (Some text) (Some []) None]))
                     (section ps) current_question)
      end
  | None =>
  match get_correct_answer md_row with
  | Some text => append_answer ps (Answer text true None)
  | None =>
  match get_wrong_answer md_row with
  | Some text => append_answer ps (Answer text false None)
  | None =>
      match dicts st !! current_question ps with
      | None => Raise BadAddress
      | Some q =>
          if negb (is_empty_line md_row) then
            let text := match q_text q with Some t => t | None => [] end in
            Ok (set_text ps q (text ++ md_row ++ [nl]))
          else
            match q_text q with
            | Some text =>
                if (Str.find text (u "```") >? -1)%Z
                then Ok (set_text ps q (text ++ md_row ++ [nl]))
                else Ok ps
            | None => Ok ps
            end
      end
  end end end end.

Definition strip_row (md_row : str) : str :=
  Str.rstrip (Str.rstrip md_row cr) nl.

(** [for md_row in md_script.split(NEW_LINE)] *)
Fixpoint parse_rows (ps : pstate) (rows : list str) : result pstate :=
  match rows with
  | [] => Ok ps
  | md_row :: rows' =>
      ps' <- parse_row ps (strip_row md_row) ;;
      parse_rows ps' rows'
  end.

Definition md_script_to_dictionary (md_script : str) : result store :=
  ps <- parse_rows initial (Str.split md_script NEW_LINE) ;;
  completing_dictionary (heap ps).

(** ** The renderers *)

Definition wrap_cdata (html : str) : str := u "<![CDATA[" ++ html ++ u "]]>".

Definition sanitize_entities (text : str) : str :=
  let text := Str.replace text (u "&") (u "&amp;") in
  let text := Str.replace text (u ">") (u "&gt;") in
  let text := Str.replace text (u "<") (u "&lt;") in
  text.

(** The source writes the opening delimiter as the literal '\\\\\(': two
    escaped backslashes, then a backslash that escapes nothing and stays,
    then the parenthesis.  The closing one is '\\\\)'. *)
Definition replace_latex (m : match_obj) : str :=
  let code := group m 1 in
  let code := Str.replace code (u "(") (u "\left(") in
  let code := Str.replace code (u ")") (u "\right)") in
  u "\\\(" ++ code ++ u "\\)".

Definition replace_single_line_code (m : match_obj) : str :=
  let code := group m 1 in
  let code := sanitize_entities code in
  u "<code>" ++ code ++ u "</code>".

Section Renderers.

(** The capabilities the program takes from libraries and from the
    system: [markdown.markdown], the pygments rasterizer behind
    [convert_code_image_base64], and the path test, path join and byte
    loader behind [replace_image]. *)
Variable markdown : str -> str.
Variable convert_code_image_base64 : str -> str -> str.
Variable isabs : str -> bool.
Variable path_join : str -> str -> str.
Variable build_image_tag : str -> str.

(** [if not lexer: lexer = ''] changes nothing: the group always takes
    part in the match, and the only falsy [str] is the empty one. *)
Definition replace_multi_line_code (m : match_obj) : str :=
  let lexer := group m 1 in
  let code := group m 2 in
  let to_image := (Str.find lexer (u "{img}") >? 0)%Z in
  if to_image then
    let lexer := Str.replace lexer (u "{img}") [] in
    convert_code_image_base64 lexer code
  else
    let code := sanitize_entities code in
    u "<pre><code>" ++ code ++ u "</code></pre>".

Definition replace_image_wrapper (md_dir_path : str) (m : match_obj) : str :=
  let file_name := group m 1 in
  let file_name :=
    if negb (isabs file_name) && (Str.find file_name (u "://") =? -1)%Z
    then path_join md_dir_path file_name
    else file_name in
  build_image_tag file_name.

Definition render_answer (text : str) : str :=
  let convert_html := false in
  let '(text, convert_html) :=
    match Re.search SINGLE_LINE_CODE_PATTERN text with
    | Some _ =>
        let text := sanitize_entities text in
        (Re.sub SINGLE_LINE_CODE_PATTERN replace_single_line_code text, true)
    | None => (text, convert_html)
    end in
  let '(text, convert_html) :=
    match Re.search SINGLE_DOLLAR_LATEX_PATTERN text with
    | Some _ => (Re.sub SINGLE_DOLLAR_LATEX_PATTERN replace_latex text, true)
    | None => (text, convert_html)
    end in
  if convert_html then wrap_cdata (markdown text) else text.

Definition render_text (text md_dir_path : str) : str :=
  let text := Re.sub MULTI_LINE_CODE_PATTERN replace_multi_line_code text in
  let text := Re.sub SINGLE_LINE_CODE_PATTERN replace_single_line_code text in
  let text := Re.sub IMAGE_PATTERN (replace_image_wrapper md_dir_path) text in
  let text := Re.sub DOUBLE_DOLLAR_LATEX_PATTERN replace_latex text in
  let text := Re.sub SINGLE_DOLLAR_LATEX_PATTERN replace_latex text in
  let text := markdown text in
  text.

End Renderers.

(** ** Notions used in the statements *)

(** [round(100.0 / count, 7)] *)
Definition share (count : nat) : spec_float :=
  Py.round (truediv (float_of_Z 100) (float_of_Z (Z.of_nat count))) 7.

(** The denominator of [completing_dictionary]. *)
Definition clamp (count : nat) : nat := if count <? 1 then 1 else count.

Definition weight_value (a : answer) : Q :=
  match a_weight a with
  | Some w => value w
  | None => 0%Q
  end.

(** The sum of the weights of the correct answers. *)
Definition correct_weight_sum (answers : list answer) : Q :=
  fold_right Qplus 0%Q (map weight_value (List.filter a_correct answers)).

(** The sum of [n] shares, against 100 and the tolerance 1e-6. *)
Definition within_tolerance (n : nat) : bool :=
  Qle_bool (Qabs (fold_right Qplus 0%Q (repeat (Q_of_float (share n)) n) - 100))
           (1 # 1000000).

(** A question the pass leaves as it is. *)
Definition completed (q : question) : Prop := complete_question q = Ok q.

(** Every address in use is in the store, and every question in a section
  has its ['answers'] key. *)
Definition wf (ps : pstate) : Prop :=
  let st := heap ps in
  section ps < length (lists st) /\
  current_question ps < length (dicts st) /\
  (forall key a, dict_get (dictionary st) key = Some a -> a < length (lists st)) /\
  (forall a sec i, lists st !! a = Some sec -> i ∈ sec ->
   exists q, dicts st !! i = Some q /\ q_answers q <> None).

(** The first character of a row that is not white space. *)
Fixpoint lead (s : str) : option char :=
  match s with
  | [] => None
  | c :: s' => if space c then lead s' else Some c
  end.

(** Rows of white space. *)
Definition blank (s : str) : bool := forallb space s.

(** The text gathered so far for the current question, if it has any. *)
Definition current_text (ps : pstate) : option str :=
  match dicts (heap ps) !! current_question ps with
  | Some q => q_text q
  | None => None
  end.

(** No question has started: [current_question] is still a dict without
    ['answers']. *)
Definition no_question (ps : pstate) : Prop :=
  exists q, dicts (heap ps) !! current_question ps = Some q /\ q_answers q = None.

(** No header has been seen: nothing is bound in [dictionary] and the only
    list is the one [section] started with. *)
Definition no_header (ps : pstate) : Prop :=
  dictionary (heap ps) = [] /\ length (lists (heap ps)) = 1.

(** The question at address [i] is out of every list but the first, and
    only those lists are bound to captions. *)
Definition dropped (i : nat) (ps : pstate) : Prop :=
  i < length (dicts (heap ps)) /\
  (forall key a, dict_get (dictionary (heap ps)) key = Some a -> 1 <= a) /\
  (forall a sec, 1 <= a -> lists (heap ps) !! a = Some sec -> i ∉ sec).

(** What [replace_latex] does to the body of a math span. *)
Definition normalize_math (code : str) : str :=
  Str.replace (Str.replace code (u "(") (u "\left(")) (u ")") (u "\right)").

(** [s] has no character [a]. *)
Definition lacks (a : char) (s : str) : bool := forallb (non a) s.

(** Text that the code, image and math passes of [render_text] leave
    alone: no dollar sign, no backtick, no exclamation mark. *)
Definition plain (s : str) : bool :=
  lacks (ch "$") s && lacks bq s && lacks (ch "!") s.

(** ** Sample inputs *)

Definition unlines (rows : list str) : str :=
  concat (map (fun r => r ++ [nl]) rows).

(** A section with one question, a wrong answer and a correct one. *)
Definition sample_quiz : str :=
  unlines [u "# Sec1"; u "* What is 2+2?"; u "- 3"; u "- !4"].

Definition sample_question : question :=
  Question (Some (u "What is 2+2?"))
           (Some [Answer (u "3") false (Some (PyInt 0));
                  Answer (u "4") true (Some (PyFloat (float_of_Z 100)))])
           (Some true).

Definition sample_store : store :=
  Store [(u "Sec1", 1)] [[]; [1]] [Question None None None; sample_question].

(** A question with 26 correct answers. *)
Definition many_correct : str :=
  unlines (u "# S" :: u "* q" :: repeat (u "- !a") 26).

Definition many_correct_store : store :=
  Eval vm_compute in
    match md_script_to_dictionary many_correct with
    | Ok st => st
    | Raise _ => Store [] [] []
    end.

Definition many_correct_question : question :=
  Eval vm_compute in
    match dicts many_correct_store !! 1 with
    | Some q => q
    | None => Question None None None
    end.

(** A question started before the first header. *)
Definition early_question : list str := [u "* lost"; u "# Sec1"; u ""].

Definition early_question_store : store :=
  Store [(u "Sec1", 1)] [[1]; []]
        [Question None None None; Question (Some (u "lost")) (Some []) None].

(** An answer before any question. *)
Definition early_answer : list str := [u "# Sec1"; u "text"; u "- !4"; u ""].

(** A question whose text opens a fenced block, and the state of the
    parser after it. *)
Definition fenced_rows : list str := [u "# S"; u "* ```"].

Definition fenced_state : pstate :=
  PState (Store [(u "S", 1)] [[]; [1]]
                [Question None None None; Question (Some (u "```")) (Some []) None])
         1 1.

(** A stand-in for [markdown] in examples: one paragraph around the
    text. *)
Definition paragraph (html : str) : str := u "<p>" ++ html ++ u "</p>".

(** ** Rows written in the dialect

    The shapes the four patterns are meant for, used to state what the
    classifiers and the parser read back. *)

(** Text that can stand on a row: no line feed, and no carriage return at
    its end, which [strip_row] would take away. *)
Definition row_text (t : str) : bool :=
  lacks nl t && negb (match last t with Some c => char_eqb c cr | None => false end).

Definition header_row (caption : str) : str := u "# " ++ caption.
Definition question_row (text : str) : str := u "* " ++ text.
Definition correct_row (text : str) : str := u "- !" ++ text.
Definition wrong_row (text : str) : str := u "- " ++ text.

(** Text that ends in a character other than the blank. *)
Definition ends_unblank (t : str) : bool :=
  match last t with
  | Some c => negb (char_eqb c (ch " "))
  | None => false
  end.

(** Text that does not start with the mark of a correct answer. *)
Definition unmarked (t : str) : bool :=
  match t with
  | c :: _ => negb (char_eqb c (ch "!"))
  | [] => true
  end.

(** What a wrong answer must look like to be read as one. *)
Definition wrong_text (t : str) : bool := ends_unblank t && unmarked t.

(** ["\n".join(rows)] *)
Fixpoint join_lines (rows : list str) : str :=
  match rows with
  | [] => []
  | [r] => r
  | r :: rows' => r ++ nl :: join_lines rows'
  end.

(** ** Quizzes as data

    A quiz is a list of sections, each a caption and its questions, each a
    text and its answers, each a text and whether it is correct.  The rows
    below write a quiz in the dialect; the states and questions below are
    what the parser and the scoring pass are shown to make of them. *)

Abbreviation raw_answer := (str * bool)%type.
Abbreviation raw_question := (str * list raw_answer)%type.
Abbreviation raw_section := (str * list raw_question)%type.

Definition answer_row (a : raw_answer) : str :=
  if snd a then correct_row (fst a) else wrong_row (fst a).

Definition question_rows (q : raw_question) : list str :=
  question_row (fst q) :: map answer_row (snd q).

Definition section_rows (s : raw_section) : list str :=
  header_row (fst s) :: concat (map question_rows (snd s)).

Definition quiz_rows (z : list raw_section) : list str :=
  concat (map section_rows z).

Definition valid_answer (a : raw_answer) : bool :=
  row_text (fst a) && (snd a || wrong_text (fst a)).

Definition valid_question (q : raw_question) : bool :=
  row_text (fst q) && forallb valid_answer (snd q).

Definition valid_section (s : raw_section) : bool :=
  row_text (fst s) && forallb valid_question (snd s).

(** The answer and the question as the parser builds them. *)
Definition parsed_answer (a : raw_answer) : answer := Answer (fst a) (snd a) None.

Definition parsed_question (q : raw_question) : question :=
  Question (Some (fst q)) (Some (map parsed_answer (snd q))) None.

(** The question as the scoring pass leaves it. *)
Definition scored_question (q : raw_question) : question :=
  let answers := map parsed_answer (snd q) in
  Question (Some (fst q))
           (Some (map (score (share (clamp (count_correct answers)))) answers))
           (Some (clamp (count_correct answers) =? 1)).

(** The store after the sections [z]: the lists hold consecutive
    addresses, the dicts are the questions in the order of the rows. *)
Fixpoint layout (base : nat) (counts : list nat) : list (list nat) :=
  match counts with
  | [] => []
  | n :: counts' => seq base n :: layout (base + n) counts'
  end.

Fixpoint bindings (a : nat) (z : list raw_section) : list (str * nat) :=
  match z with
  | [] => []
  | s :: z' => (fst s, a) :: bindings (S a) z'
  end.

Definition all_questions (z : list raw_section) : list raw_question :=
  concat (map snd z).

Definition counts (z : list raw_section) : list nat :=
  map (fun s => length (snd s)) z.

Definition state_of (z : list raw_section) : pstate :=
  PState (Store (bindings 1 z)
                ([] :: layout 1 (counts z))
                (Question None None None :: map parsed_question (all_questions z)))
         (length z) (length (all_questions z)).

Definition scored_store (z : list raw_section) : store :=
  Store (bindings 1 z)
        ([] :: layout 1 (counts z))
        (Question None None None :: map scored_question (all_questions z)).


(** ** The math passes in the words of the specification

    The definitions of this part follow the description of the math
    passes and not the code: they use no pattern and no matcher.  They are
    compared with [Re.sub] over the two math patterns below. *)

(** What is put in the place of a math block or span with body [body]:
    the normalized body between an opening delimiter of three backslashes
    and a parenthesis and a closing delimiter of two backslashes and a
    parenthesis. *)
Definition inline_math (body : str) : str :=
  u "\\\(" ++ normalize_math body ++ u "\\)".

(** The number of characters at the start of [s] that are in [cls]. *)
Fixpoint run (cls : char -> bool) (s : str) : nat :=
  match s with
  | c :: s' => if cls c then S (run cls s') else 0
  | [] => 0
  end.

(** The longest body of at most [n] characters of [rest], and of one at
    least, that the delimiter [d] follows. *)
Fixpoint longest_body (d rest : str) (n : nat) : option str :=
  match n with
  | 0 => None
  | S n' =>
      if Str.startswith d (drop n rest) then Some (take n rest)
      else longest_body d rest n'
  end.

(** The body of the math block or span that [s] opens with, if it opens
    with one: the delimiter [d], a body that is not empty, has no line
    feed and runs to the last closing delimiter on its line, and that
    delimiter. *)
Definition math_span (d s : str) : option str :=
  if Str.startswith d s then
    let rest := drop (length d) s in
    longest_body d rest (run dot rest)
  else None.

(** The text is gone through from left to right; a block or span is
    replaced as a whole, any other character is copied.  [skip] counts the
    characters of the last block or span still to be passed over. *)
Fixpoint collapse_from (d : str) (skip : nat) (s : str) : str :=
  match s with
  | [] => []
  | c :: s' =>
      match skip with
      | S k => collapse_from d k s'
      | 0 =>
          match math_span d s with
          | Some body =>
              inline_math body ++
              collapse_from d (length d + length body + length d - 1) s'
          | None => c :: collapse_from d 0 s'
          end
      end
  end.

Definition collapse_math (d s : str) : str := collapse_from d 0 s.

(** The text the math passes of [render_text] are given: the question
    body after the fenced-code, inline-code and image passes. *)
Definition before_math (convert_code_image_base64 : str -> str -> str)
           (isabs : str -> bool) (path_join : str -> str -> str)
           (build_image_tag : str -> str) (text md_dir_path : str) : str :=
  let text := Re.sub MULTI_LINE_CODE_PATTERN
                     (replace_multi_line_code convert_code_image_base64) text in
  let text := Re.sub SINGLE_LINE_CODE_PATTERN replace_single_line_code text in
  let text := Re.sub IMAGE_PATTERN
                     (replace_image_wrapper isabs path_join build_image_tag md_dir_path)
                     text in
  text.

(** What is tried from a position on, and then from each position before it
    down to the start, until one succeeds. *)
Fixpoint back (k : nat -> str -> option outcome) (pos : nat) (s : str) (n : nat)
  : option outcome :=
  match k (pos + n) (drop n s) with
  | Some o => Some o
  | None =>
      match n with
      | 0 => None
      | S n' => back k pos s n'
      end
  end.


(** Captions that are all different. *)
Fixpoint distinct (l : list str) : bool :=
  match l with
  | [] => true
  | k :: l' => negb (existsb (str_eqb k) l') && distinct l'
  end.

(** A quiz that the dialect can write: no text holds a line feed or ends
    in a carriage return, a wrong answer ends in a character other than
    the blank and does not start with an exclamation mark, and no caption
    comes twice. *)
Definition valid_quiz (z : list raw_section) : bool :=
  forallb valid_section z && distinct (map fst z).

(** The document of a quiz after scoring. *)
Definition scored_document (z : list raw_section) : list (str * list question) :=
  map (fun s => (fst s, map scored_question (snd s))) z.

(** The quiz of the sample script. *)
Definition sample_sections : list raw_section :=
  [(u "Sec1", [(u "What is 2+2?", [(u "3", false); (u "4", true)])])].


(** A question has started: [current_question] has its ['answers']. *)
Definition has_question (ps : pstate) : Prop :=
  exists q answers,
    dicts (heap ps) !! current_question ps = Some q /\ q_answers q = Some answers.

(** Of the rows that are a question or an answer, the first is an
    answer. *)
Fixpoint answer_first (rows : list str) : bool :=
  match rows with
  | [] => false
  | r :: rows' =>
      if is_question (strip_row r) then false
      else if is_correct_answer (strip_row r) || is_wrong_answer (strip_row r) then true
      else answer_first rows'
  end.


(** A script without a header. *)
Definition headerless_quiz : str := join_lines [u "* What is 2+2?"; u "- !4"].

Definition headerless_store : store :=
  Store [] [[1]]
        [Question None None None;
         Question (Some (u "What is 2+2?")) (Some [Answer (u "4") true None]) None].

(** Two sections, the answer of the first written after the header of the
    second. *)
Definition late_answer_sections : list raw_section :=
  [(u "A", [(u "q", [])]); (u "B", [])].


(** ** The XML assembler

    [answer_to_xml], [question_to_xml] and [section_to_xml].  The
    questions of a section are read as [section_view] gives them.  The
    assembler reads keys that the parser does not set (['single'],
    ['weight']), so every read can raise; [str.encode] raises on a
    surrogate code point. *)

Definition dq : char := 34%N.  (* the double quote *)

(** [str(z)] for an [int] *)
Definition str_of_int (z : Z) : str := u (NilZero.string_of_int (Z.to_int z)).

(** [s.rjust(width, fillchar)] *)
Definition rjust (s : str) (width : nat) (fillchar : char) : str :=
  repeat fillchar (width - length s) ++ s.

Definition surrogate (c : char) : bool := ((55296 <=? c) && (c <=? 57343))%N.

(** Text that [encode('utf-8')] takes. *)
Definition encodable (s : str) : bool := forallb (fun c => negb (surrogate c)) s.

Inductive xml_exn :=
  | Lookup (e : exn)
  | UnicodeEncodeError.

Inductive xml_result (A : Type) :=
  | XOk (a : A)
  | XRaise (e : xml_exn).
Arguments XOk {A} a.
Arguments XRaise {A} e.

Definition ANSWER_NUMBERING : str := u "abc".

Section Assembler.

Variable markdown : str -> str.
Variable convert_code_image_base64 : str -> str -> str.
Variable isabs : str -> bool.
Variable path_join : str -> str -> str.
Variable build_image_tag : str -> str.

(** [str(x)] for a [float] *)
Variable float_str : spec_float -> str.

(** [hashlib.md5(s.encode('utf-8')).hexdigest()] for a text that
    [encode] takes *)
Variable md5_hexdigest : str -> str.

(** The generator behind [random.random()]: a draw and the generator
    after it. *)
Variable rng : Type.
Variable random : rng -> spec_float * rng.

Definition str_of_number (w : number) : str :=
  match w with
  | PyInt z => str_of_int z
  | PyFloat f => float_str f
  end.

Definition answer_to_xml (a : answer) : xml_result str :=
  let text := a_text a in
  let text := render_answer markdown text in
  match a_weight a with
  | None => XRaise (Lookup (KeyError (u "weight")))
  | Some weight =>
      let xml := u "<answer fraction=" ++ [dq] ++ str_of_number weight ++ [dq] ++ u ">" in
      let xml := xml ++ u "<text>" ++ text ++ u "</text>" in
      let xml := xml ++ u "</answer>" in
      XOk xml
  end.

(** [for answer in question['answers']: xml += answer_to_xml(answer)] *)
Fixpoint answers_to_xml (xml : str) (answers : list answer) : xml_result str :=
  match answers with
  | [] => XOk xml
  | a :: answers' =>
      match answer_to_xml a with
      | XOk x => answers_to_xml (xml ++ x) answers'
      | XRaise e => XRaise e
      end
  end.

Definition question_to_xml (q : question) (index : nat) (md_dir_path : str) (g : rng)
  : xml_result (str * rng) :=
  match q_text q with
  | None => XRaise (Lookup (KeyError (u "text")))
  | Some text =>
      let rendered_question_text :=
        render_text markdown convert_code_image_base64 isabs path_join build_image_tag
                    text md_dir_path in
      let index_part := rjust (str_of_int (Z.of_nat index + 1)) 4 (ch "0") in
      let '(draw, g) := random g in
      let q_part := text ++ float_str draw in
      if negb (encodable q_part) then XRaise UnicodeEncodeError
      else
        match q_single q with
        | None => XRaise (Lookup (KeyError (u "single")))
        | Some single =>
            let question_single_status := if single then u "true" else u "false" in
            let xml := u "<question type=" ++ [dq] ++ u "multichoice" ++ [dq] ++ u ">" in
            let xml := xml ++ u "<name><text>" in
            let xml := xml ++ index_part ++ md5_hexdigest q_part in
            let xml := xml ++ u "</text></name>" in
            let xml := xml ++ u "<questiontext format=" ++ [dq] ++ u "html" ++ [dq] ++
                       u "><text><![CDATA[" in
            let xml := xml ++ rendered_question_text in
            let xml := xml ++ u "]]></text></questiontext>" in
            match q_answers q with
            | None => XRaise (Lookup (KeyError (u "answers")))
            | Some answers =>
                match answers_to_xml xml answers with
                | XRaise e => XRaise e
                | XOk xml =>
                    let xml := xml ++ u "<shuffleanswers>1</shuffleanswers>" in
                    let xml := xml ++ u "<single>" ++ question_single_status ++
                               u "</single>" in
                    let xml := xml ++ u "<answernumbering>" ++ ANSWER_NUMBERING ++
                               u "</answernumbering>" in
                    let xml := xml ++ u "</question>" in
                    XOk (xml, g)
                end
            end
        end
  end.

(** [for index, question in enumerate(section): xml += question_to_xml(...)] *)
Fixpoint questions_to_xml (xml : str) (index : nat) (section : list question)
         (md_dir_path : str) (g : rng) : xml_result (str * rng) :=
  match section with
  | [] => XOk (xml, g)
  | question :: section' =>
      match question_to_xml question index md_dir_path g with
      | XOk (x, g') => questions_to_xml (xml ++ x) (S index) section' md_dir_path g'
      | XRaise e => XRaise e
      end
  end.

Definition section_to_xml (section_caption : str) (section : list question)
           (md_dir_path : str) (g : rng) : xml_result (str * rng) :=
  let xml := u "<?xml version=" ++ [dq] ++ u "1.0" ++ [dq] ++ u " ?><quiz>" in
  let xml := xml ++ u "<question type=" ++ [dq] ++ u "category" ++ [dq] ++
             u "><category><text>" ++ section_caption ++
             u "</text></category></question>" in
  match questions_to_xml xml 0 section md_dir_path g with
  | XOk (xml, g) => XOk (xml ++ u "</quiz>", g)
  | XRaise e => XRaise e
  end.

End Assembler.

(** Every question in a section list has its ['text']. *)
Definition texted (st : store) : Prop :=
  forall a sec i q,
    lists st !! a = Some sec -> i ∈ sec -> dicts st !! i = Some q -> q_text q <> None.

(** A question with every key the assembler reads. *)
Definition renderable (q : question) : Prop :=
  (exists text, q_text q = Some text) /\
  (exists single, q_single q = Some single) /\
  exists answers, q_answers q = Some answers /\
                  Forall (fun a => a_weight a <> None) answers.

(** The text of a question can be encoded. *)
Definition encodable_text (q : question) : bool :=
  match q_text q with
  | Some text => encodable text
  | None => true
  end.


(** ** The code and image passes in words

    As for the math passes, the definitions of this part use no pattern
    and no matcher; they are compared with [Re.sub] over the patterns. *)

(** A text is gone through from left to right.  Where [find] sees a span,
    it gives what to write for it and the length of the span, and the
    text is taken up again after the span; any other character is
    copied.  [skip] counts the characters of the last span still to be
    passed over. *)
Fixpoint rewrite_from (find : str -> option (str * nat)) (skip : nat) (s : str) : str :=
  match s with
  | [] => []
  | c :: s' =>
      match skip with
      | S k => rewrite_from find k s'
      | 0 =>
          match find s with
          | Some (out, len) => out ++ rewrite_from find (len - 1) s'
          | None => c :: rewrite_from find 0 s'
          end
      end
  end.

Definition rewrite_spans (find : str -> option (str * nat)) (s : str) : str :=
  rewrite_from find 0 s.

(** The body of the code span that [s] opens with: a backtick, one or
    more characters other than the backtick, a backtick. *)
Definition code_span (s : str) : option str :=
  match s with
  | c :: rest =>
      if char_eqb c bq then
        let n := run (non bq) rest in
        if (0 <? n) && Str.startswith [bq] (drop n rest) then Some (take n rest)
        else None
      else None
  | [] => None
  end.

(** What is written for a code span. *)
Definition inline_code (body : str) : str :=
  u "<code>" ++ sanitize_entities body ++ u "</code>".

Definition find_code (s : str) : option (str * nat) :=
  match code_span s with
  | Some body => Some (inline_code body, length body + 2)
  | None => None
  end.

(** The language tag and the code of the fenced block that [s] opens
    with: three backticks, the rest of the line as the tag, a line feed,
    and code that is not empty and runs to the last three backticks of the
    whole text. *)
Definition fenced_block (s : str) : option (str * str) :=
  if Str.startswith (u "```") s then
    let rest := drop 3 s in
    let n := run dot rest in
    if Str.startswith [nl] (drop n rest) then
      let below := drop (S n) rest in
      match longest_body (u "```") below (length below) with
      | Some code => Some (take n rest, code)
      | None => None
      end
    else None
  else None.

Section Passes.

Variable convert_code_image_base64 : str -> str -> str.
Variable isabs : str -> bool.
Variable path_join : str -> str -> str.
Variable build_image_tag : str -> str.

(** What is written for a fenced block: the image of the code when the
    tag holds [{img}] after its first character, the escaped code in
    [pre] and [code] tags otherwise. *)
Definition fenced_code (tag code : str) : str :=
  if (Str.find tag (u "{img}") >? 0)%Z
  then convert_code_image_base64 (Str.replace tag (u "{img}") []) code
  else u "<pre><code>" ++ sanitize_entities code ++ u "</code></pre>".

Definition find_fenced (s : str) : option (str * nat) :=
  match fenced_block s with
  | Some (tag, code) => Some (fenced_code tag code, length tag + length code + 7)
  | None => None
  end.

End Passes.

(** The first of [f n], [f (n - 1)], ..., [f 0] that is there. *)
Fixpoint latest {A} (f : nat -> option A) (n : nat) : option A :=
  match f n with
  | Some x => Some x
  | None =>
      match n with
      | 0 => None
      | S n' => latest f n'
      end
  end.


(** The image link that [s] opens with, as the length of its alternative
    text and its file name: an exclamation mark and an opening bracket,
    an alternative text, a closing bracket and an opening parenthesis, a
    file name that is not empty, a closing parenthesis, all on one line.
    The alternative text is the longest that leaves a file name, and the
    file name the longest after it. *)
Definition file_name_from (rest : str) (n : nat) : option (nat * str) :=
  if Str.startswith (u "](") (drop n rest) then
    let t := drop (n + 2) rest in
    match longest_body (u ")") t (run dot t) with
    | Some file => Some (n, file)
    | None => None
    end
  else None.

Definition image_link (s : str) : option (nat * str) :=
  if Str.startswith (u "![") s then
    let rest := drop 2 s in
    latest (file_name_from rest) (run dot rest)
  else None.

Section ImagePass.

Variable isabs : str -> bool.
Variable path_join : str -> str -> str.
Variable build_image_tag : str -> str.

(** What is written for an image link: the tag of the file, looked for in
    the directory of the script unless its name is absolute or holds
    [://]. *)
Definition image_tag (md_dir_path file_name : str) : str :=
  build_image_tag
    (if negb (isabs file_name) && (Str.find file_name (u "://") =? -1)%Z
     then path_join md_dir_path file_name
     else file_name).

Definition find_image (md_dir_path s : str) : option (str * nat) :=
  match image_link s with
  | Some (n, file) => Some (image_tag md_dir_path file, n + length file + 5)
  | None => None
  end.

End ImagePass.


(** [find] sees a span somewhere in [s]. *)
Fixpoint anywhere {A} (find : str -> option A) (s : str) : bool :=
  match find s with
  | Some _ => true
  | None =>
      match s with
      | [] => false
      | _ :: s' => anywhere find s'
      end
  end.

(** [render_answer] in words: the inline-code pass on the escaped text
    when the text has a code span, then the inline-math pass when what is
    left has a math span, and the CDATA wrap of what [markdown] returns
    when one of the two passes was made. *)
Definition answer_in_words (markdown : str -> str) (text : str) : str :=
  let coded := anywhere code_span text in
  let text := if coded then rewrite_spans find_code (sanitize_entities text) else text in
  let mathed := anywhere (math_span (u "$")) text in
  let text := if mathed then collapse_math (u "$") text else text in
  if coded || mathed then wrap_cdata (markdown text) else text.

(** * Properties *)

(** ** The scoring pass *)

Lemma complete_question_eq q answers :
  q_answers q = Some answers ->
  complete_question q =
    Ok (Question (q_text q)
                 (Some (map (score (share (clamp (count_correct answers)))) answers))
                 (Some (clamp (count_correct answers) =? 1))).
Proof. intros H. unfold complete_question. rewrite H. reflexivity. Qed.

Lemma score_correct w a : a_correct (score w a) = a_correct a.
Proof. unfold score. destruct (a_correct a) eqn:E; simpl; congruence. Qed.

Lemma score_score w a : score w (score w a) = score w a.
Proof. unfold score. destruct (a_correct a) eqn:E; simpl; rewrite ?E; reflexivity. Qed.

Lemma count_correct_score w answers :
  count_correct (map (score w) answers) = count_correct answers.
Proof.
  unfold count_correct. induction answers as [|a l IH]; simpl; [reflexivity|].
  rewrite score_correct. destruct (a_correct a); simpl; congruence.
Qed.

Lemma map_score_score w answers :
  map (score w) (map (score w) answers) = map (score w) answers.
Proof.
  induction answers as [|a l IH]; simpl; [reflexivity|].
  rewrite score_score, IH. reflexivity.
Qed.

(** One application is enough: what [complete_question] returns, it
    returns again. *)
Lemma complete_question_completed q q' :
  complete_question q = Ok q' -> completed q'.
Proof.
  unfold completed. destruct (q_answers q) as [answers|] eqn:E.
  - rewrite (complete_question_eq _ _ E). intros [= <-].
    erewrite complete_question_eq by reflexivity.
    rewrite count_correct_score, map_score_score. reflexivity.
  - unfold complete_question. rewrite E. discriminate.
Qed.

Lemma completed_inv q :
  completed q ->
  exists answers,
    q_answers q = Some answers /\
    q_single q = Some (clamp (count_correct answers) =? 1) /\
    map (score (share (clamp (count_correct answers)))) answers = answers.
Proof.
  unfold completed. destruct (q_answers q) as [answers|] eqn:E.
  - rewrite (complete_question_eq _ _ E). intros [= H].
    exists answers. split; [reflexivity|].
    rewrite <- H in E |- *. simpl in *. injection E as E. auto.
  - unfold complete_question. rewrite E. discriminate.
Qed.

Lemma completed_weight q answers a :
  completed q -> q_answers q = Some answers -> a ∈ answers ->
  a_weight a =
    Some (if a_correct a then PyFloat (share (clamp (count_correct answers)))
          else PyInt 0).
Proof.
  intros Hc Ha Hin. destruct (completed_inv _ Hc) as (l & Hl & _ & Hfix).
  rewrite Ha in Hl. injection Hl as <-.
  rewrite <- Hfix in Hin. apply list_elem_of_fmap in Hin as (b & -> & Hb).
  fold (score (share (clamp (count_correct answers))) b).
  rewrite score_correct. unfold score. destruct (a_correct b); reflexivity.
Qed.

Lemma str_eqb_eq a b : str_eqb a b = true <-> a = b.
Proof.
  revert b. induction a as [|x a IH]; intros [|y b]; simpl; split; try congruence.
  - intros [Hxy Hab]%andb_prop. apply N.eqb_eq in Hxy. apply IH in Hab. congruence.
  - intros [= -> ->]. apply andb_true_intro. split; [apply N.eqb_refl | apply IH; reflexivity].
Qed.

Lemma dict_get_keys {V} (d : list (str * V)) key a :
  dict_get d key = Some a -> key ∈ keys d.
Proof.
  induction d as [|[k v] d IH]; simpl; [discriminate|].
  destruct (str_eqb k key) eqn:E.
  - apply str_eqb_eq in E as ->. intros _. apply list_elem_of_here.
  - intros H. apply list_elem_of_further, IH, H.
Qed.

Lemma keys_dict_get {V} (d : list (str * V)) key :
  key ∈ keys d -> exists a, dict_get d key = Some a.
Proof.
  induction d as [|[k v] d IH]; simpl; intros Hin.
  - inversion Hin.
  - destruct (str_eqb k key) eqn:E; [eauto|].
    apply IH. apply elem_of_cons in Hin as [->|Hin]; [|assumption].
    simpl in E. assert (str_eqb k k = true) by (apply str_eqb_eq; reflexivity).
    congruence.
Qed.

(** What one walk over a section does to the question dicts. *)
Lemma complete_section_spec sec : forall ds ds',
  complete_section ds sec = Ok ds' ->
  length ds' = length ds /\
  (forall i, i ∈ sec -> exists q, ds' !! i = Some q /\ completed q) /\
  (forall i q, ds !! i = Some q -> completed q -> ds' !! i = Some q) /\
  (forall i, i ∉ sec -> ds' !! i = ds !! i) /\
  (forall i q, ds !! i = Some q -> q_answers q <> None ->
               exists q', ds' !! i = Some q' /\ q_answers q' <> None).
Proof.
  induction sec as [|i sec IH]; intros ds ds'; simpl.
  - intros [= <-]. repeat split; eauto.
    intros i Hi. inversion Hi.
  - destruct (ds !! i) as [q|] eqn:Hi; [|discriminate].
    destruct (complete_question q) as [q'|e] eqn:Hq; simpl; [|discriminate].
    intros H. apply IH in H as (Hlen & Hin & Hkeep & Hout & Hans).
    assert (Hlt : i < length ds) by (eapply lookup_lt_Some; eassumption).
    assert (Hq' : completed q') by (eapply complete_question_completed; eassumption).
    rewrite length_insert in Hlen.
    split; [assumption|]. split; [|split; [|split]].
    + intros j Hj. apply elem_of_cons in Hj as [->|Hj]; [|auto].
      exists q'. split; [|assumption].
      apply Hkeep; [|assumption]. apply list_lookup_insert_eq; assumption.
    + intros j q0 Hj Hc. apply Hkeep; [|assumption].
      destruct (decide (i = j)) as [<-|Hne].
      * rewrite Hi in Hj. injection Hj as <-.
        unfold completed in Hc. rewrite Hc in Hq. injection Hq as <-.
        apply list_lookup_insert_eq; assumption.
      * rewrite list_lookup_insert_ne; assumption.
    + intros j Hj. apply not_elem_of_cons in Hj as [Hne Hj].
      rewrite Hout by assumption. apply list_lookup_insert_ne. congruence.
    + intros j q0 Hj Hsome.
      destruct (decide (i = j)) as [<-|Hne].
      * apply (Hans i q'); [apply list_lookup_insert_eq; assumption|].
        destruct (completed_inv _ Hq') as (l & Hl & _). congruence.
      * apply (Hans j q0); [|assumption].
        rewrite list_lookup_insert_ne; assumption.
Qed.

Lemma complete_keys_spec d ls ks : forall ds ds',
  complete_keys d ls ds ks = Ok ds' ->
  length ds' = length ds /\
  (forall key, key ∈ ks ->
     exists a sec, dict_get d key = Some a /\ ls !! a = Some sec /\
       forall i, i ∈ sec -> exists q, ds' !! i = Some q /\ completed q) /\
  (forall i q, ds !! i = Some q -> completed q -> ds' !! i = Some q).
Proof.
  induction ks as [|key ks IH]; intros ds ds'; simpl.
  - intros [= <-]. repeat split; eauto.
    intros key Hk. inversion Hk.
  - destruct (dict_get d key) as [a|] eqn:Ha; [|discriminate].
    destruct (ls !! a) as [sec|] eqn:Hs; [|discriminate].
    destruct (complete_section ds sec) as [ds1|e] eqn:H1; simpl; [|discriminate].
    intros H. apply IH in H as (Hlen & Hin & Hkeep).
    apply complete_section_spec in H1 as (Hlen1 & Hin1 & Hkeep1 & _).
    split; [congruence|]. split.
    + intros k Hk. apply elem_of_cons in Hk as [->|Hk]; [|auto].
      exists a, sec. repeat split; try assumption.
      intros i Hi. destruct (Hin1 i Hi) as (q & Hq & Hc). eauto.
    + intros i q Hi Hc. eauto.
Qed.

(** After the pass every question of the document is completed. *)
Lemma completing_dictionary_completed st st' :
  completing_dictionary st = Ok st' ->
  dictionary st' = dictionary st /\ lists st' = lists st /\
  forall q, in_document st' q -> completed q.
Proof.
  unfold completing_dictionary.
  destruct (complete_keys _ _ _ _) as [ds|e] eqn:H; simpl; [|discriminate].
  intros [= <-]. simpl. repeat split.
  intros q (i & (key & a & sec & Ha & Hs & Hi) & Hq). simpl in *.
  apply complete_keys_spec in H as (_ & Hin & _).
  destruct (Hin key (dict_get_keys _ _ _ Ha)) as (a' & sec' & Ha' & Hs' & Hall).
  rewrite Ha in Ha'. injection Ha' as <-. rewrite Hs in Hs'. injection Hs' as <-.
  destruct (Hall i Hi) as (q' & Hq' & Hc). congruence.
Qed.

(** On questions that are all completed the walks change nothing. *)
Lemma complete_section_id ds sec :
  (forall i, i ∈ sec -> exists q, ds !! i = Some q /\ completed q) ->
  complete_section ds sec = Ok ds.
Proof.
  induction sec as [|i sec IH]; intros H; simpl; [reflexivity|].
  destruct (H i) as (q & Hq & Hc); [apply list_elem_of_here|].
  rewrite Hq. unfold completed in Hc. rewrite Hc. simpl.
  rewrite list_insert_id by assumption.
  apply IH. intros j Hj. apply H, list_elem_of_further, Hj.
Qed.

Lemma complete_keys_id d ls ds ks :
  (forall key, key ∈ ks ->
     exists a sec, dict_get d key = Some a /\ ls !! a = Some sec /\
       forall i, i ∈ sec -> exists q, ds !! i = Some q /\ completed q) ->
  complete_keys d ls ds ks = Ok ds.
Proof.
  induction ks as [|key ks IH]; intros H; simpl; [reflexivity|].
  destruct (H key) as (a & sec & Ha & Hs & Hall); [apply list_elem_of_here|].
  rewrite Ha, Hs, (complete_section_id _ _ Hall). simpl.
  apply IH. intros k Hk. apply H, list_elem_of_further, Hk.
Qed.

Lemma completing_dictionary_twice st st' :
  completing_dictionary st = Ok st' -> completing_dictionary st' = Ok st'.
Proof.
  unfold completing_dictionary.
  destruct (complete_keys _ _ (dicts st) _) as [ds|e] eqn:H; simpl; [|discriminate].
  intros [= <-]. simpl.
  apply complete_keys_spec in H as (_ & Hin & _).
  rewrite (complete_keys_id _ _ _ _ Hin). reflexivity.
Qed.

(** ** The parser: well-formed states *)

Lemma dict_get_set {V} (d : list (str * V)) k v k' :
  dict_get (dict_set d k v) k' = if str_eqb k k' then Some v else dict_get d k'.
Proof.
  induction d as [|[k0 v0] d IH]; simpl.
  - destruct (str_eqb k k'); reflexivity.
  - destruct (str_eqb k0 k) eqn:E; simpl.
    + apply str_eqb_eq in E as ->. destruct (str_eqb k k'); reflexivity.
    + rewrite IH. destruct (str_eqb k0 k') eqn:E'; [|reflexivity].
      apply str_eqb_eq in E' as ->.
      destruct (str_eqb k k') eqn:E2; [|reflexivity].
      apply str_eqb_eq in E2 as ->.
      assert (str_eqb k' k' = true) by (apply str_eqb_eq; reflexivity). congruence.
Qed.

Lemma wf_initial : wf initial.
Proof.
  unfold wf, initial; simpl. repeat split; try lia.
  - intros key a [=].
  - intros [|a] sec i; simpl; [|intros [=]].
    intros [= <-] Hi. inversion Hi.
Qed.

(** Writing the current question back keeps the state well formed as long
    as an ['answers'] key is not lost. *)
Lemma wf_update ps q q' :
  wf ps -> dicts (heap ps) !! current_question ps = Some q ->
  (q_answers q <> None -> q_answers q' <> None) ->
  wf (PState (Store (dictionary (heap ps)) (lists (heap ps))
                    (<[current_question ps := q']> (dicts (heap ps))))
             (section ps) (current_question ps)).
Proof.
  intros (Hs & Hc & Hd & Hl) Hq Hans. unfold wf; simpl.
  rewrite length_insert. repeat split; try assumption.
  intros a sec i Ha Hi. destruct (Hl a sec i Ha Hi) as (q0 & Hq0 & Hq0a).
  destruct (decide (current_question ps = i)) as [<-|Hne].
  - exists q'. split; [apply list_lookup_insert_eq; assumption|].
    apply Hans. congruence.
  - exists q0. split; [|assumption]. rewrite list_lookup_insert_ne; assumption.
Qed.

Ltac parse_row_cases r :=
  unfold parse_row;
  destruct (get_header r) as [?caption|] eqn:?Hhd;
  [| destruct (get_question r) as [?text|] eqn:?Hqu;
     [| destruct (get_correct_answer r) as [?text|] eqn:?Hca;
        [| destruct (get_wrong_answer r) as [?text|] eqn:?Hwa ] ] ].

Lemma append_answer_wf ps a :
  wf ps ->
  (exists ps', append_answer ps a = Ok ps' /\ wf ps') \/
  append_answer ps a = Raise (KeyError (u "answers")).
Proof.
  intros Hwf. unfold append_answer.
  destruct (dicts (heap ps) !! current_question ps) as [q|] eqn:Hq.
  - destruct (q_answers q) as [answers|] eqn:Ha; [left|right; reflexivity].
    eexists. split; [reflexivity|].
    apply (wf_update ps q); [assumption..|]. simpl. discriminate.
  - apply lookup_ge_None in Hq. destruct Hwf as (_ & Hc & _). lia.
Qed.

(** One row either raises [KeyError] on ['answers'] or leaves a well-formed
    state. *)
Lemma parse_row_wf ps r :
  wf ps ->
  (exists ps', parse_row ps r = Ok ps' /\ wf ps') \/
  parse_row ps r = Raise (KeyError (u "answers")).
Proof.
  intros Hwf. pose proof Hwf as (Hs & Hc & Hd & Hl).
  parse_row_cases r.
  - (* header *)
    left. eexists. split; [reflexivity|]. unfold wf; simpl.
    rewrite length_app; simpl. repeat split; try lia.
    + intros key a. rewrite dict_get_set.
      destruct (str_eqb caption key); [intros [= <-]; lia|].
      intros H. apply Hd in H. lia.
    + intros a sec i Ha Hi.
      destruct (decide (a < length (lists (heap ps)))) as [Hlt|Hge].
      * rewrite lookup_app_l in Ha by assumption. eauto.
      * rewrite lookup_app_r in Ha by lia.
        destruct (a - length (lists (heap ps))); simpl in Ha; [|discriminate].
        injection Ha as <-. inversion Hi.
  - (* question *)
    left. destruct (lists (heap ps) !! section ps) as [l|] eqn:Hsec.
    2:{ apply lookup_ge_None in Hsec. lia. }
    eexists. split; [reflexivity|]. unfold wf; simpl.
    rewrite length_insert, length_app; simpl. repeat split; try lia; try assumption.
    intros a sec i Ha Hi.
    assert (Hold : forall j, (exists sec0, lists (heap ps) !! a = Some sec0 /\ j ∈ sec0) ->
              exists q, (dicts (heap ps) ++ [Question (Some text) (Some []) None]) !! j = Some q
                        /\ q_answers q <> None).
    { intros j (sec0 & Hs0 & Hj). destruct (Hl a sec0 j Hs0 Hj) as (q & Hq & Hqa).
      exists q. split; [|assumption]. rewrite lookup_app_l; [assumption|].
      eapply lookup_lt_Some; eassumption. }
    destruct (decide (section ps = a)) as [<-|Hne].
    + rewrite list_lookup_insert_eq in Ha by assumption. injection Ha as <-.
      apply elem_of_app in Hi as [Hi|Hi]; [apply Hold; eauto|].
      apply list_elem_of_singleton in Hi as ->.
      eexists. split; [apply list_lookup_middle; reflexivity|]. simpl. discriminate.
    + rewrite list_lookup_insert_ne in Ha by assumption. apply Hold; eauto.
  - apply append_answer_wf, Hwf.
  - apply append_answer_wf, Hwf.
  - left. destruct (dicts (heap ps) !! current_question ps) as [q|] eqn:Hq.
    2:{ apply lookup_ge_None in Hq. lia. }
    destruct (negb (is_empty_line r)).
    + eexists. split; [reflexivity|]. apply (wf_update ps q); auto.
    + destruct (q_text q) as [text|]; [|eauto].
      destruct (Str.find text (u "```") >? -1)%Z; [|eauto].
      eexists. split; [reflexivity|]. apply (wf_update ps q); auto.
Qed.

Lemma parse_rows_wf rows : forall ps,
  wf ps ->
  (exists ps', parse_rows ps rows = Ok ps' /\ wf ps') \/
  parse_rows ps rows = Raise (KeyError (u "answers")).
Proof.
  induction rows as [|r rows IH]; intros ps Hwf; simpl; [eauto|].
  destruct (parse_row_wf ps (strip_row r) Hwf) as [(ps' & -> & Hwf')| ->]; simpl; auto.
Qed.

(** On a well-formed state the scoring pass returns. *)
Lemma complete_section_total sec : forall ds,
  (forall i, i ∈ sec -> exists q, ds !! i = Some q /\ q_answers q <> None) ->
  exists ds', complete_section ds sec = Ok ds'.
Proof.
  induction sec as [|i sec IH]; intros ds H; simpl; [eauto|].
  destruct (H i) as (q & Hq & Hqa); [apply list_elem_of_here|].
  rewrite Hq. destruct (q_answers q) as [answers|] eqn:Ha; [|congruence].
  rewrite (complete_question_eq _ _ Ha); simpl.
  apply IH. intros j Hj.
  destruct (H j) as (q0 & Hq0 & Hq0a); [apply list_elem_of_further, Hj|].
  assert (Hlt : i < length ds) by (eapply lookup_lt_Some; eassumption).
  destruct (decide (i = j)) as [<-|Hne].
  - eexists. split; [apply list_lookup_insert_eq; assumption|]. simpl. discriminate.
  - exists q0. split; [|assumption]. rewrite list_lookup_insert_ne; assumption.
Qed.

Lemma complete_keys_total d ls ks : forall ds,
  (forall key, key ∈ ks -> exists a, dict_get d key = Some a) ->
  (forall key a, dict_get d key = Some a -> a < length ls) ->
  (forall a sec i, ls !! a = Some sec -> i ∈ sec ->
     exists q, ds !! i = Some q /\ q_answers q <> None) ->
  exists ds', complete_keys d ls ds ks = Ok ds'.
Proof.
  induction ks as [|key ks IH]; intros ds Hk Hd Hl; simpl; [eauto|].
  destruct (Hk key) as (a & Ha); [apply list_elem_of_here|]. rewrite Ha.
  destruct (ls !! a) as [sec|] eqn:Hs.
  2:{ apply lookup_ge_None in Hs. apply Hd in Ha. lia. }
  destruct (complete_section_total sec ds) as (ds1 & H1); [eauto|].
  rewrite H1; simpl. apply IH; [|assumption|].
  - intros k Hin. apply Hk, list_elem_of_further, Hin.
  - intros a' sec' i Ha' Hi. destruct (Hl a' sec' i Ha' Hi) as (q & Hq & Hqa).
    apply complete_section_spec in H1 as (_ & _ & _ & _ & Hans). eauto.
Qed.

Lemma completing_dictionary_total ps :
  wf ps -> exists st, completing_dictionary (heap ps) = Ok st.
Proof.
  intros (_ & _ & Hd & Hl). unfold completing_dictionary.
  destruct (complete_keys_total (dictionary (heap ps)) (lists (heap ps))
              (keys (dictionary (heap ps))) (dicts (heap ps))) as (ds & ->);
    simpl; eauto using @keys_dict_get.
Qed.

(** The parser returns a document or raises [KeyError] on ['answers'];
    nothing else happens. *)
Lemma md_script_to_dictionary_total md_script :
  (exists st, md_script_to_dictionary md_script = Ok st) \/
  md_script_to_dictionary md_script = Raise (KeyError (u "answers")).
Proof.
  unfold md_script_to_dictionary.
  destruct (parse_rows_wf (Str.split md_script NEW_LINE) initial wf_initial)
    as [(ps & -> & Hwf)| ->]; simpl; [left|right; reflexivity].
  apply completing_dictionary_total, Hwf.
Qed.

(** ** The classifiers *)

Lemma exec_Bol p s : exec (Bol :: p) 0 s = exec p 0 s.
Proof. reflexivity. Qed.

Lemma exec_Open p pos s : exec (Open :: p) pos s = mark pos (exec p pos s).
Proof. reflexivity. Qed.

Lemma exec_Close p pos s : exec (Close :: p) pos s = mark pos (exec p pos s).
Proof. reflexivity. Qed.

Lemma exec_star cls p pos s :
  exec (Atom cls ZeroOrMore :: p) pos s = star cls (exec p) pos s.
Proof. reflexivity. Qed.

Lemma exec_plus cls p pos c s :
  exec (Atom cls OneOrMore :: p) pos (c :: s) =
  if cls c then star cls (exec p) (S pos) s else None.
Proof. reflexivity. Qed.

Lemma exec_one cls p pos c s :
  exec (Atom cls One :: p) pos (c :: s) = if cls c then exec p (S pos) s else None.
Proof. reflexivity. Qed.

Lemma mark_Some pos x o : mark pos x = Some o -> exists o', x = Some o'.
Proof. destruct x as [[ms e]|]; simpl; [eauto|discriminate]. Qed.

Lemma exec_lit_head c p pos s o :
  exec (Atom (lit c) One :: p) pos s = Some o -> head s = Some c.
Proof.
  destruct s as [|x s]; simpl; [discriminate|].
  unfold lit, char_eqb. destruct (N.eqb_spec x c); [congruence|discriminate].
Qed.

Lemma exec_close_lit_head c p pos s o :
  exec (Close :: Atom (lit c) One :: p) pos s = Some o -> head s = Some c.
Proof.
  rewrite exec_Close. intros (o' & H)%mark_Some. eapply exec_lit_head, H.
Qed.

(** [\s*] before a character that is not white space: whatever the
    backtracking, that character is the first that is not white space. *)
Lemma star_space_lead k c :
  space c = false ->
  (forall pos s o, k pos s = Some o -> head s = Some c) ->
  forall s pos o, star space k pos s = Some o -> lead s = Some c.
Proof.
  intros Hc Hk. induction s as [|x s IH]; intros pos o; simpl.
  - intros H. apply Hk in H. discriminate.
  - destruct (space x) eqn:Hx.
    + destruct (star space k (S pos) s) as [o'|] eqn:Hs; [eauto|].
      intros H. apply Hk in H. simpl in H. congruence.
    + intros H. apply Hk in H. exact H.
Qed.

Lemma get_header_lead s g : get_header s = Some g -> lead s = Some (ch "#").
Proof.
  unfold get_header, Re.match_, HEADER_PATTERN. rewrite exec_Bol, exec_star.
  destruct (star _ _ _ _) as [[ms e]|] eqn:H; [intros _|discriminate].
  eapply (star_space_lead _ (ch "#")); [reflexivity| |exact H].
  intros pos s' o. apply exec_lit_head.
Qed.

Lemma get_question_lead s g : get_question s = Some g -> lead s = Some (ch "*").
Proof.
  unfold get_question, Re.match_, QUESTION_PATTERN. rewrite exec_Bol, exec_Open, exec_star.
  destruct (star _ _ _ _) as [[ms e]|] eqn:H; [intros _|discriminate].
  eapply (star_space_lead _ (ch "*")); [reflexivity| |exact H].
  intros pos s' o. apply exec_close_lit_head.
Qed.

Lemma get_correct_answer_lead s g :
  get_correct_answer s = Some g -> lead s = Some (ch "-").
Proof.
  unfold get_correct_answer, Re.match_, CORRECT_ANSWER_PATTERN. rewrite exec_Bol, exec_Open, exec_star.
  destruct (star _ _ _ _) as [[ms e]|] eqn:H; [intros _|discriminate].
  eapply (star_space_lead _ (ch "-")); [reflexivity| |exact H].
  intros pos s' o. apply exec_close_lit_head.
Qed.

Lemma get_wrong_answer_lead s g :
  get_wrong_answer s = Some g -> lead s = Some (ch "-").
Proof.
  unfold get_wrong_answer, Re.match_, WRONG_ANSWER_PATTERN. rewrite exec_Bol, exec_Open, exec_star.
  destruct (star _ _ _ _) as [[ms e]|] eqn:H; [intros _|discriminate].
  eapply (star_space_lead _ (ch "-")); [reflexivity| |exact H].
  intros pos s' o. apply exec_close_lit_head.
Qed.

(** A row shaped like an answer is neither a header nor a question. *)
Lemma answer_not_header_question s :
  is_correct_answer s || is_wrong_answer s = true ->
  get_header s = None /\ get_question s = None.
Proof.
  unfold is_correct_answer, is_wrong_answer. intros H.
  assert (Hl : lead s = Some (ch "-")).
  { destruct (get_correct_answer s) eqn:E1; [eapply get_correct_answer_lead, E1|].
    destruct (get_wrong_answer s) eqn:E2; [eapply get_wrong_answer_lead, E2|].
    discriminate. }
  split.
  - destruct (get_header s) eqn:E; [|reflexivity].
    apply get_header_lead in E. rewrite Hl in E. discriminate.
  - destruct (get_question s) eqn:E; [|reflexivity].
    apply get_question_lead in E. rewrite Hl in E. discriminate.
Qed.

Lemma question_not_header s g : get_question s = Some g -> get_header s = None.
Proof.
  intros Hl%get_question_lead. destruct (get_header s) eqn:E; [|reflexivity].
  apply get_header_lead in E. rewrite Hl in E. discriminate.
Qed.

Lemma blank_lead s : blank s = true -> lead s = None.
Proof.
  induction s as [|x s IH]; simpl; [reflexivity|].
  intros [Hx Hs]%andb_prop. rewrite Hx. auto.
Qed.

Lemma blank_rstrip s c : blank s = true -> blank (Str.rstrip s c) = true.
Proof.
  induction s as [|x s IH]; simpl; [reflexivity|].
  intros [Hx Hs]%andb_prop. specialize (IH Hs).
  destruct (Str.rstrip s c) as [|y r].
  - destruct (char_eqb x c); simpl; rewrite ?Hx; reflexivity.
  - change (blank (x :: y :: r)) with (space x && blank (y :: r)).
    rewrite Hx, IH. reflexivity.
Qed.

Lemma blank_strip_row s : blank s = true -> blank (strip_row s) = true.
Proof. intros H. unfold strip_row. apply blank_rstrip, blank_rstrip, H. Qed.

Lemma star_blank k s : forall pos,
  blank s = true -> (forall pos', k pos' [] <> None) -> star space k pos s <> None.
Proof.
  induction s as [|x s IH]; intros pos; simpl; [auto|].
  intros [Hx Hs]%andb_prop Hk. rewrite Hx.
  destruct (star space k (S pos) s) eqn:E; [discriminate|].
  exfalso. eapply IH; eauto.
Qed.

(** A blank row matches no classifier but [EMPTY_LINE_PATTERN]. *)
Lemma blank_classified s :
  blank s = true ->
  get_header s = None /\ get_question s = None /\
  get_correct_answer s = None /\ get_wrong_answer s = None /\
  is_empty_line s = true.
Proof.
  intros Hb. pose proof (blank_lead s Hb) as Hl.
  repeat split.
  - destruct (get_header s) eqn:E; [|reflexivity].
    apply get_header_lead in E. congruence.
  - destruct (get_question s) eqn:E; [|reflexivity].
    apply get_question_lead in E. congruence.
  - destruct (get_correct_answer s) eqn:E; [|reflexivity].
    apply get_correct_answer_lead in E. congruence.
  - destruct (get_wrong_answer s) eqn:E; [|reflexivity].
    apply get_wrong_answer_lead in E. congruence.
  - unfold is_empty_line, Re.match_, EMPTY_LINE_PATTERN. rewrite exec_Bol, exec_star.
    destruct (star space _ 0 s) as [[ms e]|] eqn:E; [reflexivity|].
    exfalso. eapply (star_blank _ s 0); eauto. discriminate.
Qed.

(** ** The parser: rows before the first question and the first header *)

Lemma parse_rows_app rows1 : forall ps rows2,
  parse_rows ps (rows1 ++ rows2) =
  (ps' <- parse_rows ps rows1 ;; parse_rows ps' rows2).
Proof.
  induction rows1 as [|r rows1 IH]; intros ps rows2; simpl; [reflexivity|].
  destruct (parse_row ps (strip_row r)) as [ps1|e]; simpl; [apply IH|reflexivity].
Qed.

Lemma parse_rows_wf_Ok rows ps ps' :
  wf ps -> parse_rows ps rows = Ok ps' -> wf ps'.
Proof.
  intros Hwf H. destruct (parse_rows_wf rows ps Hwf) as [(ps1 & H1 & Hwf1)|H1];
    congruence.
Qed.

Lemma parse_row_wf_Ok r ps ps' :
  wf ps -> parse_row ps r = Ok ps' -> wf ps'.
Proof.
  intros Hwf H. destruct (parse_row_wf ps r Hwf) as [(ps1 & H1 & Hwf1)|H1];
    congruence.
Qed.

Lemma no_question_initial : no_question initial.
Proof. eexists. split; reflexivity. Qed.

Lemma no_question_set_text ps q text :
  dicts (heap ps) !! current_question ps = Some q -> q_answers q = None ->
  no_question (set_text ps q text).
Proof.
  intros Hq Ha. eexists. split; simpl.
  - apply list_lookup_insert_eq. eapply lookup_lt_Some, Hq.
  - assumption.
Qed.

(** A row that starts no question and is not shaped like an answer leaves
    [current_question] without answers. *)
Lemma parse_row_no_question ps r :
  no_question ps ->
  get_question r = None -> get_correct_answer r = None -> get_wrong_answer r = None ->
  exists ps', parse_row ps r = Ok ps' /\ no_question ps'.
Proof.
  intros (q & Hq & Ha) Hqu Hca Hwa. unfold parse_row.
  rewrite Hqu, Hca, Hwa, Hq.
  destruct (get_header r) as [caption|].
  - eexists. split; [reflexivity|]. exists q. simpl. auto.
  - destruct (negb (is_empty_line r)).
    + eexists. split; [reflexivity|]. apply no_question_set_text; assumption.
    + destruct (q_text q) as [text|]; [|exists ps; split; [reflexivity|exists q; auto]].
      destruct (Str.find text (u "```") >? -1)%Z.
      * eexists. split; [reflexivity|]. apply no_question_set_text; assumption.
      * exists ps. split; [reflexivity|]. exists q. auto.
Qed.

(** There, a row shaped like an answer raises. *)
Lemma parse_row_answer_raises ps r :
  no_question ps ->
  is_correct_answer r || is_wrong_answer r = true ->
  parse_row ps r = Raise (KeyError (u "answers")).
Proof.
  intros (q & Hq & Ha) Hr.
  destruct (answer_not_header_question r Hr) as [Hhd Hqu].
  unfold parse_row. rewrite Hhd, Hqu.
  unfold is_correct_answer, is_wrong_answer in Hr.
  destruct (get_correct_answer r) as [text|].
  - unfold append_answer. rewrite Hq, Ha. reflexivity.
  - destruct (get_wrong_answer r) as [text|]; [|discriminate].
    unfold append_answer. rewrite Hq, Ha. reflexivity.
Qed.

Lemma is_question_false r : is_question r = false -> get_question r = None.
Proof. unfold is_question. destruct (get_question r); [discriminate|reflexivity]. Qed.

Lemma is_correct_answer_false r :
  is_correct_answer r = false -> get_correct_answer r = None.
Proof.
  unfold is_correct_answer. destruct (get_correct_answer r); [discriminate|reflexivity].
Qed.

Lemma is_wrong_answer_false r : is_wrong_answer r = false -> get_wrong_answer r = None.
Proof.
  unfold is_wrong_answer. destruct (get_wrong_answer r); [discriminate|reflexivity].
Qed.

Lemma is_header_false r : is_header r = false -> get_header r = None.
Proof. unfold is_header. destruct (get_header r); [discriminate|reflexivity]. Qed.

Lemma parse_rows_no_question rows : forall ps,
  no_question ps ->
  Forall (fun r => is_question (strip_row r) = false /\
                   is_correct_answer (strip_row r) = false /\
                   is_wrong_answer (strip_row r) = false) rows ->
  exists ps', parse_rows ps rows = Ok ps' /\ no_question ps'.
Proof.
  induction rows as [|r rows IH]; intros ps Hps Hall; simpl; [eauto|].
  apply Forall_cons in Hall as [(Hq & Hc & Hw) Hall].
  destruct (parse_row_no_question ps (strip_row r) Hps) as (ps1 & -> & Hps1);
    auto using is_question_false, is_correct_answer_false, is_wrong_answer_false.
  simpl. auto.
Qed.

(** Rows without a header bind no caption. *)
Lemma parse_row_no_header ps r ps' :
  no_header ps -> get_header r = None -> parse_row ps r = Ok ps' -> no_header ps'.
Proof.
  intros [Hd Hl] Hhd. unfold parse_row, append_answer, set_text, no_header.
  rewrite Hhd.
  repeat match goal with
         | |- context [match ?x with _ => _ end] => destruct x eqn:?
         end; intros [= <-]; simpl; rewrite ?length_insert; auto.
Qed.

Lemma parse_rows_no_header rows : forall ps ps',
  no_header ps -> Forall (fun r => is_header (strip_row r) = false) rows ->
  parse_rows ps rows = Ok ps' -> no_header ps'.
Proof.
  induction rows as [|r rows IH]; intros ps ps' Hps Hall; simpl.
  - intros [= <-]. assumption.
  - apply Forall_cons in Hall as [Hr Hall].
    destruct (parse_row ps (strip_row r)) as [ps1|e] eqn:H1; simpl; [|discriminate].
    apply IH; [|assumption].
    eapply parse_row_no_header; eauto using is_header_false.
Qed.

(** A question row allocates the next dict and puts it in [section]. *)
Lemma parse_row_question ps r text :
  wf ps -> get_question r = Some text ->
  exists l,
    lists (heap ps) !! section ps = Some l /\
    parse_row ps r =
      Ok (PState (Store (dictionary (heap ps))
                        (<[section ps := l ++ [length (dicts (heap ps))]]> (lists (heap ps)))
                        (dicts (heap ps) ++ [Question (Some text) (Some []) None]))
                 (section ps) (length (dicts (heap ps)))).
Proof.
  intros (Hs & _) Hqu. unfold parse_row.
  rewrite (question_not_header _ _ Hqu), Hqu.
  destruct (lists (heap ps) !! section ps) as [l|] eqn:Hl; [eauto|].
  apply lookup_ge_None in Hl. lia.
Qed.

(** Once dropped, a question stays dropped. *)
Lemma parse_row_dropped i ps r ps' :
  wf ps -> dropped i ps -> parse_row ps r = Ok ps' -> dropped i ps'.
Proof.
  intros (Hs & Hc & _) (Hi & Hd & Hl). unfold parse_row, append_answer, set_text, dropped.
  destruct (get_header r) as [caption|] eqn:Hhd.
  - intros [= <-]; simpl. repeat split; [assumption| |].
    + intros key a. rewrite dict_get_set.
      destruct (str_eqb caption key); [intros [= <-]; lia|apply Hd].
    + intros a sec Ha Hsec.
      destruct (decide (a < length (lists (heap ps)))) as [Hlt|Hge].
      * rewrite lookup_app_l in Hsec by assumption. eauto.
      * rewrite lookup_app_r in Hsec by lia.
        destruct (a - length (lists (heap ps))); simpl in Hsec; [|discriminate].
        injection Hsec as <-. apply not_elem_of_nil.
  - destruct (get_question r) as [text|] eqn:Hqu.
    + destruct (lists (heap ps) !! section ps) as [l|] eqn:Hsec; [|discriminate].
      intros [= <-]; simpl. rewrite length_app; simpl.
      repeat split; [lia|assumption|].
      intros a sec Ha Hsec'.
      destruct (decide (section ps = a)) as [<-|Hne].
      * rewrite list_lookup_insert_eq in Hsec' by assumption. injection Hsec' as <-.
        intros [Hin|Hin]%elem_of_app; [eapply Hl; eauto|].
        apply list_elem_of_singleton in Hin. lia.
      * rewrite list_lookup_insert_ne in Hsec' by assumption. eauto.
    + repeat match goal with
             | |- context [match ?x with _ => _ end] => destruct x eqn:?
             end; intros [= <-]; simpl; rewrite ?length_insert; auto.
Qed.

Lemma parse_rows_dropped i rows : forall ps ps',
  wf ps -> dropped i ps -> parse_rows ps rows = Ok ps' -> dropped i ps'.
Proof.
  induction rows as [|r rows IH]; intros ps ps' Hwf Hd; simpl.
  - intros [= <-]. assumption.
  - destruct (parse_row ps (strip_row r)) as [ps1|e] eqn:H1; simpl; [|discriminate].
    apply IH; [eapply parse_row_wf_Ok|eapply parse_row_dropped]; eassumption.
Qed.

(** ** The scoring pass on parsed documents *)

Lemma md_script_to_dictionary_Ok md_script st :
  md_script_to_dictionary md_script = Ok st ->
  exists ps, parse_rows initial (Str.split md_script NEW_LINE) = Ok ps /\
             wf ps /\ completing_dictionary (heap ps) = Ok st.
Proof.
  unfold md_script_to_dictionary.
  destruct (parse_rows initial _) as [ps|e] eqn:H; simpl; [|discriminate].
  intros Hc. exists ps. split; [reflexivity|]. split; [|assumption].
  eapply parse_rows_wf_Ok; [apply wf_initial|eassumption].
Qed.

Lemma clamp_single n : (clamp n =? 1) = true <-> n = 1 \/ n = 0.
Proof.
  unfold clamp. destruct (n <? 1) eqn:E.
  - apply Nat.ltb_lt in E. simpl. split; [lia|reflexivity].
  - apply Nat.ltb_ge in E. rewrite Nat.eqb_eq. lia.
Qed.

Lemma count_correct_pos answers a :
  a ∈ answers -> a_correct a = true -> 1 <= count_correct answers.
Proof.
  unfold count_correct. induction 1 as [a l|a b l Hin IH]; intros Ha; simpl.
  - rewrite Ha. simpl. lia.
  - destruct (a_correct b); simpl; [lia|auto].
Qed.

Lemma clamp_pos n : 1 <= n -> clamp n = n.
Proof. unfold clamp. intros H. apply Nat.ltb_ge in H. rewrite H. reflexivity. Qed.

Lemma correct_weights v answers :
  (forall a, a ∈ answers -> a_correct a = true -> weight_value a = v) ->
  map weight_value (List.filter a_correct answers) = repeat v (count_correct answers).
Proof.
  unfold count_correct. induction answers as [|a l IH]; intros H; simpl; [reflexivity|].
  assert (IH' := IH (fun b Hb => H b (list_elem_of_further _ _ _ Hb))).
  destruct (a_correct a) eqn:Ha; simpl; [|assumption].
  rewrite (H a (list_elem_of_here _ _) Ha), IH'. reflexivity.
Qed.

Lemma within_tolerance_21 n : 1 <= n <= 21 -> within_tolerance n = true.
Proof.
  intros H.
  do 22 (destruct n as [|n]; [first [lia | vm_compute; reflexivity]|]).
  lia.
Qed.

(** C1: in a document returned by the parser, scoring pass included, the
    flag [single] of every question is true exactly when the question has
    one correct answer or none. *)
Theorem single_iff_at_most_one_correct md_script st q :
  md_script_to_dictionary md_script = Ok st ->
  in_document st q ->
  exists answers single,
    q_answers q = Some answers /\
    q_single q = Some single /\
    (single = true <-> count_correct answers = 1 \/ count_correct answers = 0).
Proof.
  intros (ps & _ & _ & Hc)%md_script_to_dictionary_Ok Hq.
  apply completing_dictionary_completed in Hc as (_ & _ & Hall).
  destruct (completed_inv q (Hall q Hq)) as (answers & Ha & Hs & _).
  exists answers, (clamp (count_correct answers) =? 1).
  auto using clamp_single.
Qed.

Lemma sample_quiz_parsed : md_script_to_dictionary sample_quiz = Ok sample_store.
Proof. vm_compute. reflexivity. Defined.

Lemma sample_question_in_document : in_document sample_store sample_question.
Proof.
  exists 1. split; [|reflexivity].
  exists (u "Sec1"), 1, [1]. repeat split. apply list_elem_of_here.
Defined.

Lemma single_iff_at_most_one_correct_witness :
  md_script_to_dictionary sample_quiz = Ok sample_store /\
  in_document sample_store sample_question /\
  exists answers single,
    q_answers sample_question = Some answers /\
    q_single sample_question = Some single /\
    (single = true <-> count_correct answers = 1 \/ count_correct answers = 0).
Proof.
  split; [exact sample_quiz_parsed|]. split; [exact sample_question_in_document|].
  apply (single_iff_at_most_one_correct sample_quiz sample_store sample_question).
  - vm_compute. reflexivity.
  - exact sample_question_in_document.
Defined.

(** C2, as amended: in a document returned by the parser every correct
    answer weighs [round(100.0 / count, 7)], with [count] the number of
    correct answers of its question, every other answer weighs the integer
    0, and for a question with 1 to 21 correct answers the weights of the
    correct answers sum to 100 within 1e-6. *)
Theorem weights_of_scored_question md_script st q :
  md_script_to_dictionary md_script = Ok st ->
  in_document st q ->
  exists answers,
    q_answers q = Some answers /\
    (forall a, a ∈ answers -> a_correct a = true ->
               a_weight a = Some (PyFloat (share (count_correct answers)))) /\
    (forall a, a ∈ answers -> a_correct a = false ->
               a_weight a = Some (PyInt 0)) /\
    (1 <= count_correct answers <= 21 ->
     (Qabs (correct_weight_sum answers - 100) <= 1 # 1000000)%Q).
Proof.
  intros (ps & _ & _ & Hc)%md_script_to_dictionary_Ok Hq.
  apply completing_dictionary_completed in Hc as (_ & _ & Hall).
  pose proof (Hall q Hq) as Hcq.
  destruct (completed_inv q Hcq) as (answers & Ha & _ & _).
  exists answers. split; [assumption|]. split; [|split].
  - intros a Hin Hcorrect.
    rewrite (completed_weight q answers a Hcq Ha Hin), Hcorrect.
    rewrite clamp_pos by (eapply count_correct_pos; eassumption). reflexivity.
  - intros a Hin Hwrong.
    rewrite (completed_weight q answers a Hcq Ha Hin), Hwrong. reflexivity.
  - intros Hn. unfold correct_weight_sum.
    rewrite (correct_weights (Q_of_float (share (count_correct answers)))).
    + apply Qle_bool_iff. apply (within_tolerance_21 _ Hn).
    + intros a Hin Hcorrect. unfold weight_value.
      rewrite (completed_weight q answers a Hcq Ha Hin), Hcorrect.
      rewrite clamp_pos by (eapply count_correct_pos; eassumption). reflexivity.
Qed.

Lemma weights_of_scored_question_witness :
  md_script_to_dictionary sample_quiz = Ok sample_store /\
  in_document sample_store sample_question /\
  exists answers,
    q_answers sample_question = Some answers /\
    (forall a, a ∈ answers -> a_correct a = true ->
               a_weight a = Some (PyFloat (share (count_correct answers)))) /\
    (forall a, a ∈ answers -> a_correct a = false ->
               a_weight a = Some (PyInt 0)) /\
    (1 <= count_correct answers <= 21 ->
     (Qabs (correct_weight_sum answers - 100) <= 1 # 1000000)%Q).
Proof.
  split; [exact sample_quiz_parsed|]. split; [exact sample_question_in_document|].
  apply (weights_of_scored_question sample_quiz sample_store sample_question).
  - vm_compute. reflexivity.
  - exact sample_question_in_document.
Defined.

(** C2 as stated fails: with 26 correct answers each weighs 3.8461538 and
    the sum, 99.9999988, is further than 1e-6 from 100. *)
Lemma sum_of_26_shares_misses_tolerance :
  md_script_to_dictionary many_correct = Ok many_correct_store /\
  in_document many_correct_store many_correct_question /\
  exists answers,
    q_answers many_correct_question = Some answers /\
    count_correct answers = 26 /\
    ~ (Qabs (correct_weight_sum answers - 100) <= 1 # 1000000)%Q.
Proof.
  split; [vm_compute; reflexivity|]. split.
  - exists 1. split; [|reflexivity].
    exists (u "S"), 1, [1]. repeat split. apply list_elem_of_here.
  - eexists. split; [reflexivity|]. split; [vm_compute; reflexivity|].
    intros H. apply Qle_bool_iff in H. vm_compute in H. discriminate.
Qed.

(** C9: on every parsed document the scoring pass returns, and a second
    pass over its result returns that result again: the same store, hence
    the same [single] flags and the same weights. *)
Theorem completing_dictionary_idempotent md_script ps :
  parse_rows initial (Str.split md_script NEW_LINE) = Ok ps ->
  exists st,
    completing_dictionary (heap ps) = Ok st /\
    completing_dictionary st = Ok st /\
    (st' <- completing_dictionary (heap ps) ;; completing_dictionary st') = Ok st.
Proof.
  intros H.
  assert (Hwf : wf ps) by (eapply parse_rows_wf_Ok; [apply wf_initial|eassumption]).
  destruct (completing_dictionary_total ps Hwf) as (st & Hst).
  exists st. pose proof (completing_dictionary_twice _ _ Hst) as H2.
  rewrite Hst. simpl. auto.
Qed.

Lemma completing_dictionary_idempotent_witness :
  exists ps,
    parse_rows initial (Str.split sample_quiz NEW_LINE) = Ok ps /\
    exists st,
      completing_dictionary (heap ps) = Ok st /\
      completing_dictionary st = Ok st /\
      (st' <- completing_dictionary (heap ps) ;; completing_dictionary st') = Ok st.
Proof.
  eexists. split.
  - vm_compute. reflexivity.
  - apply (completing_dictionary_idempotent sample_quiz). vm_compute. reflexivity.
Defined.

(** C10: when the first row shaped like an answer comes before any
    question row, the parser returns no document: appending the answer
    raises [KeyError] on ['answers']. *)
Theorem answer_before_question_raises md_script pre row rest :
  Str.split md_script NEW_LINE = pre ++ row :: rest ->
  Forall (fun r => is_question (strip_row r) = false /\
                   is_correct_answer (strip_row r) = false /\
                   is_wrong_answer (strip_row r) = false) pre ->
  is_correct_answer (strip_row row) || is_wrong_answer (strip_row row) = true ->
  md_script_to_dictionary md_script = Raise (KeyError (u "answers")).
Proof.
  intros Hsplit Hpre Hrow. unfold md_script_to_dictionary.
  rewrite Hsplit, parse_rows_app.
  destruct (parse_rows_no_question pre initial no_question_initial Hpre)
    as (ps & -> & Hps).
  simpl. rewrite (parse_row_answer_raises ps _ Hps Hrow). reflexivity.
Qed.

Lemma answer_before_question_raises_witness :
  Str.split (unlines early_answer) NEW_LINE = [u "# Sec1"; u "text"] ++ u "- !4" :: [u ""; u ""] /\
  md_script_to_dictionary (unlines early_answer) = Raise (KeyError (u "answers")).
Proof.
  split; [vm_compute; reflexivity|].
  apply (answer_before_question_raises (unlines early_answer)
           [u "# Sec1"; u "text"] (u "- !4") [u ""; u ""]).
  - vm_compute. reflexivity.
  - repeat constructor.
  - vm_compute. reflexivity.
Defined.

Lemma no_header_initial : no_header initial.
Proof. split; reflexivity. Qed.

Lemma is_question_true r : is_question r = true -> exists text, get_question r = Some text.
Proof. unfold is_question. destruct (get_question r); [eauto|discriminate]. Qed.

(** C5: a question row before the first header raises nothing and makes a
    new question, and that question is in no section of the document the
    parser returns. *)
Theorem question_before_header_dropped md_script pre row rest st :
  Str.split md_script NEW_LINE = pre ++ row :: rest ->
  Forall (fun r => is_header (strip_row r) = false) pre ->
  is_question (strip_row row) = true ->
  md_script_to_dictionary md_script = Ok st ->
  exists ps ps' text,
    parse_rows initial pre = Ok ps /\
    parse_row ps (strip_row row) = Ok ps' /\
    get_question (strip_row row) = Some text /\
    current_question ps' = length (dicts (heap ps)) /\
    dicts (heap ps') !! current_question ps' = Some (Question (Some text) (Some []) None) /\
    ~ reachable st (current_question ps').
Proof.
  intros Hsplit Hpre (text & Hqu)%is_question_true
         (psf & Hrows & _ & Hc)%md_script_to_dictionary_Ok.
  rewrite Hsplit, parse_rows_app in Hrows.
  destruct (parse_rows initial pre) as [ps|e] eqn:Hps; simpl in Hrows; [|discriminate].
  assert (Hwf : wf ps) by (eapply parse_rows_wf_Ok; [apply wf_initial|eassumption]).
  assert (Hnh : no_header ps)
    by (eapply parse_rows_no_header; [apply no_header_initial|eassumption..]).
  destruct (parse_row_question ps _ text Hwf Hqu) as (l & Hl & Hrow).
  rewrite Hrow in Hrows. simpl in Hrows.
  eexists ps, _, text. split; [reflexivity|]. split; [exact Hrow|].
  split; [assumption|]. simpl. split; [reflexivity|].
  split; [apply list_lookup_middle; reflexivity|].
  assert (Hdrop : dropped (length (dicts (heap ps))) psf).
  { eapply parse_rows_dropped; [| |exact Hrows].
    - eapply parse_row_wf_Ok; [exact Hwf|exact Hrow].
    - destruct Hnh as [Hd Hlen]. unfold dropped; simpl.
      rewrite length_app, Hd; simpl. repeat split; [lia|intros key a [=]|].
      intros a sec Ha Hsec. apply lookup_lt_Some in Hsec.
      rewrite length_insert in Hsec. lia. }
  destruct Hdrop as (_ & Hd & Hout).
  apply completing_dictionary_completed in Hc as (Hdict & Hlists & _).
  intros (key & a & sec & Ha & Hsec & Hin).
  rewrite Hdict in Ha. rewrite Hlists in Hsec.
  exact (Hout a sec (Hd key a Ha) Hsec Hin).
Qed.

Lemma question_before_header_dropped_witness :
  Str.split (unlines early_question) NEW_LINE =
    [] ++ u "* lost" :: [u "# Sec1"; u ""; u ""] /\
  is_question (strip_row (u "* lost")) = true /\
  md_script_to_dictionary (unlines early_question) = Ok early_question_store /\
  document early_question_store = [(u "Sec1", [])] /\
  exists ps ps' text,
    parse_rows initial [] = Ok ps /\
    parse_row ps (strip_row (u "* lost")) = Ok ps' /\
    get_question (strip_row (u "* lost")) = Some text /\
    current_question ps' = length (dicts (heap ps)) /\
    dicts (heap ps') !! current_question ps' = Some (Question (Some text) (Some []) None) /\
    ~ reachable early_question_store (current_question ps').
Proof.
  split; [vm_compute; reflexivity|]. split; [vm_compute; reflexivity|].
  split; [vm_compute; reflexivity|]. split; [vm_compute; reflexivity|].
  apply (question_before_header_dropped (unlines early_question)
           [] (u "* lost") [u "# Sec1"; u ""; u ""] early_question_store).
  - vm_compute. reflexivity.
  - constructor.
  - vm_compute. reflexivity.
  - vm_compute. reflexivity.
Defined.

Lemma current_text_set_text ps q text :
  dicts (heap ps) !! current_question ps = Some q ->
  current_text (set_text ps q text) = Some text.
Proof.
  intros Hq. unfold current_text, set_text; simpl.
  rewrite list_lookup_insert_eq by (eapply lookup_lt_Some, Hq). reflexivity.
Qed.

(** C6, as amended: a blank row raises nothing; when the text of the
    current question holds three backticks in a row, the row itself, as
    stripped of its trailing carriage returns and line feeds, and a line
    feed are appended to that text; otherwise the text stays as it is, and
    so does a current question that has no text.  Nothing else changes. *)
Theorem blank_row_keeps_row_and_newline rows ps row :
  parse_rows initial rows = Ok ps ->
  blank row = true ->
  exists ps',
    parse_row ps (strip_row row) = Ok ps' /\
    current_text ps' =
      match current_text ps with
      | Some text =>
          if (Str.find text (u "```") >? -1)%Z
          then Some (text ++ strip_row row ++ [nl])
          else Some text
      | None => None
      end /\
    section ps' = section ps /\
    current_question ps' = current_question ps /\
    dictionary (heap ps') = dictionary (heap ps) /\
    lists (heap ps') = lists (heap ps).
Proof.
  intros Hrows Hb.
  assert (Hwf : wf ps) by (eapply parse_rows_wf_Ok; [apply wf_initial|eassumption]).
  destruct (blank_classified _ (blank_strip_row _ Hb)) as (Hhd & Hqu & Hca & Hwa & He).
  unfold parse_row. rewrite Hhd, Hqu, Hca, Hwa, He. simpl negb. cbv iota.
  destruct (dicts (heap ps) !! current_question ps) as [q|] eqn:Hq.
  2:{ apply lookup_ge_None in Hq. destruct Hwf as (_ & Hc & _). lia. }
  unfold current_text at 2. rewrite Hq.
  destruct (q_text q) as [text|] eqn:Ht.
  - destruct (Str.find text (u "```") >? -1)%Z.
    + eexists. split; [reflexivity|].
      rewrite (current_text_set_text _ _ _ Hq). repeat split.
    + exists ps. unfold current_text. rewrite Hq, Ht. repeat split.
  - exists ps. unfold current_text. rewrite Hq, Ht. repeat split.
Qed.

Lemma blank_row_keeps_row_and_newline_witness :
  parse_rows initial fenced_rows = Ok fenced_state /\
  blank (u "   ") = true /\
  current_text fenced_state = Some (u "```") /\
  exists ps',
    parse_row fenced_state (strip_row (u "   ")) = Ok ps' /\
    current_text ps' = Some (u "```" ++ u "   " ++ [nl]).
Proof.
  split; [vm_compute; reflexivity|]. split; [reflexivity|]. split; [reflexivity|].
  destruct (blank_row_keeps_row_and_newline fenced_rows fenced_state (u "   "))
    as (ps' & Hrow & Htext & _).
  - vm_compute. reflexivity.
  - reflexivity.
  - exists ps'. split; [exact Hrow|]. exact Htext.
Defined.

(** C6 as stated fails: a blank row of one space leaves that space before
    the line feed it appends. *)
Lemma blank_row_appends_its_spaces :
  parse_rows initial fenced_rows = Ok fenced_state /\
  blank (u " ") = true /\
  current_text fenced_state = Some (u "```") /\
  (Str.find (u "```") (u "```") >? -1)%Z = true /\
  exists ps',
    parse_row fenced_state (strip_row (u " ")) = Ok ps' /\
    current_text ps' = Some (u "``` " ++ [nl]) /\
    current_text ps' <> Some (u "```" ++ [nl]).
Proof.
  split; [vm_compute; reflexivity|]. split; [reflexivity|]. split; [reflexivity|].
  split; [reflexivity|].
  eexists. split; [vm_compute; reflexivity|]. split; [reflexivity|].
  vm_compute. discriminate.
Qed.

(** ** The renderers *)

(** Without a match, [re.sub] returns its subject. *)
Lemma sub_from_no_match p repl subject s : forall pos,
  search_from p subject pos s = None -> sub_from p repl subject 0 pos s = s.
Proof.
  induction s as [|c s IH]; intros pos; simpl.
  - destruct (exec p pos []) as [[ms e]|]; [discriminate|reflexivity].
  - destruct (exec p pos (c :: s)) as [[ms e]|]; [discriminate|].
    intros H. rewrite (IH _ H). reflexivity.
Qed.

Lemma sub_no_match p repl s : Re.search p s = None -> Re.sub p repl s = s.
Proof. apply sub_from_no_match. Qed.

(** C3 fails on the code: [render_answer] escapes the whole text and then
    [replace_single_line_code] escapes the span again, so an ampersand in
    inline code reaches [markdown] as [&amp;amp;] and the angle brackets as
    [&amp;lt;] and [&amp;gt;].  The same pass in [render_text] escapes
    once. *)
Theorem render_answer_escapes_twice (markdown : str -> str) :
  render_answer markdown (u "`&`") = wrap_cdata (markdown (u "<code>&amp;amp;</code>")) /\
  render_answer markdown (u "`a<b>`") =
    wrap_cdata (markdown (u "<code>a&amp;lt;b&amp;gt;</code>")) /\
  Re.sub SINGLE_LINE_CODE_PATTERN replace_single_line_code (u "`&`") =
    u "<code>&amp;</code>".
Proof. repeat split; vm_compute; reflexivity. Qed.

(** C4 fails on the code: [lexer.find('{img}') > 0] is false when the tag
    starts with the token, so a block tagged [{img}] alone is escaped and
    wrapped like any other, while [python{img}] is rasterized with the
    token stripped. *)
Theorem img_token_at_start_not_rasterized (convert_code_image_base64 : str -> str -> str) :
  Re.sub MULTI_LINE_CODE_PATTERN (replace_multi_line_code convert_code_image_base64)
         (u "```{img}" ++ nl :: u "a<b" ++ nl :: u "```") =
    u "<pre><code>a&lt;b" ++ nl :: u "</code></pre>" /\
  Re.sub MULTI_LINE_CODE_PATTERN (replace_multi_line_code convert_code_image_base64)
         (u "```{img}python" ++ nl :: u "a<b" ++ nl :: u "```") =
    u "<pre><code>a&lt;b" ++ nl :: u "</code></pre>" /\
  Re.sub MULTI_LINE_CODE_PATTERN (replace_multi_line_code convert_code_image_base64)
         (u "```python{img}" ++ nl :: u "a<b" ++ nl :: u "```") =
    convert_code_image_base64 (u "python") (u "a<b" ++ [nl]).
Proof.
  split; [vm_compute; reflexivity|]. split; [vm_compute; reflexivity|].
  vm_compute. exact (app_nil_r _).
Qed.

(** C8: an answer with an inline-code span is returned as the CDATA
    section of [markdown] applied to the transformed text; so is an answer
    with a single-dollar span and no code span; an answer with neither is
    returned as it is. *)
Theorem render_answer_cdata_or_plain (markdown : str -> str) (text : str) :
  (Re.search SINGLE_LINE_CODE_PATTERN text <> None ->
   render_answer markdown text =
     wrap_cdata (markdown
       (Re.sub SINGLE_DOLLAR_LATEX_PATTERN replace_latex
          (Re.sub SINGLE_LINE_CODE_PATTERN replace_single_line_code
             (sanitize_entities text))))) /\
  (Re.search SINGLE_LINE_CODE_PATTERN text = None ->
   Re.search SINGLE_DOLLAR_LATEX_PATTERN text <> None ->
   render_answer markdown text =
     wrap_cdata (markdown (Re.sub SINGLE_DOLLAR_LATEX_PATTERN replace_latex text))) /\
  (Re.search SINGLE_LINE_CODE_PATTERN text = None ->
   Re.search SINGLE_DOLLAR_LATEX_PATTERN text = None ->
   render_answer markdown text = text).
Proof.
  unfold render_answer. repeat split.
  - intros Hcode.
    destruct (Re.search SINGLE_LINE_CODE_PATTERN text) as [m|]; [|congruence].
    destruct (Re.search SINGLE_DOLLAR_LATEX_PATTERN _) as [m'|] eqn:Hd; [reflexivity|].
    rewrite (sub_no_match _ _ _ Hd). reflexivity.
  - intros -> Hd.
    destruct (Re.search SINGLE_DOLLAR_LATEX_PATTERN text) as [m|]; [reflexivity|congruence].
  - intros -> ->. reflexivity.
Qed.

Lemma render_answer_cdata_or_plain_witness :
  Re.search SINGLE_LINE_CODE_PATTERN (u "`x`") <> None /\
  render_answer paragraph (u "`x`") =
    u "<![CDATA[<p><code>x</code></p>]]>" /\
  Re.search SINGLE_LINE_CODE_PATTERN (u "$x$") = None /\
  Re.search SINGLE_DOLLAR_LATEX_PATTERN (u "$x$") <> None /\
  render_answer paragraph (u "$x$") =
    u "<![CDATA[<p>\\\(x\\)</p>]]>" /\
  Re.search SINGLE_LINE_CODE_PATTERN (u "plain") = None /\
  Re.search SINGLE_DOLLAR_LATEX_PATTERN (u "plain") = None /\
  render_answer paragraph (u "plain") = u "plain".
Proof.
  pose (md := fun html => u "<p>" ++ html ++ u "</p>").
  assert (Hx : Re.search SINGLE_LINE_CODE_PATTERN (u "`x`") <> None)
    by (vm_compute; discriminate).
  assert (Hd : Re.search SINGLE_DOLLAR_LATEX_PATTERN (u "$x$") <> None)
    by (vm_compute; discriminate).
  split; [exact Hx|]. split.
  { rewrite (proj1 (render_answer_cdata_or_plain paragraph (u "`x`")) Hx).
    vm_compute. reflexivity. }
  split; [reflexivity|]. split; [exact Hd|]. split.
  { rewrite (proj1 (proj2 (render_answer_cdata_or_plain paragraph (u "$x$"))) eq_refl Hd).
    vm_compute. reflexivity. }
  split; [reflexivity|]. split; [reflexivity|].
  exact (proj2 (proj2 (render_answer_cdata_or_plain paragraph (u "plain"))) eq_refl eq_refl).
Defined.

(** ** Matching and substitution on texts of a known shape *)

Lemma exec_lit_eq a p pos s :
  exec (Atom (lit a) One :: p) pos (a :: s) = exec p (S pos) s.
Proof. rewrite exec_one. unfold lit, char_eqb. rewrite N.eqb_refl. reflexivity. Qed.

Lemma exec_lit_ne a p pos c s :
  non a c = true -> exec (Atom (lit a) One :: p) pos (c :: s) = None.
Proof.
  intros H. rewrite exec_one. unfold lit. unfold non in H.
  destruct (char_eqb c a); [discriminate|reflexivity].
Qed.

Lemma exec_lit_lacks a p pos s :
  lacks a s = true -> exec (Atom (lit a) One :: p) pos s = None.
Proof.
  destruct s as [|c s]; [reflexivity|]. simpl.
  intros [Hc _]%andb_prop. apply exec_lit_ne, Hc.
Qed.

Lemma lacks_app a s t : lacks a (s ++ t) = lacks a s && lacks a t.
Proof. apply forallb_app. Qed.

Lemma lacks_drop a s : forall n, lacks a s = true -> lacks a (drop n s) = true.
Proof.
  induction s as [|c s IH]; intros [|n]; simpl; auto.
  intros [_ Hs]%andb_prop. apply IH, Hs.
Qed.

Lemma sub_from_miss p repl subject pos c s :
  exec p pos (c :: s) = None ->
  sub_from p repl subject 0 pos (c :: s) = c :: sub_from p repl subject 0 (S pos) s.
Proof. intros H. simpl. rewrite H. reflexivity. Qed.

Lemma sub_from_match p repl subject pos c s ms e :
  exec p pos (c :: s) = Some (ms, e) -> pos < e ->
  sub_from p repl subject 0 pos (c :: s) =
  repl (MatchObj subject pos ms e) ++ sub_from p repl subject (e - pos - 1) (S pos) s.
Proof.
  intros H Hlt. simpl. rewrite H.
  destruct (e <=? pos) eqn:E; [apply Nat.leb_le in E; lia|reflexivity].
Qed.

(** Characters that cannot start a match are copied. *)
Lemma sub_from_copy a p repl subject pre : forall pos s,
  lacks a pre = true ->
  sub_from (Atom (lit a) One :: p) repl subject 0 pos (pre ++ s) =
  pre ++ sub_from (Atom (lit a) One :: p) repl subject 0 (pos + length pre) s.
Proof.
  induction pre as [|c pre IH]; intros pos s.
  - intros _. simpl. rewrite Nat.add_0_r. reflexivity.
  - intros [Hc Hpre]%andb_prop.
    change ((c :: pre) ++ s) with (c :: (pre ++ s)).
    rewrite sub_from_miss by (apply exec_lit_ne, Hc).
    rewrite IH by assumption. simpl. repeat f_equal. lia.
Qed.

Lemma sub_from_lacks a p repl subject s pos :
  lacks a s = true ->
  sub_from (Atom (lit a) One :: p) repl subject 0 pos s = s.
Proof.
  intros H. rewrite <- (app_nil_r s) at 1. rewrite sub_from_copy by assumption.
  simpl. rewrite app_nil_r. reflexivity.
Qed.

(** The characters of a match are passed over. *)
Lemma sub_from_skip p repl subject a : forall pos s,
  sub_from p repl subject (length a) pos (a ++ s) =
  sub_from p repl subject 0 (pos + length a) s.
Proof.
  induction a as [|c a IH]; intros pos s; simpl.
  - rewrite Nat.add_0_r. reflexivity.
  - rewrite IH. f_equal. lia.
Qed.

(** Backtracking: when what follows fails everywhere further on, the
    repetition stops where it succeeds. *)
Lemma star_fail cls k s : forall pos,
  (forall n pos', k pos' (drop n s) = None) -> star cls k pos s = None.
Proof.
  induction s as [|c s IH]; intros pos Hk; simpl.
  - apply (Hk 0).
  - rewrite (IH (S pos)) by (intros n pos'; apply (Hk (S n))).
    pose proof (Hk 0 pos) as H0. simpl in H0. rewrite H0.
    destruct (cls c); reflexivity.
Qed.

Lemma star_last cls k c b o a : forall pos,
  forallb cls a = true ->
  (forall n pos', k pos' (drop n b) = None) ->
  k (pos + length a) (c :: b) = Some o ->
  star cls k pos (a ++ c :: b) = Some o.
Proof.
  induction a as [|x a IH]; intros pos Ha Hb Hk; simpl in *.
  - rewrite Nat.add_0_r in Hk. rewrite (star_fail cls k b (S pos) Hb), Hk.
    destruct (cls c); reflexivity.
  - apply andb_prop in Ha as [Hx Ha]. rewrite Hx.
    rewrite (IH (S pos) Ha Hb); [reflexivity|].
    rewrite <- Hk. f_equal. lia.
Qed.

Lemma slice_middle (pre body post : str) :
  slice (pre ++ body ++ post) (length pre) (length pre + length body) = body.
Proof.
  unfold slice. rewrite drop_app_length.
  replace (length pre + length body - length pre) with (length body) by lia.
  apply take_app_length.
Qed.

Lemma exec_close_lit_lacks a p pos s :
  lacks a s = true -> exec (Close :: Atom (lit a) One :: p) pos s = None.
Proof. intros H. rewrite exec_Close, (exec_lit_lacks a p pos s H). reflexivity. Qed.

(** The single-dollar pattern on a span: the group is the body up to the
    last dollar sign. *)
Lemma exec_single_dollar pos b body post :
  dot b = true -> forallb dot body = true -> lacks (ch "$") post = true ->
  exec SINGLE_DOLLAR_LATEX_PATTERN pos (ch "$" :: b :: body ++ ch "$" :: post) =
  Some ([S pos; S (S pos) + length body], S (S (S pos)) + length body).
Proof.
  intros Hb Hbody Hpost. unfold SINGLE_DOLLAR_LATEX_PATTERN.
  rewrite exec_lit_eq, exec_Open, exec_plus, Hb.
  rewrite (star_last dot _ (ch "$") post
             ([S (S pos) + length body], S (S (S pos)) + length body));
    [reflexivity|assumption| |].
  - intros n pos'. apply exec_close_lit_lacks, lacks_drop, Hpost.
  - rewrite exec_Close, exec_lit_eq. reflexivity.
Qed.

(** The double-dollar pattern on a block. *)
Lemma exec_double_dollar pos b body post :
  dot b = true -> forallb dot body = true -> lacks (ch "$") post = true ->
  exec DOUBLE_DOLLAR_LATEX_PATTERN pos
       (ch "$" :: ch "$" :: b :: body ++ ch "$" :: ch "$" :: post) =
  Some ([S (S pos); S (S (S pos)) + length body], S (S (S (S (S pos)))) + length body).
Proof.
  intros Hb Hbody Hpost. unfold DOUBLE_DOLLAR_LATEX_PATTERN.
  rewrite !exec_lit_eq, exec_Open, exec_plus, Hb.
  rewrite (star_last dot _ (ch "$") (ch "$" :: post)
             ([S (S (S pos)) + length body], S (S (S (S (S pos)))) + length body));
    [reflexivity|assumption| |].
  - intros [|n] pos'.
    + change (drop 0 (ch "$" :: post)) with (ch "$" :: post).
      rewrite exec_Close, exec_lit_eq, (exec_lit_lacks _ _ _ _ Hpost). reflexivity.
    + change (drop (S n) (ch "$" :: post)) with (drop n post).
      apply exec_close_lit_lacks, lacks_drop, Hpost.
  - rewrite exec_Close, !exec_lit_eq. reflexivity.
Qed.

Lemma replace_latex_eq subject pos a b e :
  replace_latex (MatchObj subject pos [a; b] e) =
  u "\\\(" ++ normalize_math (slice subject a b) ++ u "\\)".
Proof. reflexivity. Qed.

(** The single-dollar pass on a text with one span. *)
Lemma sub_single_dollar pre b body post :
  lacks (ch "$") pre = true -> dot b = true -> forallb dot body = true ->
  lacks (ch "$") post = true ->
  Re.sub SINGLE_DOLLAR_LATEX_PATTERN replace_latex
         (pre ++ ch "$" :: b :: body ++ ch "$" :: post) =
  pre ++ u "\\\(" ++ normalize_math (b :: body) ++ u "\\)" ++ post.
Proof.
  intros Hpre Hb Hbody Hpost. unfold Re.sub.
  set (subject := pre ++ ch "$" :: b :: body ++ ch "$" :: post) at 1.
  unfold SINGLE_DOLLAR_LATEX_PATTERN at 1.
  rewrite sub_from_copy by assumption. fold SINGLE_DOLLAR_LATEX_PATTERN.
  simpl (0 + length pre).
  rewrite (sub_from_match _ _ _ _ _ _ _ _ (exec_single_dollar _ b body post Hb Hbody Hpost))
    by lia.
  rewrite replace_latex_eq.
  replace (slice subject (S (length pre)) (S (S (length pre)) + length body))
    with (b :: body).
  2:{ subst subject.
      change (pre ++ ch "$" :: b :: body ++ ch "$" :: post)
        with (pre ++ [ch "$"] ++ (b :: body) ++ ch "$" :: post).
      rewrite app_assoc.
      replace (S (length pre)) with (length (pre ++ [ch "$"]))
        by (rewrite length_app; simpl; lia).
      replace (S (length (pre ++ [ch "$"])) + length body)
        with (length (pre ++ [ch "$"]) + length (b :: body)) by (simpl; lia).
      symmetry. apply slice_middle. }
  replace (S (S (S (length pre))) + length body - length pre - 1)
    with (length (b :: body ++ [ch "$"])) by (simpl; rewrite length_app; simpl; lia).
  replace (b :: body ++ ch "$" :: post) with ((b :: body ++ [ch "$"]) ++ post)
    by (simpl; rewrite <- app_assoc; reflexivity).
  rewrite sub_from_skip.
  unfold SINGLE_DOLLAR_LATEX_PATTERN.
  rewrite sub_from_lacks by assumption.
  rewrite <- !app_assoc. reflexivity.
Qed.

(** The double-dollar pass on a text with one block. *)
Lemma sub_double_dollar pre b body post :
  lacks (ch "$") pre = true -> dot b = true -> forallb dot body = true ->
  lacks (ch "$") post = true ->
  Re.sub DOUBLE_DOLLAR_LATEX_PATTERN replace_latex
         (pre ++ ch "$" :: ch "$" :: b :: body ++ ch "$" :: ch "$" :: post) =
  pre ++ u "\\\(" ++ normalize_math (b :: body) ++ u "\\)" ++ post.
Proof.
  intros Hpre Hb Hbody Hpost. unfold Re.sub.
  set (subject := pre ++ ch "$" :: ch "$" :: b :: body ++ ch "$" :: ch "$" :: post) at 1.
  unfold DOUBLE_DOLLAR_LATEX_PATTERN at 1.
  rewrite sub_from_copy by assumption. fold DOUBLE_DOLLAR_LATEX_PATTERN.
  simpl (0 + length pre).
  rewrite (sub_from_match _ _ _ _ _ _ _ _ (exec_double_dollar _ b body post Hb Hbody Hpost))
    by lia.
  rewrite replace_latex_eq.
  replace (slice subject (S (S (length pre))) (S (S (S (length pre))) + length body))
    with (b :: body).
  2:{ subst subject.
      change (pre ++ ch "$" :: ch "$" :: b :: body ++ ch "$" :: ch "$" :: post)
        with (pre ++ [ch "$"; ch "$"] ++ (b :: body) ++ ch "$" :: ch "$" :: post).
      rewrite app_assoc.
      replace (S (S (length pre))) with (length (pre ++ [ch "$"; ch "$"]))
        by (rewrite length_app; simpl; lia).
      replace (S (length (pre ++ [ch "$"; ch "$"])) + length body)
        with (length (pre ++ [ch "$"; ch "$"]) + length (b :: body)) by (simpl; lia).
      symmetry. apply slice_middle. }
  replace (S (S (S (S (S (length pre))))) + length body - length pre - 1)
    with (length (ch "$" :: b :: body ++ [ch "$"; ch "$"]))
    by (simpl; rewrite length_app; simpl; lia).
  replace (ch "$" :: b :: body ++ ch "$" :: ch "$" :: post)
    with ((ch "$" :: b :: body ++ [ch "$"; ch "$"]) ++ post)
    by (simpl; rewrite <- app_assoc; reflexivity).
  rewrite sub_from_skip.
  unfold DOUBLE_DOLLAR_LATEX_PATTERN.
  rewrite sub_from_lacks by assumption.
  rewrite <- !app_assoc. reflexivity.
Qed.

Lemma lacks_replace_aux a old new :
  lacks a new = true ->
  forall s skip, lacks a s = true -> lacks a (Str.replace_aux old new skip s) = true.
Proof.
  intros Hnew. induction s as [|c s IH]; intros skip Hs.
  - destruct skip; reflexivity.
  - simpl in Hs. apply andb_prop in Hs as [Hc Hs].
    destruct skip as [|k]; simpl; [|apply IH, Hs].
    destruct (Str.startswith old (c :: s)).
    + rewrite lacks_app, Hnew, IH by assumption. reflexivity.
    + change (lacks a (c :: Str.replace_aux old new 0 s))
        with (non a c && lacks a (Str.replace_aux old new 0 s)).
      rewrite Hc, IH by assumption. reflexivity.
Qed.

Lemma lacks_replace a s old new :
  lacks a new = true -> lacks a s = true -> lacks a (Str.replace s old new) = true.
Proof.
  intros Hnew Hs. unfold Str.replace. destruct old as [|o old].
  - rewrite lacks_app, Hnew. simpl. clear -Hnew Hs.
    induction s as [|c s IH]; simpl; [reflexivity|].
    simpl in Hs. apply andb_prop in Hs as [Hc Hs].
    change (lacks a (c :: new ++ flat_map (fun c0 => c0 :: new) s))
      with (non a c && lacks a (new ++ flat_map (fun c0 => c0 :: new) s)).
    rewrite Hc, lacks_app, Hnew, IH by assumption. reflexivity.
  - apply lacks_replace_aux; assumption.
Qed.

Lemma lacks_normalize_math body :
  lacks (ch "$") body = true -> lacks (ch "$") (normalize_math body) = true.
Proof.
  intros H. unfold normalize_math.
  apply lacks_replace; [reflexivity|]. apply lacks_replace; [reflexivity|assumption].
Qed.

(** The double-dollar pass leaves a single-dollar span alone. *)
Lemma sub_double_dollar_single pre b body post :
  lacks (ch "$") pre = true -> lacks (ch "$") (b :: body) = true ->
  lacks (ch "$") post = true ->
  Re.sub DOUBLE_DOLLAR_LATEX_PATTERN replace_latex
         (pre ++ ch "$" :: b :: body ++ ch "$" :: post) =
  pre ++ ch "$" :: b :: body ++ ch "$" :: post.
Proof.
  intros Hpre Hbody Hpost. unfold Re.sub.
  set (subject := pre ++ ch "$" :: b :: body ++ ch "$" :: post) at 1.
  unfold DOUBLE_DOLLAR_LATEX_PATTERN.
  rewrite sub_from_copy by assumption. f_equal.
  rewrite sub_from_miss.
  2:{ rewrite exec_lit_eq. apply exec_lit_ne.
      simpl in Hbody. apply andb_prop in Hbody as [Hb _]. exact Hb. }
  f_equal.
  change (b :: body ++ ch "$" :: post) with ((b :: body) ++ ch "$" :: post).
  rewrite sub_from_copy by assumption. f_equal.
  rewrite sub_from_miss by (rewrite exec_lit_eq; apply exec_lit_lacks, Hpost).
  f_equal. apply sub_from_lacks, Hpost.
Qed.

Lemma plain_inv s :
  plain s = true ->
  lacks (ch "$") s = true /\ lacks bq s = true /\ lacks (ch "!") s = true.
Proof. unfold plain. intros [[H1 H2]%andb_prop H3]%andb_prop. auto. Qed.

Lemma sub_multi_line_lacks repl s :
  lacks bq s = true -> Re.sub MULTI_LINE_CODE_PATTERN repl s = s.
Proof. apply sub_from_lacks. Qed.

Lemma sub_single_line_lacks repl s :
  lacks bq s = true -> Re.sub SINGLE_LINE_CODE_PATTERN repl s = s.
Proof. apply sub_from_lacks. Qed.

Lemma sub_image_lacks repl s :
  lacks (ch "!") s = true -> Re.sub IMAGE_PATTERN repl s = s.
Proof. apply sub_from_lacks. Qed.

Lemma sub_single_dollar_lacks repl s :
  lacks (ch "$") s = true -> Re.sub SINGLE_DOLLAR_LATEX_PATTERN repl s = s.
Proof. apply sub_from_lacks. Qed.

(** A question body with one double-dollar block, or one single-dollar
    span, and nothing else to render: both are rendered alike, the
    normalized body between the two delimiters. *)
Lemma render_text_one_math_span
        (markdown : str -> str) (convert_code_image_base64 : str -> str -> str)
        (isabs : str -> bool) (path_join : str -> str -> str)
        (build_image_tag : str -> str) (md_dir_path pre body post : str) :
  plain pre = true -> plain body = true -> plain post = true ->
  body <> [] -> forallb dot body = true ->
  render_text markdown convert_code_image_base64 isabs path_join build_image_tag
              (pre ++ u "$$" ++ body ++ u "$$" ++ post) md_dir_path =
    markdown (pre ++ u "\\\(" ++ normalize_math body ++ u "\\)" ++ post) /\
  render_text markdown convert_code_image_base64 isabs path_join build_image_tag
              (pre ++ u "$" ++ body ++ u "$" ++ post) md_dir_path =
    markdown (pre ++ u "\\\(" ++ normalize_math body ++ u "\\)" ++ post).
Proof.
  intros (Hpre & Hpre1 & Hpre2)%plain_inv (Hbody & Hbody1 & Hbody2)%plain_inv
         (Hpost & Hpost1 & Hpost2)%plain_inv Hne Hdot.
  destruct body as [|b body]; [congruence|]. clear Hne.
  pose proof Hdot as Hdot'. simpl in Hdot'. apply andb_prop in Hdot' as [Hb Hdots].
  assert (Hout : lacks (ch "$")
                   (pre ++ u "\\\(" ++ normalize_math (b :: body) ++ u "\\)" ++ post) = true).
  { rewrite !lacks_app, Hpre, Hpost, (lacks_normalize_math _ Hbody). reflexivity. }
  unfold render_text. split.
  - rewrite sub_multi_line_lacks
      by (rewrite !lacks_app, Hpre1, Hbody1, Hpost1; reflexivity).
    rewrite sub_single_line_lacks
      by (rewrite !lacks_app, Hpre1, Hbody1, Hpost1; reflexivity).
    rewrite sub_image_lacks
      by (rewrite !lacks_app, Hpre2, Hbody2, Hpost2; reflexivity).
    change (pre ++ u "$$" ++ (b :: body) ++ u "$$" ++ post)
      with (pre ++ ch "$" :: ch "$" :: b :: body ++ ch "$" :: ch "$" :: post).
    rewrite sub_double_dollar by assumption.
    rewrite sub_single_dollar_lacks by assumption. reflexivity.
  - rewrite sub_multi_line_lacks
      by (rewrite !lacks_app, Hpre1, Hbody1, Hpost1; reflexivity).
    rewrite sub_single_line_lacks
      by (rewrite !lacks_app, Hpre1, Hbody1, Hpost1; reflexivity).
    rewrite sub_image_lacks
      by (rewrite !lacks_app, Hpre2, Hbody2, Hpost2; reflexivity).
    change (pre ++ u "$" ++ (b :: body) ++ u "$" ++ post)
      with (pre ++ ch "$" :: b :: body ++ ch "$" :: post).
    rewrite sub_double_dollar_single by assumption.
    rewrite sub_single_dollar by assumption. reflexivity.
Qed.

Lemma render_text_one_math_span_example :
  plain (u "Let ") = true /\ plain (u "f(x)") = true /\ plain (u ".") = true /\
  u "f(x)" <> [] /\ forallb dot (u "f(x)") = true /\
  render_text paragraph (fun _ _ => []) (fun _ => true) (fun _ f => f) (fun f => f)
              (u "Let $$f(x)$$.") [] =
    u "<p>Let \\\(f\left(x\right)\\).</p>" /\
  render_text paragraph (fun _ _ => []) (fun _ => true) (fun _ f => f) (fun f => f)
              (u "Let $f(x)$.") [] =
    u "<p>Let \\\(f\left(x\right)\\).</p>".
Proof.
  split; [reflexivity|]. split; [reflexivity|]. split; [reflexivity|].
  split; [discriminate|]. split; [reflexivity|].
  apply (render_text_one_math_span
           paragraph (fun _ _ => []) (fun _ => true) (fun _ f => f) (fun f => f)
           [] (u "Let ") (u "f(x)") (u ".")).
  - reflexivity.
  - reflexivity.
  - reflexivity.
  - discriminate.
  - reflexivity.
Defined.

(** ** The math passes on every text *)

Lemma run_le cls s : run cls s <= length s.
Proof. induction s as [|c s IH]; simpl; [lia|]. destruct (cls c); simpl; lia. Qed.

Lemma back_cons k pos c s : forall n,
  back k pos (c :: s) (S n) =
  match back k (S pos) s n with
  | Some o => Some o
  | None => k pos (c :: s)
  end.
Proof.
  induction n as [|n IH].
  - cbn [back drop]. rewrite !Nat.add_0_r, Nat.add_1_r.
    change (drop 0 s) with s.
    destruct (k (S pos) s); [reflexivity|].
    destruct (k pos (c :: s)); reflexivity.
  - change (back k pos (c :: s) (S (S n)))
      with (match k (pos + S (S n)) (drop (S n) s) with
            | Some o => Some o
            | None => back k pos (c :: s) (S n)
            end).
    rewrite IH.
    change (back k (S pos) s (S n))
      with (match k (S pos + S n) (drop (S n) s) with
            | Some o => Some o
            | None => back k (S pos) s n
            end).
    replace (pos + S (S n)) with (S pos + S n) by lia.
    destruct (k (S pos + S n) (drop (S n) s)); reflexivity.
Qed.

(** Greedy repetition gives back one character at a time: the continuation
    is tried after the longest run, then after each shorter one. *)
Lemma star_back cls k : forall s pos,
  star cls k pos s = back k pos s (run cls s).
Proof.
  induction s as [|c s IH]; intros pos.
  - cbn [star run back drop]. rewrite Nat.add_0_r. destruct (k pos []); reflexivity.
  - cbn [star run]. destruct (cls c).
    + rewrite back_cons, IH. reflexivity.
    + cbn [back drop]. rewrite Nat.add_0_r. destruct (k pos (c :: s)); reflexivity.
Qed.

Lemma back_longest d k (f : nat -> outcome) :
  (forall p t, k p t = if Str.startswith d t then Some (f p) else None) ->
  forall n b s p0, n <= length s ->
  back k (S p0) s n =
  match longest_body d (b :: s) (S n) with
  | Some body => Some (f (p0 + length body))
  | None => None
  end.
Proof.
  intros Hk. induction n as [|n IH]; intros b s p0 Hn.
  - cbn [back longest_body drop take]. rewrite Hk.
    change (drop 0 s) with s. change (take 0 s) with (@nil char).
    destruct (Str.startswith d s); [|reflexivity].
    cbn [length]. do 2 f_equal. lia.
  - change (back k (S p0) s (S n))
      with (match k (S p0 + S n) (drop (S n) s) with
            | Some o => Some o
            | None => back k (S p0) s n
            end).
    rewrite Hk.
    change (longest_body d (b :: s) (S (S n)))
      with (if Str.startswith d (drop (S n) s) then Some (take (S (S n)) (b :: s))
            else longest_body d (b :: s) (S n)).
    destruct (Str.startswith d (drop (S n) s)).
    + rewrite length_take_le by (simpl; lia). do 2 f_equal. lia.
    + apply IH. lia.
Qed.

Lemma longest_body_take d rest : forall n body,
  n <= length rest -> longest_body d rest n = Some body ->
  body = take (length body) rest /\ 1 <= length body.
Proof.
  induction n as [|n IH]; intros body Hn; [discriminate|].
  cbn [longest_body]. destruct (Str.startswith d (drop (S n) rest)).
  - intros [= <-]. rewrite length_take_le by lia. split; [reflexivity|lia].
  - apply IH. lia.
Qed.

Lemma math_span_take d s body :
  math_span d s = Some body ->
  body = take (length body) (drop (length d) s) /\ 1 <= length body.
Proof.
  unfold math_span. destruct (Str.startswith d s); [|discriminate].
  apply longest_body_take, run_le.
Qed.

Lemma lit_sym a c : lit a c = char_eqb a c.
Proof. apply N.eqb_sym. Qed.

Lemma close_single p t :
  exec [Close; Atom (lit (ch "$")) One] p t =
  if Str.startswith (u "$") t then Some ([p], S p) else None.
Proof.
  rewrite exec_Close. destruct t as [|c t]; [reflexivity|].
  rewrite exec_one. change (u "$") with [ch "$"]. cbn [Str.startswith].
  unfold lit, char_eqb. rewrite (N.eqb_sym (ch "$") c).
  destruct (N.eqb c (ch "$")); reflexivity.
Qed.

Lemma close_double p t :
  exec [Close; Atom (lit (ch "$")) One; Atom (lit (ch "$")) One] p t =
  if Str.startswith (u "$$") t then Some ([p], S (S p)) else None.
Proof.
  rewrite exec_Close. destruct t as [|c t]; [reflexivity|].
  rewrite exec_one. change (u "$$") with [ch "$"; ch "$"]. cbn [Str.startswith].
  unfold lit, char_eqb. rewrite (N.eqb_sym (ch "$") c).
  destruct (N.eqb c (ch "$")); [|reflexivity].
  destruct t as [|c' t]; [reflexivity|].
  rewrite exec_one. unfold lit, char_eqb. rewrite (N.eqb_sym (ch "$") c').
  destruct (N.eqb c' (ch "$")); reflexivity.
Qed.

(** The single-dollar pattern matches where a span opens, and its group is
    the body of the span. *)
Lemma exec_single_dollar_span pos s :
  exec SINGLE_DOLLAR_LATEX_PATTERN pos s =
  match math_span (u "$") s with
  | Some body => Some ([S pos; S pos + length body], S (S pos) + length body)
  | None => None
  end.
Proof.
  unfold SINGLE_DOLLAR_LATEX_PATTERN, math_span.
  destruct s as [|c s]; [reflexivity|].
  rewrite exec_one, lit_sym. change (u "$") with [ch "$"].
  cbn [Str.startswith length drop].
  destruct (char_eqb (ch "$") c); [|reflexivity]. cbn [andb].
  change (drop 0 s) with s.
  rewrite exec_Open. destruct s as [|b s]; [reflexivity|].
  rewrite exec_plus. cbn [run]. destruct (dot b); [|reflexivity].
  rewrite star_back.
  rewrite (back_longest [ch "$"] _ (fun p => ([p], S p)) close_single
             (run dot s) b s (S pos) (run_le dot s)).
  destruct (longest_body [ch "$"] (b :: s) (S (run dot s))); reflexivity.
Qed.

(** The double-dollar pattern matches where a block opens, and its group
    is the body of the block. *)
Lemma exec_double_dollar_span pos s :
  exec DOUBLE_DOLLAR_LATEX_PATTERN pos s =
  match math_span (u "$$") s with
  | Some body =>
      Some ([S (S pos); S (S pos) + length body], S (S (S (S pos))) + length body)
  | None => None
  end.
Proof.
  unfold DOUBLE_DOLLAR_LATEX_PATTERN, math_span.
  destruct s as [|c s]; [reflexivity|].
  rewrite exec_one, lit_sym. change (u "$$") with [ch "$"; ch "$"].
  cbn [Str.startswith length drop].
  destruct (char_eqb (ch "$") c); [|reflexivity]. cbn [andb].
  destruct s as [|c' s]; [reflexivity|].
  rewrite exec_one, lit_sym. cbn [Str.startswith drop].
  destruct (char_eqb (ch "$") c'); [|reflexivity]. cbn [andb].
  change (drop 0 s) with s.
  rewrite exec_Open. destruct s as [|b s]; [reflexivity|].
  rewrite exec_plus. cbn [run]. destruct (dot b); [|reflexivity].
  rewrite star_back.
  rewrite (back_longest [ch "$"; ch "$"] _ (fun p => ([p], S (S p))) close_double
             (run dot s) b s (S (S pos)) (run_le dot s)).
  destruct (longest_body [ch "$"; ch "$"] (b :: s) (S (run dot s))); reflexivity.
Qed.

Lemma drop_tail (subject : str) pos c s :
  drop pos subject = c :: s -> drop (S pos) subject = s.
Proof.
  intros H. replace (S pos) with (pos + 1) by lia.
  rewrite <- drop_drop, H. reflexivity.
Qed.

(** The single-dollar pass of the code is the replacement of every span. *)
Lemma sub_single_dollar_collapse subject : forall s skip pos,
  drop pos subject = s ->
  sub_from SINGLE_DOLLAR_LATEX_PATTERN replace_latex subject skip pos s =
  collapse_from (u "$") skip s.
Proof.
  induction s as [|c s IH]; intros skip pos Hs.
  - destruct skip; reflexivity.
  - destruct skip as [|skip].
    + cbn [sub_from collapse_from]. rewrite exec_single_dollar_span.
      destruct (math_span (u "$") (c :: s)) as [body|] eqn:E.
      * apply math_span_take in E as [Hbody Hlen].
        change (drop (length (u "$")) (c :: s)) with s in Hbody.
        rewrite replace_latex_eq. unfold slice.
        rewrite (drop_tail _ _ _ _ Hs).
        replace (S pos + length body - S pos) with (length body) by lia.
        rewrite <- Hbody.
        destruct (S (S pos) + length body <=? pos) eqn:L;
          [apply Nat.leb_le in L; lia|].
        rewrite (IH _ (S pos) (drop_tail _ _ _ _ Hs)).
        unfold inline_math. rewrite <- !app_assoc. do 3 f_equal.
        change (length (u "$")) with 1. f_equal. lia.
      * f_equal. apply IH. eapply drop_tail, Hs.
    + cbn [sub_from collapse_from]. apply IH. eapply drop_tail, Hs.
Qed.

(** The double-dollar pass of the code is the replacement of every
    block. *)
Lemma sub_double_dollar_collapse subject : forall s skip pos,
  drop pos subject = s ->
  sub_from DOUBLE_DOLLAR_LATEX_PATTERN replace_latex subject skip pos s =
  collapse_from (u "$$") skip s.
Proof.
  induction s as [|c s IH]; intros skip pos Hs.
  - destruct skip; reflexivity.
  - destruct skip as [|skip].
    + cbn [sub_from collapse_from]. rewrite exec_double_dollar_span.
      destruct (math_span (u "$$") (c :: s)) as [body|] eqn:E.
      * apply math_span_take in E as [Hbody Hlen].
        rewrite replace_latex_eq. unfold slice.
        replace (S (S pos)) with (pos + length (u "$$")) by (simpl; lia).
        rewrite <- drop_drop, Hs.
        replace (pos + length (u "$$") + length body - (pos + length (u "$$")))
          with (length body) by lia.
        rewrite <- Hbody.
        destruct (S (S (pos + length (u "$$"))) + length body <=? pos) eqn:L;
          [apply Nat.leb_le in L; lia|].
        rewrite (IH _ (S pos) (drop_tail _ _ _ _ Hs)).
        unfold inline_math. rewrite <- !app_assoc. do 3 f_equal.
        change (length (u "$$")) with 2. f_equal. lia.
      * f_equal. apply IH. eapply drop_tail, Hs.
    + cbn [sub_from collapse_from]. apply IH. eapply drop_tail, Hs.
Qed.

Lemma sub_single_dollar_all s :
  Re.sub SINGLE_DOLLAR_LATEX_PATTERN replace_latex s = collapse_math (u "$") s.
Proof. apply sub_single_dollar_collapse. reflexivity. Qed.

Lemma sub_double_dollar_all s :
  Re.sub DOUBLE_DOLLAR_LATEX_PATTERN replace_latex s = collapse_math (u "$$") s.
Proof. apply sub_double_dollar_collapse. reflexivity. Qed.

Lemma collapse_from_skip d : forall s k,
  collapse_from d k s = collapse_from d 0 (drop k s).
Proof.
  induction s as [|c s IH]; intros [|k]; try reflexivity.
  cbn [collapse_from drop]. apply IH.
Qed.

(** The replacement of every block or span, one at a time: after a block
    or span the text is gone through from its closing delimiter on. *)
Lemma collapse_math_eq d s :
  collapse_math d s =
  match s with
  | [] => []
  | c :: s' =>
      match math_span d s with
      | Some body =>
          inline_math body ++
          collapse_math d (drop (length d + length body + length d) s)
      | None => c :: collapse_math d s'
      end
  end.
Proof.
  unfold collapse_math. destruct s as [|c s]; [reflexivity|].
  cbn [collapse_from]. destruct (math_span d (c :: s)) as [body|] eqn:E; [|reflexivity].
  apply math_span_take in E as [_ Hlen].
  rewrite collapse_from_skip.
  destruct (length d + length body + length d) as [|n] eqn:En; [lia|].
  replace (S n - 1) with n by lia. reflexivity.
Qed.

(** C7, as amended: for every question body, [render_text] hands to the
    markdown capability the text in which, after the fenced-code,
    inline-code and image passes, every double-dollar block and then every
    single-dollar span is replaced by the same form: its body with every
    opening parenthesis turned into [\left(] and every closing one into
    [\right)], between an opening delimiter of three backslashes and a
    parenthesis and a closing delimiter of two backslashes and a
    parenthesis.  A block or span is a delimiter, a body that is not empty,
    has no line feed and runs to the last closing delimiter on its line,
    and that delimiter; the text is gone through from left to right, and
    what is in no block or span is left as it is. *)
Theorem math_collapses_to_inline_delimiters
        (markdown : str -> str) (convert_code_image_base64 : str -> str -> str)
        (isabs : str -> bool) (path_join : str -> str -> str)
        (build_image_tag : str -> str) (text md_dir_path : str) :
  render_text markdown convert_code_image_base64 isabs path_join build_image_tag
              text md_dir_path =
  markdown
    (collapse_math (u "$")
       (collapse_math (u "$$")
          (before_math convert_code_image_base64 isabs path_join build_image_tag
                       text md_dir_path))).
Proof.
  unfold render_text, before_math.
  rewrite sub_double_dollar_all, sub_single_dollar_all. reflexivity.
Qed.

(** Question bodies with math next to code, with code or an exclamation
    mark inside the math, with two spans on a line and with a body on two
    lines, as [render_text] renders them. *)
Lemma render_text_math_examples :
  let render text :=
    render_text paragraph (fun _ _ => []) (fun _ => true) (fun _ f => f) (fun f => f)
                text [] in
  render (u "`x` is $f(x)$") = u "<p><code>x</code> is \\\(f\left(x\right)\\)</p>" /\
  render (u "`x` is $$f(x)$$") = u "<p><code>x</code> is \\\(f\left(x\right)\\)</p>" /\
  render (u "$n!$") = u "<p>\\\(n!\\)</p>" /\
  render (u "$a`(`b$") = u "<p>\\\(a<code>\left(</code>b\\)</p>" /\
  render (u "$a$ and $b$") = u "<p>\\\(a$ and $b\\)</p>" /\
  render (u "$$a$$ and $b$") = u "<p>\\\(a\\) and \\\(b\\)</p>" /\
  render ([ch "$"; ch "a"; nl; ch "b"; ch "$"]) =
    u "<p>" ++ [ch "$"; ch "a"; nl; ch "b"; ch "$"] ++ u "</p>".
Proof. vm_compute. repeat split. Qed.

(** C7 as stated fails: the opening delimiter that is emitted has three
    backslashes, not two.  Two spans on a line are taken as one span, whose
    body runs to the last dollar sign of the line; and a code span inside a
    math body reaches the math pass as the inline-code pass left it. *)
Lemma latex_delimiters_and_spans_not_as_stated :
  Re.sub DOUBLE_DOLLAR_LATEX_PATTERN replace_latex (u "$$x$$") =
    [bsl; bsl; bsl] ++ u "(x" ++ [bsl; bsl] ++ u ")" /\
  Re.sub SINGLE_DOLLAR_LATEX_PATTERN replace_latex (u "$x$") =
    [bsl; bsl; bsl] ++ u "(x" ++ [bsl; bsl] ++ u ")" /\
  Re.sub DOUBLE_DOLLAR_LATEX_PATTERN replace_latex (u "$$x$$") <>
    [bsl; bsl] ++ u "(" ++ normalize_math (u "x") ++ [bsl; bsl] ++ u ")" /\
  Re.sub SINGLE_DOLLAR_LATEX_PATTERN replace_latex (u "$x$") <>
    [bsl; bsl] ++ u "(" ++ normalize_math (u "x") ++ [bsl; bsl] ++ u ")" /\
  Re.sub SINGLE_DOLLAR_LATEX_PATTERN replace_latex (u "$a$ and $b$") =
    inline_math (u "a$ and $b") /\
  Re.sub SINGLE_DOLLAR_LATEX_PATTERN replace_latex (u "$a$ and $b$") <>
    inline_math (u "a") ++ u " and " ++ inline_math (u "b") /\
  render_text paragraph (fun _ _ => []) (fun _ => true) (fun _ f => f) (fun f => f)
              (u "$a`(`b$") [] =
    paragraph (inline_math (u "a<code>(</code>b")) /\
  render_text paragraph (fun _ _ => []) (fun _ => true) (fun _ f => f) (fun f => f)
              (u "$a`(`b$") [] <>
    paragraph (inline_math (u "a`(`b")).
Proof.
  split; [vm_compute; reflexivity|]. split; [vm_compute; reflexivity|].
  split; [vm_compute; discriminate|]. split; [vm_compute; discriminate|].
  split; [vm_compute; reflexivity|]. split; [vm_compute; discriminate|].
  split; [vm_compute; reflexivity|]. vm_compute; discriminate.
Qed.

(** * Further properties *)

(** ** What the classifiers read *)

Lemma star_stop cls k c b o a : forall pos,
  forallb cls a = true -> cls c = false ->
  k (pos + length a) (c :: b) = Some o ->
  star cls k pos (a ++ c :: b) = Some o.
Proof.
  induction a as [|x a IH]; intros pos Ha Hc Hk; simpl in *.
  - rewrite Nat.add_0_r in Hk. rewrite Hc. exact Hk.
  - apply andb_prop in Ha as [Hx Ha]. rewrite Hx.
    rewrite (IH (S pos) Ha Hc); [reflexivity|].
    rewrite <- Hk. f_equal. lia.
Qed.

Lemma star_all cls k o s : forall pos,
  forallb cls s = true ->
  k (pos + length s) [] = Some o ->
  star cls k pos s = Some o.
Proof.
  induction s as [|x s IH]; intros pos Hs Hk; simpl in *.
  - rewrite Nat.add_0_r in Hk. exact Hk.
  - apply andb_prop in Hs as [Hx Hs]. rewrite Hx.
    rewrite (IH (S pos) Hs); [reflexivity|].
    rewrite <- Hk. f_equal. lia.
Qed.

Lemma lacks_nl_dot t : lacks nl t = true -> forallb dot t = true.
Proof. intros H. exact H. Qed.

Lemma slice_end (pre body : str) :
  slice (pre ++ body) (length pre) (length pre + length body) = body.
Proof.
  rewrite <- (app_nil_r body) at 1. apply slice_middle.
Qed.

Lemma exec_header ws caption :
  blank ws = true -> forallb dot caption = true ->
  exec HEADER_PATTERN 0 (ws ++ header_row caption) =
  Some ([length ws + 2; length ws + 2 + length caption],
        length ws + 2 + length caption).
Proof.
  intros Hws Hc. unfold HEADER_PATTERN, header_row.
  change (u "# " ++ caption) with (ch "#" :: ch " " :: caption).
  rewrite exec_Bol, exec_star.
  apply star_stop; [assumption|reflexivity|].
  rewrite !exec_lit_eq, exec_Open, exec_star.
  rewrite (star_all dot _ ([length ws + 2 + length caption],
                           length ws + 2 + length caption)); [| assumption |].
  - simpl. repeat f_equal; lia.
  - rewrite exec_Close. simpl. repeat f_equal; lia.
Qed.

Lemma exec_question ws sp text :
  blank ws = true -> space sp = true -> forallb dot text = true ->
  exec QUESTION_PATTERN 0 (ws ++ ch "*" :: sp :: text) =
  Some ([0; length ws; length ws + 1; length ws + 2; length ws + 2;
         length ws + 2 + length text],
        length ws + 2 + length text).
Proof.
  intros Hws Hsp Ht. unfold QUESTION_PATTERN.
  rewrite exec_Bol, exec_Open, exec_star.
  rewrite (star_stop space _ (ch "*") (sp :: text)
             ([length ws; length ws + 1; length ws + 2; length ws + 2;
               length ws + 2 + length text], length ws + 2 + length text));
    [reflexivity|assumption|reflexivity|].
  rewrite exec_Close, exec_lit_eq, exec_Open, exec_one, Hsp, exec_Close,
    exec_Open, exec_star.
  rewrite (star_all dot _ ([length ws + 2 + length text],
                           length ws + 2 + length text)); [|assumption|].
  - simpl. repeat f_equal; lia.
  - rewrite exec_Close. simpl. repeat f_equal; lia.
Qed.

Lemma exec_correct_answer ws sp text :
  blank ws = true -> space sp = true -> forallb dot text = true ->
  exec CORRECT_ANSWER_PATTERN 0 (ws ++ ch "-" :: sp :: ch "!" :: text) =
  Some ([0; length ws; length ws + 1; length ws + 2; length ws + 3;
         length ws + 3 + length text],
        length ws + 3 + length text).
Proof.
  intros Hws Hsp Ht. unfold CORRECT_ANSWER_PATTERN.
  rewrite exec_Bol, exec_Open, exec_star.
  rewrite (star_stop space _ (ch "-") (sp :: ch "!" :: text)
             ([length ws; length ws + 1; length ws + 2; length ws + 3;
               length ws + 3 + length text], length ws + 3 + length text));
    [reflexivity|assumption|reflexivity|].
  rewrite exec_Close, exec_lit_eq, exec_Open, exec_one, Hsp, exec_Close,
    exec_lit_eq, exec_Open, exec_star.
  rewrite (star_all dot _ ([length ws + 3 + length text],
                           length ws + 3 + length text)); [|assumption|].
  - simpl. repeat f_equal; lia.
  - rewrite exec_Close. simpl. repeat f_equal; lia.
Qed.

Lemma exec_wrong_answer ws sp text c :
  blank ws = true -> space sp = true -> forallb dot text = true ->
  non (ch " ") c = true ->
  exec WRONG_ANSWER_PATTERN 0 (ws ++ ch "-" :: sp :: text ++ [c]) =
  Some ([0; length ws; length ws + 1; length ws + 2; length ws + 2;
         length ws + 3 + length text],
        length ws + 3 + length text).
Proof.
  intros Hws Hsp Ht Hc. unfold WRONG_ANSWER_PATTERN.
  rewrite exec_Bol, exec_Open, exec_star.
  rewrite (star_stop space _ (ch "-") (sp :: text ++ [c])
             ([length ws; length ws + 1; length ws + 2; length ws + 2;
               length ws + 3 + length text], length ws + 3 + length text));
    [reflexivity|assumption|reflexivity|].
  rewrite exec_Close, exec_lit_eq, exec_Open, exec_one, Hsp, exec_Close,
    exec_Open, exec_star.
  rewrite (star_last dot _ c [] ([length ws + 3 + length text],
                                 length ws + 3 + length text));
    [|assumption| |].
  - simpl. repeat f_equal; lia.
  - intros n pos'. rewrite drop_nil. reflexivity.
  - rewrite exec_one, Hc, exec_Close. simpl. repeat f_equal; lia.
Qed.

Lemma group_1 s pos a b ms e :
  group (MatchObj s pos (a :: b :: ms) e) 1 = slice s a b.
Proof. reflexivity. Qed.

Lemma group_2 s pos a1 a2 a b ms e :
  group (MatchObj s pos (a1 :: a2 :: a :: b :: ms) e) 2 = slice s a b.
Proof. reflexivity. Qed.

Lemma group_3 s pos a1 a2 a3 a4 a b ms e :
  group (MatchObj s pos (a1 :: a2 :: a3 :: a4 :: a :: b :: ms) e) 3 = slice s a b.
Proof. reflexivity. Qed.

(** What a successful repetition took, and where what follows began. *)
Lemma star_inv cls k : forall s pos o,
  star cls k pos s = Some o ->
  exists a b, s = a ++ b /\ forallb cls a = true /\ k (pos + length a) b = Some o.
Proof.
  induction s as [|x s IH]; intros pos o; simpl.
  - intros H. exists [], []. simpl. rewrite Nat.add_0_r. auto.
  - destruct (cls x) eqn:Hx.
    + destruct (star cls k (S pos) s) as [o'|] eqn:Hs.
      * intros [= <-]. destruct (IH _ _ Hs) as (a & b & -> & Ha & Hk).
        exists (x :: a), b. simpl. rewrite Hx, Ha.
        replace (pos + S (length a)) with (S pos + length a) by lia. auto.
      * intros H. exists [], (x :: s). simpl. rewrite Nat.add_0_r. auto.
    + intros H. exists [], (x :: s). simpl. rewrite Nat.add_0_r. auto.
Qed.

Lemma blank_prefix_unique a : forall a' c c' r r',
  blank a = true -> blank a' = true -> space c = false -> space c' = false ->
  a ++ c :: r = a' ++ c' :: r' -> a = a' /\ c = c' /\ r = r'.
Proof.
  induction a as [|x a IH]; intros [|x' a'] c c' r r' Ha Ha' Hc Hc'; simpl in *.
  - intros [= -> ->]. auto.
  - intros [= -> ->]. apply andb_prop in Ha' as [Hx' _]. congruence.
  - intros [= -> <-]. apply andb_prop in Ha as [Hx _]. congruence.
  - intros [= -> H]. apply andb_prop in Ha as [_ Ha]. apply andb_prop in Ha' as [_ Ha'].
    destruct (IH _ _ _ _ _ Ha Ha' Hc Hc' H) as (-> & -> & ->). auto.
Qed.

Lemma exec_lit_inv a p pos s o :
  exec (Atom (lit a) One :: p) pos s = Some o ->
  exists s', s = a :: s' /\ exec p (S pos) s' = Some o.
Proof.
  destruct s as [|c s]; [discriminate|]. rewrite exec_one.
  unfold lit, char_eqb. destruct (N.eqb_spec c a) as [->|]; [eauto|discriminate].
Qed.

Lemma exec_one_inv cls p pos s o :
  exec (Atom cls One :: p) pos s = Some o ->
  exists c s', s = c :: s' /\ cls c = true /\ exec p (S pos) s' = Some o.
Proof.
  destruct s as [|c s]; [discriminate|]. rewrite exec_one.
  destruct (cls c) eqn:Hc; [eauto|discriminate].
Qed.

Lemma mark_inv pos x ms e :
  mark pos x = Some (ms, e) -> exists ms', ms = pos :: ms' /\ x = Some (ms', e).
Proof.
  destruct x as [[ms' e']|]; simpl; [|discriminate].
  intros [= <- <-]. eauto.
Qed.

(** On a text without line feed, [$] is the end. *)
Lemma at_eol_lacks s : lacks nl s = true -> at_eol s = true -> s = [].
Proof.
  destruct s as [|c [|d s]]; simpl; try discriminate; [reflexivity|].
  unfold non. destruct (char_eqb c nl); discriminate.
Qed.

Lemma exec_close_eol_inv pos s ms e :
  lacks nl s = true ->
  exec [Close; Eol] pos s = Some (ms, e) -> s = [] /\ ms = [pos] /\ e = pos.
Proof.
  intros Hs. rewrite exec_Close. intros (ms' & -> & H)%mark_inv.
  simpl in H. destruct (at_eol s) eqn:He; [|discriminate].
  injection H as <- <-. rewrite (at_eol_lacks s Hs He). auto.
Qed.

Lemma lacks_app_inv a s t :
  lacks a (s ++ t) = true -> lacks a s = true /\ lacks a t = true.
Proof. rewrite lacks_app. apply andb_prop. Qed.

(** The tail [( .* ) $] of a pattern on a text without line feed: the
    group is all that is left. *)
Lemma exec_rest_inv pos s ms e :
  lacks nl s = true ->
  exec [Open; Atom dot ZeroOrMore; Close; Eol] pos s = Some (ms, e) ->
  ms = [pos; pos + length s] /\ e = pos + length s.
Proof.
  intros Hs. rewrite exec_Open, exec_star. intros (ms' & -> & H)%mark_inv.
  apply star_inv in H as (a & b & -> & Ha & Hk).
  apply lacks_app_inv in Hs as [_ Hb].
  apply exec_close_eol_inv in Hk as (-> & -> & ->); [|assumption].
  rewrite app_nil_r. auto.
Qed.

Lemma lacks_tail a c s : lacks a (c :: s) = true -> lacks a s = true.
Proof. simpl. intros [_ H]%andb_prop. exact H. Qed.

Lemma slice_after (pre body : str) n :
  n = length pre -> slice (pre ++ body) n (n + length body) = body.
Proof. intros ->. apply slice_end. Qed.

Lemma get_header_shape s caption :
  lacks nl s = true ->
  get_header s = Some caption <->
  exists ws, blank ws = true /\ s = ws ++ header_row caption.
Proof.
  intros Hs. split.
  - unfold get_header, Re.match_, HEADER_PATTERN.
    destruct (exec _ 0 s) as [[ms e]|] eqn:H; [|discriminate].
    rewrite exec_Bol, exec_star in H.
    apply star_inv in H as (ws & b & -> & Hws & H).
    apply exec_lit_inv in H as (b1 & -> & H).
    apply exec_lit_inv in H as (r & -> & H).
    apply lacks_app_inv in Hs as [_ Hb]. do 2 apply lacks_tail in Hb.
    apply exec_rest_inv in H as [-> ->]; [|exact Hb].
    rewrite group_1.
    replace (ws ++ ch "#" :: ch " " :: r) with ((ws ++ [ch "#"; ch " "]) ++ r)
      by (rewrite <- app_assoc; reflexivity).
    rewrite slice_after by (rewrite length_app; simpl; lia).
    intros [= <-]. exists ws. split; [exact Hws|].
    rewrite <- app_assoc. reflexivity.
  - intros (ws & Hws & ->).
    apply lacks_app_inv in Hs as [_ Hc]. unfold header_row in Hc.
    apply lacks_app_inv in Hc as [_ Hc].
    unfold get_header, Re.match_. rewrite (exec_header ws caption Hws Hc).
    f_equal. rewrite group_1. unfold header_row. rewrite app_assoc.
    apply slice_after. rewrite length_app. reflexivity.
Qed.


Lemma get_question_shape s text :
  lacks nl s = true ->
  get_question s = Some text <->
  exists ws sp, blank ws = true /\ space sp = true /\ s = ws ++ ch "*" :: sp :: text.
Proof.
  intros Hs. split.
  - unfold get_question, Re.match_, QUESTION_PATTERN.
    destruct (exec _ 0 s) as [[ms e]|] eqn:H; [|discriminate].
    rewrite exec_Bol, exec_Open, exec_star in H.
    apply mark_inv in H as (ms1 & -> & H).
    apply star_inv in H as (ws & b & -> & Hws & H).
    rewrite exec_Close in H. apply mark_inv in H as (ms2 & -> & H).
    apply exec_lit_inv in H as (b1 & -> & H).
    rewrite exec_Open in H. apply mark_inv in H as (ms3 & -> & H).
    apply exec_one_inv in H as (sp & r & -> & Hsp & H).
    rewrite exec_Close in H. apply mark_inv in H as (ms4 & -> & H).
    apply lacks_app_inv in Hs as [_ Hb]. do 2 apply lacks_tail in Hb.
    apply exec_rest_inv in H as [-> ->]; [|exact Hb].
    rewrite group_3.
    replace (ws ++ ch "*" :: sp :: r) with ((ws ++ [ch "*"; sp]) ++ r)
      by (rewrite <- app_assoc; reflexivity).
    rewrite slice_after by (rewrite length_app; simpl; lia).
    intros [= <-]. exists ws, sp. repeat split; try assumption.
    rewrite <- app_assoc. reflexivity.
  - intros (ws & sp & Hws & Hsp & ->).
    apply lacks_app_inv in Hs as [_ Hc]. do 2 apply lacks_tail in Hc.
    unfold get_question, Re.match_. rewrite (exec_question ws sp text Hws Hsp Hc).
    f_equal. rewrite group_3.
    change (ws ++ ch "*" :: sp :: text) with (ws ++ [ch "*"; sp] ++ text).
    rewrite app_assoc. apply slice_after. rewrite length_app. reflexivity.
Qed.


Lemma get_correct_answer_shape s text :
  lacks nl s = true ->
  get_correct_answer s = Some text <->
  exists ws sp, blank ws = true /\ space sp = true /\
    s = ws ++ ch "-" :: sp :: ch "!" :: text.
Proof.
  intros Hs. split.
  - unfold get_correct_answer, Re.match_, CORRECT_ANSWER_PATTERN.
    destruct (exec _ 0 s) as [[ms e]|] eqn:H; [|discriminate].
    rewrite exec_Bol, exec_Open, exec_star in H.
    apply mark_inv in H as (ms1 & -> & H).
    apply star_inv in H as (ws & b & -> & Hws & H).
    rewrite exec_Close in H. apply mark_inv in H as (ms2 & -> & H).
    apply exec_lit_inv in H as (b1 & -> & H).
    rewrite exec_Open in H. apply mark_inv in H as (ms3 & -> & H).
    apply exec_one_inv in H as (sp & b2 & -> & Hsp & H).
    rewrite exec_Close in H. apply mark_inv in H as (ms4 & -> & H).
    apply exec_lit_inv in H as (r & -> & H).
    apply lacks_app_inv in Hs as [_ Hb]. do 3 apply lacks_tail in Hb.
    apply exec_rest_inv in H as [-> ->]; [|exact Hb].
    rewrite group_3.
    replace (ws ++ ch "-" :: sp :: ch "!" :: r)
      with ((ws ++ [ch "-"; sp; ch "!"]) ++ r)
      by (rewrite <- app_assoc; reflexivity).
    rewrite slice_after by (rewrite length_app; simpl; lia).
    intros [= <-]. exists ws, sp. repeat split; try assumption.
    rewrite <- app_assoc. reflexivity.
  - intros (ws & sp & Hws & Hsp & ->).
    apply lacks_app_inv in Hs as [_ Hc]. do 3 apply lacks_tail in Hc.
    unfold get_correct_answer, Re.match_.
    rewrite (exec_correct_answer ws sp text Hws Hsp Hc).
    f_equal. rewrite group_3.
    change (ws ++ ch "-" :: sp :: ch "!" :: text)
      with (ws ++ [ch "-"; sp; ch "!"] ++ text).
    rewrite app_assoc. apply slice_after. rewrite length_app. reflexivity.
Qed.


Lemma ends_unblank_snoc t c : ends_unblank (t ++ [c]) = non (ch " ") c.
Proof. unfold ends_unblank. rewrite last_snoc. reflexivity. Qed.

Lemma ends_unblank_inv t :
  ends_unblank t = true -> exists t0 c, t = t0 ++ [c] /\ non (ch " ") c = true.
Proof.
  unfold ends_unblank. destruct (last t) as [c|] eqn:Hl; [|discriminate].
  apply last_Some in Hl as (t0 & ->). intros H. exists t0, c. auto.
Qed.

Lemma get_wrong_answer_shape s text :
  lacks nl s = true ->
  get_wrong_answer s = Some text <->
  exists ws sp, blank ws = true /\ space sp = true /\
    s = ws ++ ch "-" :: sp :: text /\ ends_unblank text = true.
Proof.
  intros Hs. split.
  - unfold get_wrong_answer, Re.match_, WRONG_ANSWER_PATTERN.
    destruct (exec _ 0 s) as [[ms e]|] eqn:H; [|discriminate].
    rewrite exec_Bol, exec_Open, exec_star in H.
    apply mark_inv in H as (ms1 & -> & H).
    apply star_inv in H as (ws & b & -> & Hws & H).
    rewrite exec_Close in H. apply mark_inv in H as (ms2 & -> & H).
    apply exec_lit_inv in H as (b1 & -> & H).
    rewrite exec_Open in H. apply mark_inv in H as (ms3 & -> & H).
    apply exec_one_inv in H as (sp & r & -> & Hsp & H).
    rewrite exec_Close in H. apply mark_inv in H as (ms4 & -> & H).
    rewrite exec_Open, exec_star in H. apply mark_inv in H as (ms5 & -> & H).
    apply star_inv in H as (t0 & b3 & -> & Ht0 & H).
    apply exec_one_inv in H as (c & b4 & -> & Hc & H).
    apply lacks_app_inv in Hs as [_ Hb]. do 2 apply lacks_tail in Hb.
    apply lacks_app_inv in Hb as [_ Hb]. apply lacks_tail in Hb.
    apply exec_close_eol_inv in H as (-> & -> & ->); [|exact Hb].
    rewrite group_3.
    replace (ws ++ ch "-" :: sp :: t0 ++ [c])
      with ((ws ++ [ch "-"; sp]) ++ (t0 ++ [c]))
      by (rewrite <- app_assoc; reflexivity).
    replace (S (S (S (0 + length ws)) + length t0))
      with (S (S (0 + length ws)) + length (t0 ++ [c]))
      by (rewrite length_app; simpl; lia).
    rewrite slice_after by (rewrite length_app; simpl; lia).
    intros [= <-]. exists ws, sp. repeat split; try assumption.
    + rewrite <- app_assoc. reflexivity.
    + rewrite ends_unblank_snoc. exact Hc.
  - intros (ws & sp & Hws & Hsp & -> & (t0 & c & -> & Hc)%ends_unblank_inv).
    apply lacks_app_inv in Hs as [_ Ht]. do 2 apply lacks_tail in Ht.
    apply lacks_app_inv in Ht as [Ht _].
    unfold get_wrong_answer, Re.match_.
    rewrite (exec_wrong_answer ws sp t0 c Hws Hsp Ht Hc).
    f_equal. rewrite group_3.
    change (ws ++ ch "-" :: sp :: t0 ++ [c])
      with (ws ++ [ch "-"; sp] ++ (t0 ++ [c])).
    rewrite app_assoc.
    replace (length ws + 3 + length t0)
      with (length ws + 2 + length (t0 ++ [c]))
      by (rewrite length_app; simpl; lia).
    apply slice_after. rewrite length_app. reflexivity.
Qed.


Lemma is_empty_line_blank s :
  lacks nl s = true -> is_empty_line s = true -> blank s = true.
Proof.
  intros Hs. unfold is_empty_line, Re.match_, EMPTY_LINE_PATTERN.
  destruct (exec _ 0 s) as [[ms e]|] eqn:H; [intros _|discriminate].
  rewrite exec_Bol, exec_star in H.
  apply star_inv in H as (a & b & -> & Ha & H).
  apply lacks_app_inv in Hs as [_ Hb].
  simpl in H. destruct (at_eol b) eqn:He; [|discriminate].
  rewrite (at_eol_lacks b Hb He), app_nil_r. exact Ha.
Qed.

Lemma blank_app a b : blank (a ++ b) = blank a && blank b.
Proof. apply forallb_app. Qed.

Lemma lead_skip ws c r :
  blank ws = true -> space c = false -> lead (ws ++ c :: r) = Some c.
Proof.
  induction ws as [|x ws IH]; simpl; intros Hws Hc.
  - rewrite Hc. reflexivity.
  - apply andb_prop in Hws as [-> Hws]. auto.
Qed.

Lemma parse_row_blank_ended_answer ps q ws sp text :
  dicts (heap ps) !! current_question ps = Some q ->
  blank ws = true -> space sp = true ->
  lacks nl (ws ++ ch "-" :: sp :: text) = true ->
  unmarked text = true -> ends_unblank text = false ->
  parse_row ps (ws ++ ch "-" :: sp :: text) =
  Ok (set_text ps q (match q_text q with Some t => t | None => [] end ++
                     (ws ++ ch "-" :: sp :: text) ++ [nl])).
Proof.
  intros Hq Hws Hsp Hrow Hun Hend.
  set (row := ws ++ ch "-" :: sp :: text) in *.
  assert (Hlead : lead row = Some (ch "-")) by (apply lead_skip; [assumption|reflexivity]).
  assert (Hhd : get_header row = None).
  { destruct (get_header row) eqn:E; [|reflexivity].
    apply get_header_lead in E. rewrite Hlead in E. discriminate. }
  assert (Hqu : get_question row = None).
  { destruct (get_question row) eqn:E; [|reflexivity].
    apply get_question_lead in E. rewrite Hlead in E. discriminate. }
  assert (Hca : get_correct_answer row = None).
  { destruct (get_correct_answer row) as [t|] eqn:E; [|reflexivity].
    apply (get_correct_answer_shape row t Hrow) in E as (ws' & sp' & Hws' & Hsp' & E).
    subst row.
    apply blank_prefix_unique in E as (_ & _ & E); try assumption; try reflexivity.
    injection E as _ ->. discriminate. }
  assert (Hwa : get_wrong_answer row = None).
  { destruct (get_wrong_answer row) as [t|] eqn:E; [|reflexivity].
    apply (get_wrong_answer_shape row t Hrow) in E as (ws' & sp' & Hws' & Hsp' & E & Hend').
    subst row.
    apply blank_prefix_unique in E as (_ & _ & E); try assumption; try reflexivity.
    injection E as _ ->. congruence. }
  assert (He : is_empty_line row = false).
  { destruct (is_empty_line row) eqn:E; [|reflexivity].
    apply (is_empty_line_blank row Hrow) in E. subst row.
    rewrite blank_app in E. apply andb_prop in E as [_ E]. discriminate. }
  unfold parse_row. rewrite Hhd, Hqu, Hca, Hwa, Hq, He. reflexivity.
Qed.


(** ** Splitting and stripping rows *)

Lemma split_lacks r : lacks nl r = true -> Str.split r nl = [r].
Proof.
  induction r as [|c r IH]; simpl; [reflexivity|].
  intros [Hc Hr]%andb_prop. unfold non in Hc.
  destruct (char_eqb c nl); [discriminate|]. rewrite (IH Hr). reflexivity.
Qed.

Lemma split_app r s :
  lacks nl r = true -> Str.split (r ++ nl :: s) nl = r :: Str.split s nl.
Proof.
  induction r as [|c r IH]; simpl.
  - intros _. reflexivity.
  - intros [Hc Hr]%andb_prop. unfold non in Hc.
    destruct (char_eqb c nl); [discriminate|]. rewrite (IH Hr). reflexivity.
Qed.

Lemma split_join_lines rows :
  rows <> [] -> forallb (lacks nl) rows = true ->
  Str.split (join_lines rows) nl = rows.
Proof.
  induction rows as [|r rows IH]; [congruence|]. intros _ [Hr Hrows]%andb_prop.
  destruct rows as [|r' rows].
  - apply split_lacks, Hr.
  - change (join_lines (r :: r' :: rows)) with (r ++ nl :: join_lines (r' :: rows)).
    rewrite split_app by assumption. rewrite IH; [reflexivity|discriminate|assumption].
Qed.

Lemma rstrip_id s c :
  match last s with Some x => char_eqb x c | None => false end = false ->
  Str.rstrip s c = s.
Proof.
  induction s as [|x s IH]; [reflexivity|].
  destruct s as [|y s].
  - simpl. intros ->. reflexivity.
  - rewrite last_cons_cons. intros H. specialize (IH H).
    change (Str.rstrip (x :: y :: s) c)
      with (match Str.rstrip (y :: s) c with
            | [] => if char_eqb x c then [] else [x]
            | r => x :: r
            end).
    rewrite IH. reflexivity.
Qed.

Lemma lacks_last a s x : lacks a s = true -> last s = Some x -> char_eqb x a = false.
Proof.
  intros Hs (s' & ->)%last_Some. apply lacks_app_inv in Hs as [_ Hx].
  simpl in Hx. unfold non in Hx. destruct (char_eqb x a); [discriminate|reflexivity].
Qed.

(** A row that holds no line feed and does not end in a carriage return
    is its own stripped form. *)
Lemma strip_row_id s :
  lacks nl s = true ->
  match last s with Some x => char_eqb x cr | None => false end = false ->
  strip_row s = s.
Proof.
  intros Hnl Hcr. unfold strip_row. rewrite (rstrip_id s cr Hcr).
  apply rstrip_id. destruct (last s) as [x|] eqn:Hl; [|reflexivity].
  eapply lacks_last; eassumption.
Qed.

Lemma row_text_inv t :
  row_text t = true ->
  lacks nl t = true /\
  match last t with Some x => char_eqb x cr | None => false end = false.
Proof.
  unfold row_text. intros [H1 H2]%andb_prop. split; [assumption|].
  apply negb_true_iff in H2. exact H2.
Qed.

(** A prefix that is not empty and ends in neither character, then a text
    fit for a row. *)
Lemma strip_row_prefixed p c t :
  lacks nl (p ++ [c]) = true -> char_eqb c cr = false -> row_text t = true ->
  strip_row ((p ++ [c]) ++ t) = (p ++ [c]) ++ t /\ lacks nl ((p ++ [c]) ++ t) = true.
Proof.
  intros Hp Hc (Hnl & Hcr)%row_text_inv.
  assert (Hl : lacks nl ((p ++ [c]) ++ t) = true) by (rewrite lacks_app, Hp, Hnl; reflexivity).
  split; [|assumption]. apply strip_row_id; [assumption|].
  rewrite last_app. destruct (last t) as [x|]; [assumption|].
  rewrite last_snoc. assumption.
Qed.

Lemma strip_header_row c :
  row_text c = true ->
  strip_row (header_row c) = header_row c /\ lacks nl (header_row c) = true.
Proof. apply (strip_row_prefixed [ch "#"] (ch " ")); reflexivity. Qed.

Lemma strip_question_row t :
  row_text t = true ->
  strip_row (question_row t) = question_row t /\ lacks nl (question_row t) = true.
Proof. apply (strip_row_prefixed [ch "*"] (ch " ")); reflexivity. Qed.

Lemma strip_correct_row t :
  row_text t = true ->
  strip_row (correct_row t) = correct_row t /\ lacks nl (correct_row t) = true.
Proof. apply (strip_row_prefixed [ch "-"; ch " "] (ch "!")); reflexivity. Qed.

Lemma strip_wrong_row t :
  row_text t = true ->
  strip_row (wrong_row t) = wrong_row t /\ lacks nl (wrong_row t) = true.
Proof. apply (strip_row_prefixed [ch "-"] (ch " ")); reflexivity. Qed.

(** ** The parser on a quiz written in the dialect *)

Lemma all_questions_snoc z s : all_questions (z ++ [s]) = all_questions z ++ snd s.
Proof.
  unfold all_questions. rewrite map_app, concat_app. simpl.
  rewrite app_nil_r. reflexivity.
Qed.

Lemma counts_snoc z s : counts (z ++ [s]) = counts z ++ [length (snd s)].
Proof. unfold counts. rewrite map_app. reflexivity. Qed.

Lemma layout_length cs : forall base, length (layout base cs) = length cs.
Proof. induction cs as [|n cs IH]; intros base; simpl; [reflexivity|]. rewrite IH. reflexivity. Qed.

Lemma layout_snoc z s : forall base,
  layout base (counts (z ++ [s])) =
  layout base (counts z) ++ [seq (base + length (all_questions z)) (length (snd s))].
Proof.
  induction z as [|s0 z IH]; intros base; simpl.
  - rewrite Nat.add_0_r. reflexivity.
  - rewrite IH. unfold all_questions at 2. simpl. rewrite length_app.
    fold (all_questions z). rewrite Nat.add_assoc. reflexivity.
Qed.

Lemma bindings_snoc z s : forall a,
  bindings a (z ++ [s]) = bindings a z ++ [(fst s, a + length z)].
Proof.
  induction z as [|s0 z IH]; intros a; simpl.
  - rewrite Nat.add_0_r. reflexivity.
  - rewrite IH. rewrite Nat.add_succ_comm. reflexivity.
Qed.

Lemma keys_bindings z : forall a, keys (bindings a z) = map fst z.
Proof.
  unfold keys. induction z as [|s z IH]; intros a; simpl; [reflexivity|].
  f_equal. apply IH.
Qed.

Lemma dict_get_None {V} (d : list (str * V)) k :
  k ∉ keys d -> dict_get d k = None.
Proof.
  intros H. destruct (dict_get d k) eqn:E; [|reflexivity].
  apply dict_get_keys in E. contradiction.
Qed.

Lemma dict_set_fresh {V} (d : list (str * V)) k v :
  dict_get d k = None -> dict_set d k v = d ++ [(k, v)].
Proof.
  induction d as [|[k' v'] d IH]; simpl; [reflexivity|].
  destruct (str_eqb k' k); [discriminate|]. intros H. rewrite (IH H). reflexivity.
Qed.

Lemma state_of_nil : state_of [] = initial.
Proof. reflexivity. Qed.

(** A header with a new caption opens an empty section. *)
Lemma parse_row_header_state z r c :
  get_header r = Some c -> c ∉ map fst z ->
  parse_row (state_of z) r = Ok (state_of (z ++ [(c, [])])).
Proof.
  intros Hr Hc. unfold parse_row. rewrite Hr. unfold state_of. simpl.
  rewrite layout_length, all_questions_snoc, app_nil_r, length_app.
  rewrite layout_snoc, bindings_snoc. simpl.
  rewrite dict_set_fresh by (apply dict_get_None; rewrite keys_bindings; exact Hc).
  unfold counts. rewrite length_map.
  repeat f_equal; lia.
Qed.

Lemma lookup_cons_snoc {A} (x0 : A) l x n :
  n = S (length l) -> (x0 :: l ++ [x]) !! n = Some x.
Proof. intros ->. simpl. apply list_lookup_middle. reflexivity. Qed.

Lemma insert_cons_snoc {A} (x0 : A) l x y n :
  n = S (length l) -> <[n := y]> (x0 :: l ++ [x]) = x0 :: l ++ [y].
Proof.
  intros ->. simpl. f_equal.
  replace (length l) with (length l + 0) by lia.
  rewrite insert_app_r. reflexivity.
Qed.

Lemma pstate_eq d l ds s c d' l' ds' s' c' :
  d = d' -> l = l' -> ds = ds' -> s = s' -> c = c' ->
  Ok (PState (Store d l ds) s c) = Ok (PState (Store d' l' ds') s' c').
Proof. intros -> -> -> -> ->. reflexivity. Qed.

Lemma length_layout_counts z base : length (layout base (counts z)) = length z.
Proof. rewrite layout_length. unfold counts. apply length_map. Qed.

(** A question row adds a question to the last section. *)
Lemma parse_row_question_state z c qs r t :
  get_question r = Some t ->
  parse_row (state_of (z ++ [(c, qs)])) r = Ok (state_of (z ++ [(c, qs ++ [(t, [])])])).
Proof.
  intros Hr. unfold parse_row. rewrite (question_not_header _ _ Hr), Hr.
  unfold state_of. cbn [heap lists dicts dictionary section current_question].
  rewrite !all_questions_snoc, !layout_snoc, !bindings_snoc.
  cbn [fst snd].
  assert (Hn : length (z ++ [(c, qs)]) = S (length (layout 1 (counts z))))
    by (rewrite length_layout_counts, length_app; simpl; lia).
  rewrite (lookup_cons_snoc _ _ _ _ Hn), (insert_cons_snoc _ _ _ _ _ Hn).
  apply pstate_eq.
  - reflexivity.
  - do 3 f_equal. rewrite length_app, seq_app. simpl. f_equal. f_equal.
    rewrite length_map, length_app. lia.
  - rewrite !map_app. simpl. rewrite <- !app_assoc. reflexivity.
  - rewrite !length_app. reflexivity.
  - simpl. rewrite length_map, !length_app. simpl. lia.
Qed.

(** An answer row adds an answer to the last question. *)
Lemma append_answer_state z c qs t ans a :
  append_answer (state_of (z ++ [(c, qs ++ [(t, ans)])])) (parsed_answer a) =
  Ok (state_of (z ++ [(c, qs ++ [(t, ans ++ [a])])])).
Proof.
  unfold append_answer, state_of.
  cbn [heap lists dicts dictionary section current_question].
  rewrite !all_questions_snoc, !layout_snoc, !bindings_snoc.
  cbn [fst snd].
  rewrite !app_assoc, !map_app. cbn [map].
  assert (Hn : length ((all_questions z ++ qs) ++ [(t, ans)]) =
               S (length (map parsed_question (all_questions z ++ qs)))).
  { rewrite length_app, length_map. simpl. lia. }
  rewrite <- !map_app.
  rewrite (lookup_cons_snoc _ _ _ _ Hn). cbn [q_answers parsed_question fst snd].
  rewrite (insert_cons_snoc _ _ _ _ _ Hn).
  apply pstate_eq; unfold parsed_question; cbn [map fst snd q_text q_single];
    rewrite ?map_app, ?length_app; reflexivity.
Qed.

Lemma parse_row_correct_state z c qs t ans r x :
  get_header r = None -> get_question r = None -> get_correct_answer r = Some x ->
  parse_row (state_of (z ++ [(c, qs ++ [(t, ans)])])) r =
  Ok (state_of (z ++ [(c, qs ++ [(t, ans ++ [(x, true)])])])).
Proof.
  intros Hh Hq Hc. unfold parse_row. rewrite Hh, Hq, Hc.
  apply (append_answer_state z c qs t ans (x, true)).
Qed.

Lemma parse_row_wrong_state z c qs t ans r x :
  get_header r = None -> get_question r = None -> get_correct_answer r = None ->
  get_wrong_answer r = Some x ->
  parse_row (state_of (z ++ [(c, qs ++ [(t, ans)])])) r =
  Ok (state_of (z ++ [(c, qs ++ [(t, ans ++ [(x, false)])])])).
Proof.
  intros Hh Hq Hc Hw. unfold parse_row. rewrite Hh, Hq, Hc, Hw.
  apply (append_answer_state z c qs t ans (x, false)).
Qed.

(** How the rows of the dialect are classified. *)
Lemma classify_header_row c :
  row_text c = true -> get_header (strip_row (header_row c)) = Some c.
Proof.
  intros Hc. destruct (strip_header_row c Hc) as [-> Hl].
  apply (get_header_shape _ c Hl). exists []. auto.
Qed.

Lemma classify_question_row t :
  row_text t = true -> get_question (strip_row (question_row t)) = Some t.
Proof.
  intros Ht. destruct (strip_question_row t Ht) as [-> Hl].
  apply (get_question_shape _ t Hl). exists [], (ch " "). auto.
Qed.

Lemma lead_none_header s c : lead s = Some c -> c <> ch "#" -> get_header s = None.
Proof.
  intros Hl Hc. destruct (get_header s) eqn:E; [|reflexivity].
  apply get_header_lead in E. congruence.
Qed.

Lemma lead_none_question s c : lead s = Some c -> c <> ch "*" -> get_question s = None.
Proof.
  intros Hl Hc. destruct (get_question s) eqn:E; [|reflexivity].
  apply get_question_lead in E. congruence.
Qed.

Lemma classify_correct_row x :
  row_text x = true ->
  get_header (strip_row (correct_row x)) = None /\
  get_question (strip_row (correct_row x)) = None /\
  get_correct_answer (strip_row (correct_row x)) = Some x.
Proof.
  intros Hx. destruct (strip_correct_row x Hx) as [-> Hl].
  split; [|split].
  - apply (lead_none_header _ (ch "-")); [reflexivity|discriminate].
  - apply (lead_none_question _ (ch "-")); [reflexivity|discriminate].
  - apply (get_correct_answer_shape _ x Hl). exists [], (ch " "). auto.
Qed.

Lemma classify_wrong_row x :
  row_text x = true -> wrong_text x = true ->
  get_header (strip_row (wrong_row x)) = None /\
  get_question (strip_row (wrong_row x)) = None /\
  get_correct_answer (strip_row (wrong_row x)) = None /\
  get_wrong_answer (strip_row (wrong_row x)) = Some x.
Proof.
  intros Hx [He Hu]%andb_prop. destruct (strip_wrong_row x Hx) as [-> Hl].
  split; [|split; [|split]].
  - apply (lead_none_header _ (ch "-")); [reflexivity|discriminate].
  - apply (lead_none_question _ (ch "-")); [reflexivity|discriminate].
  - destruct (get_correct_answer (wrong_row x)) as [t|] eqn:E; [|reflexivity].
    apply (get_correct_answer_shape _ t Hl) in E as (ws & sp & Hws & Hsp & E).
    change (wrong_row x) with ([] ++ ch "-" :: ch " " :: x) in E.
    apply blank_prefix_unique in E as (_ & _ & E); try assumption; try reflexivity.
    injection E as _ ->. discriminate.
  - apply (get_wrong_answer_shape _ x Hl). exists [], (ch " "). auto.
Qed.

Lemma valid_answer_inv x b :
  valid_answer (x, b) = true ->
  row_text x = true /\ (b = true \/ (b = false /\ wrong_text x = true)).
Proof.
  unfold valid_answer. cbn [fst snd]. intros [Hx Hb]%andb_prop.
  split; [assumption|]. destruct b; auto.
Qed.

Lemma parse_rows_answers z c qs t : forall ans' ans,
  forallb valid_answer ans' = true ->
  parse_rows (state_of (z ++ [(c, qs ++ [(t, ans)])])) (map answer_row ans') =
  Ok (state_of (z ++ [(c, qs ++ [(t, ans ++ ans')])])).
Proof.
  induction ans' as [|[x b] ans' IH]; intros ans Hv.
  - rewrite app_nil_r. reflexivity.
  - cbn [forallb] in Hv. apply andb_prop in Hv as [Ha Hv].
    apply valid_answer_inv in Ha as [Hx [->|[-> Hw]]];
      cbn [map parse_rows]; unfold answer_row; cbn [fst snd].
    + destruct (classify_correct_row x Hx) as (Hh & Hq & Hc).
      rewrite (parse_row_correct_state z c qs t ans _ x Hh Hq Hc).
      cbn [bind]. rewrite (IH _ Hv), <- app_assoc. reflexivity.
    + destruct (classify_wrong_row x Hx Hw) as (Hh & Hq & Hc & Hwr).
      rewrite (parse_row_wrong_state z c qs t ans _ x Hh Hq Hc Hwr).
      cbn [bind]. rewrite (IH _ Hv), <- app_assoc. reflexivity.
Qed.

Lemma parse_rows_questions z c : forall qs' qs,
  forallb valid_question qs' = true ->
  parse_rows (state_of (z ++ [(c, qs)])) (concat (map question_rows qs')) =
  Ok (state_of (z ++ [(c, qs ++ qs')])).
Proof.
  induction qs' as [|[t ans] qs' IH]; intros qs Hv.
  - rewrite app_nil_r. reflexivity.
  - cbn [forallb] in Hv. apply andb_prop in Hv as [Hq Hv].
    unfold valid_question in Hq. cbn [fst snd] in Hq.
    apply andb_prop in Hq as [Ht Hans].
    cbn [map concat]. unfold question_rows at 1. cbn [fst snd].
    change ((question_row t :: map answer_row ans) ++ concat (map question_rows qs'))
      with (question_row t :: (map answer_row ans ++ concat (map question_rows qs'))).
    cbn [parse_rows].
    rewrite (parse_row_question_state z c qs _ t (classify_question_row t Ht)).
    cbn [bind]. rewrite parse_rows_app.
    rewrite (parse_rows_answers z c qs t ans [] Hans). cbn [bind app].
    rewrite (IH _ Hv), <- app_assoc. reflexivity.
Qed.

Lemma parse_rows_sections : forall z' z,
  forallb valid_section z' = true -> NoDup (map fst (z ++ z')) ->
  parse_rows (state_of z) (quiz_rows z') = Ok (state_of (z ++ z')).
Proof.
  induction z' as [|[c qs] z' IH]; intros z Hv Hnd.
  - rewrite app_nil_r. reflexivity.
  - cbn [forallb] in Hv. apply andb_prop in Hv as [Hs Hv].
    unfold valid_section in Hs. cbn [fst snd] in Hs.
    apply andb_prop in Hs as [Hc Hqs].
    unfold quiz_rows. cbn [map concat]. unfold section_rows at 1. cbn [fst snd].
    change ((header_row c :: concat (map question_rows qs)) ++ concat (map section_rows z'))
      with (header_row c :: (concat (map question_rows qs) ++ quiz_rows z')).
    cbn [parse_rows].
    rewrite (parse_row_header_state z _ c (classify_header_row c Hc)).
    2:{ rewrite map_app in Hnd. apply NoDup_app in Hnd as (_ & Hnd & _).
        intros Hin. apply (Hnd c Hin). apply list_elem_of_here. }
    cbn [bind]. rewrite parse_rows_app.
    rewrite (parse_rows_questions z c qs [] Hqs). cbn [bind app].
    rewrite (IH (z ++ [(c, qs)]) Hv); rewrite <- app_assoc; [reflexivity|exact Hnd].
Qed.

(** ** The scoring pass on a parsed quiz *)

Lemma complete_parsed_question q :
  complete_question (parsed_question q) = Ok (scored_question q).
Proof. apply (complete_question_eq (parsed_question q) _ eq_refl). Qed.

Lemma complete_section_run post : forall qs pre,
  complete_section (pre ++ map parsed_question qs ++ post)
                   (seq (length pre) (length qs)) =
  Ok (pre ++ map scored_question qs ++ post).
Proof.
  induction qs as [|q qs IH]; intros pre; [reflexivity|].
  cbn [map length seq complete_section app].
  rewrite list_lookup_middle by reflexivity.
  rewrite complete_parsed_question. cbn [bind].
  rewrite <- (Nat.add_0_r (length pre)) at 1. rewrite insert_app_r. cbn [insert list_insert].
  change (pre ++ scored_question q :: map parsed_question qs ++ post)
    with (pre ++ [scored_question q] ++ map parsed_question qs ++ post).
  rewrite app_assoc.
  replace (S (length pre)) with (length (pre ++ [scored_question q]))
    by (rewrite length_app; simpl; lia).
  rewrite IH, <- app_assoc. reflexivity.
Qed.

Lemma str_eqb_refl a : str_eqb a a = true.
Proof. apply str_eqb_eq. reflexivity. Qed.

Lemma all_questions_app_cons done s todo :
  all_questions (done ++ s :: todo) =
  all_questions done ++ snd s ++ all_questions todo.
Proof. unfold all_questions. rewrite map_app, concat_app. reflexivity. Qed.

Lemma dict_get_bindings s todo : forall done a,
  fst s ∉ map fst done ->
  dict_get (bindings a (done ++ s :: todo)) (fst s) = Some (a + length done).
Proof.
  induction done as [|s' done IH]; intros a Hs.
  - cbn [app bindings dict_get length]. rewrite str_eqb_refl, Nat.add_0_r. reflexivity.
  - cbn [app bindings dict_get length map] in *.
    apply not_elem_of_cons in Hs as [Hne Hs].
    destruct (str_eqb (fst s') (fst s)) eqn:E.
    + apply str_eqb_eq in E. congruence.
    + rewrite (IH (S a) Hs). f_equal. lia.
Qed.

Lemma lookup_layout s todo : forall done base,
  layout base (counts (done ++ s :: todo)) !! length done =
  Some (seq (base + length (all_questions done)) (length (snd s))).
Proof.
  induction done as [|s' done IH]; intros base.
  - cbn. rewrite Nat.add_0_r. reflexivity.
  - cbn [app counts map layout length lookup].
    change (map (fun s0 : raw_section => length (snd s0)) (done ++ s :: todo))
      with (counts (done ++ s :: todo)).
    change (layout (base + length (snd s')) (counts (done ++ s :: todo)) !! length done =
            Some (seq (base + length (all_questions (s' :: done))) (length (snd s)))).
    rewrite IH. unfold all_questions. cbn [map concat].
    rewrite length_app. do 2 f_equal. lia.
Qed.

Lemma complete_keys_run : forall todo done,
  NoDup (map fst (done ++ todo)) ->
  complete_keys (bindings 1 (done ++ todo)) ([] :: layout 1 (counts (done ++ todo)))
                (Question None None None ::
                 map scored_question (all_questions done) ++
                 map parsed_question (all_questions todo))
                (map fst todo) =
  Ok (Question None None None :: map scored_question (all_questions (done ++ todo))).
Proof.
  induction todo as [|s todo IH]; intros done Hnd.
  - rewrite !app_nil_r. reflexivity.
  - cbn [map complete_keys].
    rewrite dict_get_bindings.
    2:{ rewrite map_app in Hnd. apply NoDup_app in Hnd as (_ & Hnd & _).
        intros Hin. apply (Hnd _ Hin). apply list_elem_of_here. }
    change (([] :: layout 1 (counts (done ++ s :: todo))) !! (1 + length done))
      with (layout 1 (counts (done ++ s :: todo)) !! length done).
    rewrite lookup_layout.
    unfold all_questions at 2. cbn [map concat]. rewrite map_app.
    fold (all_questions todo).
    pose proof (complete_section_run
                  (map parsed_question (all_questions todo)) (snd s)
                  (Question None None None :: map scored_question (all_questions done)))
      as Hrun.
    cbn [length] in Hrun. rewrite length_map in Hrun.
    change (1 + length (all_questions done)) with (S (length (all_questions done))).
    change (Question None None None ::
            map scored_question (all_questions done) ++
            map parsed_question (snd s) ++ map parsed_question (all_questions todo))
      with ((Question None None None :: map scored_question (all_questions done)) ++
            map parsed_question (snd s) ++ map parsed_question (all_questions todo)).
    rewrite Hrun. cbn [bind].
    specialize (IH (done ++ [s])). rewrite <- app_assoc in IH. cbn [app] in IH.
    rewrite all_questions_snoc, (map_app scored_question), <- app_assoc in IH.
    apply IH, Hnd.
Qed.

(** The scoring pass on the store of a parsed quiz. *)
Lemma completing_dictionary_state_of z :
  NoDup (map fst z) ->
  completing_dictionary (heap (state_of z)) = Ok (scored_store z).
Proof.
  intros Hnd. unfold completing_dictionary, state_of, scored_store.
  cbn [heap dictionary lists dicts]. rewrite keys_bindings.
  pose proof (complete_keys_run z [] Hnd) as H. cbn [app map all_questions concat] in H.
  change (concat (map snd z)) with (all_questions z) in H.
  rewrite H. reflexivity.
Qed.

Lemma omap_lookup_run {A} (l post : list A) : forall pre,
  omap (fun i => (pre ++ l ++ post) !! i) (seq (length pre) (length l)) = l.
Proof.
  induction l as [|x l IH]; intros pre; [reflexivity|].
  cbn [length seq app].
  change (omap (fun i => (pre ++ x :: l ++ post) !! i)
               (length pre :: seq (S (length pre)) (length l)))
    with (match (pre ++ x :: l ++ post) !! length pre with
          | Some y => y :: omap (fun i => (pre ++ x :: l ++ post) !! i)
                                (seq (S (length pre)) (length l))
          | None => omap (fun i => (pre ++ x :: l ++ post) !! i)
                         (seq (S (length pre)) (length l))
          end).
  rewrite list_lookup_middle by reflexivity.
  f_equal.
  change (pre ++ x :: l ++ post) with (pre ++ [x] ++ l ++ post).
  rewrite app_assoc.
  replace (S (length pre)) with (length (pre ++ [x]))
    by (rewrite length_app; simpl; lia).
  apply IH.
Qed.

Lemma section_view_scored s todo done :
  section_view (scored_store (done ++ s :: todo)) (1 + length done) =
  map scored_question (snd s).
Proof.
  unfold section_view, scored_store. cbn [lists dicts].
  change (([] :: layout 1 (counts (done ++ s :: todo))) !! (1 + length done))
    with (layout 1 (counts (done ++ s :: todo)) !! length done).
  rewrite lookup_layout. cbn [default].
  rewrite all_questions_app_cons, !map_app.
  pose proof (omap_lookup_run (map scored_question (snd s))
                (map scored_question (all_questions todo))
                (Question None None None :: map scored_question (all_questions done)))
    as H.
  cbn [length] in H. rewrite !length_map in H. exact H.
Qed.

Lemma document_bindings st f : forall (todo : list raw_section) a,
  (forall i s, todo !! i = Some s -> section_view st (a + i) = f s) ->
  map (fun '(k, b) => (k, section_view st b)) (bindings a todo) =
  map (fun s => (fst s, f s)) todo.
Proof.
  induction todo as [|s todo IH]; intros a H; [reflexivity|].
  cbn [bindings map]. f_equal.
  - f_equal. rewrite <- (H 0 s eq_refl). f_equal. lia.
  - apply IH. intros i s' Hi. rewrite <- (H (S i) s' Hi). f_equal. lia.
Qed.

(** The scored store of a quiz, as a document. *)
Lemma document_scored_store z :
  document (scored_store z) =
  map (fun s => (fst s, map scored_question (snd s))) z.
Proof.
  unfold document. change (dictionary (scored_store z)) with (bindings 1 z).
  apply document_bindings. intros i s Hi.
  destruct (list_elem_of_split_length z i s Hi) as (done & todo & -> & ->).
  apply section_view_scored.
Qed.

Lemma distinct_NoDup l : distinct l = true -> NoDup l.
Proof.
  induction l as [|k l IH]; [constructor|].
  cbn [distinct]. intros [Hk Hl]%andb_prop. constructor; [|apply IH, Hl].
  intros Hin. apply negb_true_iff in Hk.
  assert (existsb (str_eqb k) l = true); [|congruence].
  apply existsb_exists. exists k. split; [|apply str_eqb_refl].
  apply list_elem_of_In, Hin.
Qed.

Lemma answer_row_lacks a : valid_answer a = true -> lacks nl (answer_row a) = true.
Proof.
  destruct a as [x b]. intros [Hx _]%valid_answer_inv. unfold answer_row. cbn [fst snd].
  destruct b; [apply strip_correct_row|apply strip_wrong_row]; exact Hx.
Qed.

Lemma question_rows_lacks q :
  valid_question q = true -> forallb (lacks nl) (question_rows q) = true.
Proof.
  unfold valid_question, question_rows. intros [Ht Hans]%andb_prop.
  cbn [forallb]. rewrite (proj2 (strip_question_row _ Ht)). cbn [andb].
  induction (snd q) as [|a ans IH]; [reflexivity|].
  cbn [forallb map] in *. apply andb_prop in Hans as [Ha Hans].
  rewrite (answer_row_lacks a Ha), (IH Hans). reflexivity.
Qed.

Lemma section_rows_lacks s :
  valid_section s = true -> forallb (lacks nl) (section_rows s) = true.
Proof.
  unfold valid_section, section_rows. intros [Hc Hqs]%andb_prop.
  cbn [forallb]. rewrite (proj2 (strip_header_row _ Hc)). cbn [andb].
  induction (snd s) as [|q qs IH]; [reflexivity|].
  cbn [forallb map concat] in *. apply andb_prop in Hqs as [Hq Hqs].
  rewrite forallb_app, (question_rows_lacks q Hq), (IH Hqs). reflexivity.
Qed.

Lemma quiz_rows_lacks z :
  forallb valid_section z = true -> forallb (lacks nl) (quiz_rows z) = true.
Proof.
  unfold quiz_rows. induction z as [|s z IH]; [reflexivity|].
  cbn [forallb map concat]. intros [Hs Hz]%andb_prop.
  rewrite forallb_app, (section_rows_lacks s Hs), (IH Hz). reflexivity.
Qed.

(** The rows of a quiz are read back as the quiz. *)
Lemma parse_quiz_rows z :
  valid_quiz z = true -> parse_rows initial (quiz_rows z) = Ok (state_of z).
Proof.
  intros [Hv Hd]%andb_prop. rewrite <- state_of_nil.
  apply (parse_rows_sections z [] Hv). apply distinct_NoDup, Hd.
Qed.

Lemma md_script_quiz z :
  valid_quiz z = true ->
  md_script_to_dictionary (join_lines (quiz_rows z)) = Ok (scored_store z).
Proof.
  intros Hz. pose proof Hz as [Hv Hd]%andb_prop. destruct z as [|s z]; [reflexivity|].
  unfold md_script_to_dictionary, NEW_LINE.
  rewrite split_join_lines; [| |apply quiz_rows_lacks, Hv].
  2:{ unfold quiz_rows, section_rows. cbn [map concat app]. discriminate. }
  rewrite (parse_quiz_rows _ Hz). cbn [bind].
  apply completing_dictionary_state_of, distinct_NoDup, Hd.
Qed.

(** ** When the parser raises *)

Lemma has_question_set_text ps q text :
  dicts (heap ps) !! current_question ps = Some q -> q_answers q <> None ->
  has_question (set_text ps q text).
Proof.
  intros Hq Ha. destruct (q_answers q) as [answers|] eqn:E; [|congruence].
  exists (Question (Some text) (q_answers q) (q_single q)), answers.
  unfold set_text. cbn [heap dicts current_question q_answers].
  split; [|exact E]. apply list_lookup_insert_eq. eapply lookup_lt_Some, Hq.
Qed.

(** Once a question has started, no row raises. *)
Lemma parse_row_has_question ps r :
  wf ps -> has_question ps ->
  exists ps', parse_row ps r = Ok ps' /\ has_question ps'.
Proof.
  intros Hwf (q & answers & Hq & Ha).
  parse_row_cases r.
  - eexists. split; [reflexivity|]. exists q, answers. auto.
  - destruct (parse_row_question ps r text Hwf Hqu) as (l & Hl & _). rewrite Hl.
    eexists. split; [reflexivity|].
    exists (Question (Some text) (Some []) None), []. cbn [heap dicts current_question].
    split; [|reflexivity]. apply list_lookup_middle. reflexivity.
  - unfold append_answer. rewrite Hq, Ha. eexists. split; [reflexivity|].
    eexists _, _. cbn [heap dicts current_question].
    split; [apply list_lookup_insert_eq; eapply lookup_lt_Some, Hq|reflexivity].
  - unfold append_answer. rewrite Hq, Ha. eexists. split; [reflexivity|].
    eexists _, _. cbn [heap dicts current_question].
    split; [apply list_lookup_insert_eq; eapply lookup_lt_Some, Hq|reflexivity].
  - rewrite Hq. destruct (negb (is_empty_line r)).
    + eexists. split; [reflexivity|]. apply has_question_set_text; [assumption|congruence].
    + destruct (q_text q) as [t|]; [|exists ps; split; [reflexivity|exists q, answers; auto]].
      destruct (Str.find t (u "```") >? -1)%Z.
      * eexists. split; [reflexivity|].
        apply has_question_set_text; [assumption|congruence].
      * exists ps. split; [reflexivity|]. exists q, answers. auto.
Qed.

Lemma parse_rows_has_question rows : forall ps,
  wf ps -> has_question ps -> exists ps', parse_rows ps rows = Ok ps' /\ wf ps'.
Proof.
  induction rows as [|r rows IH]; intros ps Hwf Hq; cbn [parse_rows]; [eauto|].
  destruct (parse_row_has_question ps (strip_row r) Hwf Hq) as (ps1 & H1 & Hq1).
  rewrite H1. cbn [bind]. apply IH; [|assumption].
  eapply parse_row_wf_Ok; eassumption.
Qed.

Lemma parse_row_question_has ps r ps' :
  wf ps -> is_question r = true -> parse_row ps r = Ok ps' -> has_question ps'.
Proof.
  intros Hwf (text & Hqu)%is_question_true.
  destruct (parse_row_question ps r text Hwf Hqu) as (l & _ & ->). intros [= <-].
  exists (Question (Some text) (Some []) None), []. cbn [heap dicts current_question].
  split; [|reflexivity]. apply list_lookup_middle. reflexivity.
Qed.

(** The parser raises exactly when an answer row comes before every
    question row. *)
Lemma parse_rows_answer_first rows : forall ps,
  wf ps -> no_question ps ->
  if answer_first rows then parse_rows ps rows = Raise (KeyError (u "answers"))
  else exists ps', parse_rows ps rows = Ok ps' /\ wf ps'.
Proof.
  induction rows as [|r rows IH]; intros ps Hwf Hno; cbn [answer_first parse_rows];
    [eauto|].
  destruct (is_question (strip_row r)) eqn:Hqu.
  - destruct (is_question_true _ Hqu) as (text & Hget).
    destruct (parse_row_question ps _ text Hwf Hget) as (l & _ & Hrow).
    destruct (parse_row ps (strip_row r)) as [ps1|e] eqn:H1; [|discriminate].
    cbn [bind]. apply parse_rows_has_question.
    + eapply parse_row_wf_Ok; eassumption.
    + eapply parse_row_question_has; eassumption.
  - destruct (is_correct_answer (strip_row r) || is_wrong_answer (strip_row r)) eqn:Han.
    + rewrite (parse_row_answer_raises ps _ Hno Han). reflexivity.
    + apply orb_false_elim in Han as [Hc Hw].
      destruct (parse_row_no_question ps (strip_row r) Hno) as (ps1 & H1 & Hno1);
        auto using is_question_false, is_correct_answer_false, is_wrong_answer_false.
      rewrite H1. cbn [bind]. apply IH; [|assumption].
      eapply parse_row_wf_Ok; eassumption.
Qed.

Lemma md_script_answer_first md_script :
  if answer_first (Str.split md_script NEW_LINE)
  then md_script_to_dictionary md_script = Raise (KeyError (u "answers"))
  else exists st, md_script_to_dictionary md_script = Ok st.
Proof.
  pose proof (parse_rows_answer_first (Str.split md_script NEW_LINE) initial
                wf_initial no_question_initial) as H.
  unfold md_script_to_dictionary.
  destruct (answer_first (Str.split md_script NEW_LINE)).
  - rewrite H. reflexivity.
  - destruct H as (ps & -> & Hwf). cbn [bind]. apply completing_dictionary_total, Hwf.
Qed.

(** ** A script without a header *)

Lemma completing_dictionary_dictionary st st' :
  completing_dictionary st = Ok st' -> dictionary st' = dictionary st.
Proof.
  unfold completing_dictionary.
  destruct (complete_keys _ _ _ _); cbn [bind]; [|discriminate].
  intros [= <-]. reflexivity.
Qed.

Lemma md_script_no_header md_script st :
  Forall (fun r => is_header (strip_row r) = false) (Str.split md_script NEW_LINE) ->
  md_script_to_dictionary md_script = Ok st -> document st = [].
Proof.
  intros Hall (ps & Hps & _ & Hc)%md_script_to_dictionary_Ok.
  apply (parse_rows_no_header _ _ _ no_header_initial Hall) in Hps as [Hd _].
  unfold document. rewrite (completing_dictionary_dictionary _ _ Hc), Hd. reflexivity.
Qed.

(** ** Line endings *)

Lemma rstrip_snoc s c : Str.rstrip (s ++ [c]) c = Str.rstrip s c.
Proof.
  induction s as [|x s IH]; cbn [app Str.rstrip].
  - unfold char_eqb. rewrite N.eqb_refl. destruct (N.eqb c c); reflexivity.
  - rewrite IH. reflexivity.
Qed.

Lemma strip_row_cr r : strip_row (r ++ [cr]) = strip_row r.
Proof. unfold strip_row. rewrite rstrip_snoc. reflexivity. Qed.

Lemma parse_rows_cr rows : forall ps,
  parse_rows ps (map (fun r => r ++ [cr]) rows) = parse_rows ps rows.
Proof.
  induction rows as [|r rows IH]; intros ps; [reflexivity|].
  cbn [map parse_rows]. rewrite strip_row_cr.
  destruct (parse_row ps (strip_row r)); cbn [bind]; [apply IH|reflexivity].
Qed.

Lemma md_script_crlf rows :
  rows <> [] -> forallb (lacks nl) rows = true ->
  md_script_to_dictionary (join_lines (map (fun r => r ++ [cr]) rows)) =
  md_script_to_dictionary (join_lines rows).
Proof.
  intros Hne Hrows. unfold md_script_to_dictionary, NEW_LINE.
  rewrite !split_join_lines; try assumption.
  - rewrite parse_rows_cr. reflexivity.
  - destruct rows; [congruence|discriminate].
  - clear Hne. induction rows as [|r rows IH]; [reflexivity|].
    cbn [map forallb] in *. apply andb_prop in Hrows as [Hr Hrows].
    rewrite lacks_app, Hr, (IH Hrows). reflexivity.
Qed.

(** ** Escaping *)

Lemma replace_one_lacks a new :
  lacks a new = true -> forall s, lacks a (Str.replace s [a] new) = true.
Proof.
  intros Hnew. unfold Str.replace. induction s as [|c s IH]; [reflexivity|].
  cbn [Str.replace_aux Str.startswith length Nat.sub].
  destruct (char_eqb a c) eqn:E; cbn [andb].
  - rewrite lacks_app, Hnew, IH. reflexivity.
  - change (lacks a (c :: Str.replace_aux [a] new 0 s))
      with (non a c && lacks a (Str.replace_aux [a] new 0 s)).
    rewrite IH. unfold non, char_eqb in *. rewrite N.eqb_sym, E. reflexivity.
Qed.

Lemma sanitize_entities_lacks text :
  lacks (ch "<") (sanitize_entities text) = true /\
  lacks (ch ">") (sanitize_entities text) = true.
Proof.
  unfold sanitize_entities. split.
  - apply (replace_one_lacks (ch "<") (u "&lt;")). reflexivity.
  - apply lacks_replace; [reflexivity|].
    apply (replace_one_lacks (ch ">") (u "&gt;")). reflexivity.
Qed.

(** ** An answer after a header *)

Lemma bindings_captions : forall (z z' : list raw_section) a,
  map fst z = map fst z' -> bindings a z = bindings a z'.
Proof.
  induction z as [|s z IH]; intros [|s' z'] a; cbn [map bindings]; try discriminate;
    [reflexivity|].
  intros [= Hs Hz]. rewrite Hs, (IH z' (S a) Hz). reflexivity.
Qed.

(** An answer goes to the question that was read last, whatever the
    sections are. *)
Lemma append_answer_last z z' qs t ans a :
  all_questions z = qs ++ [(t, ans)] -> all_questions z' = qs ++ [(t, ans ++ [a])] ->
  map fst z = map fst z' -> counts z = counts z' ->
  append_answer (state_of z) (parsed_answer a) = Ok (state_of z').
Proof.
  intros Hz Hz' Hcap Hcounts. unfold append_answer, state_of.
  cbn [heap lists dicts dictionary section current_question].
  rewrite Hz, Hz', <- Hcounts, <- (bindings_captions z z' 1 Hcap).
  assert (Hlen : length z = length z').
  { rewrite <- (length_map fst z), Hcap. apply length_map. }
  rewrite <- Hlen, !map_app. cbn [map].
  assert (Hn : length (qs ++ [(t, ans)]) = S (length (map parsed_question qs))).
  { rewrite length_app, length_map. simpl. lia. }
  rewrite (lookup_cons_snoc _ _ _ _ Hn). cbn [q_answers parsed_question fst snd].
  rewrite (insert_cons_snoc _ _ _ _ _ Hn).
  apply pstate_eq; unfold parsed_question; cbn [map fst snd q_text q_single];
    rewrite ?map_app, ?length_app; reflexivity.
Qed.

Lemma parse_row_answer_last z z' qs t ans a :
  all_questions z = qs ++ [(t, ans)] -> all_questions z' = qs ++ [(t, ans ++ [a])] ->
  map fst z = map fst z' -> counts z = counts z' ->
  valid_answer a = true ->
  parse_row (state_of z) (strip_row (answer_row a)) = Ok (state_of z').
Proof.
  intros Hz Hz' Hcap Hcounts Ha. destruct a as [x b].
  apply valid_answer_inv in Ha as [Hx [->|[-> Hw]]];
    unfold answer_row, parse_row; cbn [fst snd].
  - destruct (classify_correct_row x Hx) as (-> & -> & ->).
    apply (append_answer_last z z' qs t ans (x, true)); assumption.
  - destruct (classify_wrong_row x Hx Hw) as (-> & -> & -> & ->).
    apply (append_answer_last z z' qs t ans (x, false)); assumption.
Qed.

Lemma distinct_same (l l' : list str) : l = l' -> distinct l = distinct l'.
Proof. intros ->. reflexivity. Qed.

Lemma quiz_rows_app z z' : quiz_rows (z ++ z') = quiz_rows z ++ quiz_rows z'.
Proof. unfold quiz_rows. rewrite map_app, concat_app. reflexivity. Qed.

Lemma md_script_answer_after_header z c qs t ans c' a :
  valid_quiz (z ++ [(c, qs ++ [(t, ans)]); (c', [])]) = true ->
  valid_answer a = true ->
  md_script_to_dictionary
    (join_lines (quiz_rows (z ++ [(c, qs ++ [(t, ans)]); (c', [])]) ++ [answer_row a])) =
  Ok (scored_store (z ++ [(c, qs ++ [(t, ans ++ [a])]); (c', [])])).
Proof.
  intros Hz Ha. pose proof Hz as [Hv Hd]%andb_prop.
  unfold md_script_to_dictionary, NEW_LINE.
  rewrite split_join_lines.
  2:{ destruct (quiz_rows _); discriminate. }
  2:{ rewrite forallb_app, (quiz_rows_lacks _ Hv). cbn [forallb andb].
      rewrite (answer_row_lacks a Ha). reflexivity. }
  rewrite parse_rows_app, (parse_quiz_rows _ Hz). cbn [bind parse_rows].
  assert (Hcap : map fst (z ++ [(c, qs ++ [(t, ans)]); (c', [])]) =
                 map fst (z ++ [(c, qs ++ [(t, ans ++ [a])]); (c', [])])).
  { rewrite !map_app. reflexivity. }
  rewrite (parse_row_answer_last _ (z ++ [(c, qs ++ [(t, ans ++ [a])]); (c', [])])
             (all_questions z ++ qs) t ans a); try assumption.
  - cbn [bind]. apply completing_dictionary_state_of, distinct_NoDup.
    rewrite <- Hcap. exact Hd.
  - rewrite all_questions_app_cons. cbn [snd all_questions map concat app].
    rewrite app_nil_r, <- !app_assoc. reflexivity.
  - rewrite all_questions_app_cons. cbn [snd all_questions map concat app].
    rewrite app_nil_r, <- !app_assoc. reflexivity.
  - unfold counts. rewrite !map_app. cbn [map snd]. rewrite !length_app. reflexivity.
Qed.

(** ** The assembler on a parsed document *)

Lemma texted_initial : texted (heap initial).
Proof.
  intros [|a] sec i q; cbn; [|discriminate].
  intros [= <-] Hi. inversion Hi.
Qed.

Lemma texted_update ps q q' :
  texted (heap ps) -> dicts (heap ps) !! current_question ps = Some q ->
  (q_text q <> None -> q_text q' <> None) ->
  texted (Store (dictionary (heap ps)) (lists (heap ps))
                (<[current_question ps := q']> (dicts (heap ps)))).
Proof.
  intros Ht Hq Htext a sec i q0. cbn [lists dicts]. intros Ha Hi Hq0.
  destruct (decide (current_question ps = i)) as [<-|Hne].
  - rewrite list_lookup_insert_eq in Hq0 by (eapply lookup_lt_Some, Hq).
    injection Hq0 as <-. apply Htext. eapply Ht; eassumption.
  - rewrite list_lookup_insert_ne in Hq0 by assumption. eapply Ht; eassumption.
Qed.

Lemma parse_row_texted ps r ps' :
  wf ps -> texted (heap ps) -> parse_row ps r = Ok ps' -> texted (heap ps').
Proof.
  intros Hwf Ht. pose proof Hwf as (Hs & Hc & Hd & Hl).
  parse_row_cases r.
  - intros [= <-] a sec i q. cbn [heap lists dicts]. intros Ha Hi Hq.
    destruct (decide (a < length (lists (heap ps)))) as [Hlt|Hge].
    + rewrite lookup_app_l in Ha by assumption. eapply Ht; eassumption.
    + rewrite lookup_app_r in Ha by lia.
      destruct (a - length (lists (heap ps))); cbn in Ha; [|discriminate].
      injection Ha as <-. inversion Hi.
  - destruct (lists (heap ps) !! section ps) as [l|] eqn:Hsec; [|discriminate].
    intros [= <-] a sec i q. cbn [heap lists dicts]. intros Ha Hi Hq.
    assert (Hold : forall sec0, lists (heap ps) !! a = Some sec0 -> i ∈ sec0 ->
                                q_text q <> None).
    { intros sec0 Ha0 Hi0. destruct (Hl a sec0 i Ha0 Hi0) as (q0 & Hq0 & _).
      rewrite lookup_app_l in Hq by (eapply lookup_lt_Some, Hq0).
      eapply Ht; eassumption. }
    destruct (decide (section ps = a)) as [<-|Hne].
    + rewrite list_lookup_insert_eq in Ha by assumption. injection Ha as <-.
      apply elem_of_app in Hi as [Hi|Hi]; [eapply Hold; eassumption|].
      apply list_elem_of_singleton in Hi as ->.
      rewrite list_lookup_middle in Hq by reflexivity.
      injection Hq as <-. discriminate.
    + rewrite list_lookup_insert_ne in Ha by assumption. eapply Hold; eassumption.
  - unfold append_answer.
    destruct (dicts (heap ps) !! current_question ps) as [q|] eqn:Hq; [|discriminate].
    destruct (q_answers q); [|discriminate]. intros [= <-].
    apply (texted_update ps q); auto.
  - unfold append_answer.
    destruct (dicts (heap ps) !! current_question ps) as [q|] eqn:Hq; [|discriminate].
    destruct (q_answers q); [|discriminate]. intros [= <-].
    apply (texted_update ps q); auto.
  - destruct (dicts (heap ps) !! current_question ps) as [q|] eqn:Hq; [|discriminate].
    destruct (negb (is_empty_line r)).
    + intros [= <-]. apply (texted_update ps q); [assumption..|]. discriminate.
    + destruct (q_text q) as [t|]; [|intros [= <-]; assumption].
      destruct (Str.find t (u "```") >? -1)%Z; [|intros [= <-]; assumption].
      intros [= <-]. apply (texted_update ps q); [assumption..|]. discriminate.
Qed.

Lemma parse_rows_texted rows : forall ps ps',
  wf ps -> texted (heap ps) -> parse_rows ps rows = Ok ps' -> texted (heap ps').
Proof.
  induction rows as [|r rows IH]; intros ps ps' Hwf Ht; cbn [parse_rows].
  - intros [= <-]. assumption.
  - destruct (parse_row ps (strip_row r)) as [ps1|e] eqn:H1; cbn [bind]; [|discriminate].
    apply IH.
    + eapply parse_row_wf_Ok; eassumption.
    + eapply parse_row_texted; eassumption.
Qed.

Lemma complete_question_text q q' :
  complete_question q = Ok q' -> q_text q' = q_text q.
Proof.
  unfold complete_question. destruct (q_answers q); [|discriminate].
  intros [= <-]. reflexivity.
Qed.

(** The scoring pass keeps the text of every question. *)
Lemma complete_section_text sec : forall ds ds',
  complete_section ds sec = Ok ds' ->
  forall i q', ds' !! i = Some q' -> exists q, ds !! i = Some q /\ q_text q' = q_text q.
Proof.
  induction sec as [|i0 sec IH]; intros ds ds'; cbn [complete_section].
  - intros [= <-] i q' Hi. eauto.
  - destruct (ds !! i0) as [q0|] eqn:H0; [|discriminate].
    destruct (complete_question q0) as [q0'|e] eqn:Hq0; cbn [bind]; [|discriminate].
    intros H i q' Hi. destruct (IH _ _ H i q' Hi) as (q1 & Hq1 & Htext).
    destruct (decide (i0 = i)) as [<-|Hne].
    + rewrite list_lookup_insert_eq in Hq1 by (eapply lookup_lt_Some, H0).
      injection Hq1 as <-. exists q0. split; [assumption|].
      rewrite Htext. eapply complete_question_text, Hq0.
    + rewrite list_lookup_insert_ne in Hq1 by assumption. eauto.
Qed.

Lemma complete_keys_text d ls ks : forall ds ds',
  complete_keys d ls ds ks = Ok ds' ->
  forall i q', ds' !! i = Some q' -> exists q, ds !! i = Some q /\ q_text q' = q_text q.
Proof.
  induction ks as [|key ks IH]; intros ds ds'; cbn [complete_keys].
  - intros [= <-] i q' Hi. eauto.
  - destruct (dict_get d key) as [a|]; [|discriminate].
    destruct (ls !! a) as [sec|]; [|discriminate].
    destruct (complete_section ds sec) as [ds1|e] eqn:H1; cbn [bind]; [|discriminate].
    intros H i q' Hi. destruct (IH _ _ H i q' Hi) as (q1 & Hq1 & Htext).
    destruct (complete_section_text _ _ _ H1 i q1 Hq1) as (q & Hq & Htext1).
    exists q. split; [assumption|congruence].
Qed.

Lemma completing_dictionary_texted st st' :
  texted st -> completing_dictionary st = Ok st' -> texted st'.
Proof.
  intros Ht. unfold completing_dictionary.
  destruct (complete_keys _ _ _ _) as [ds|e] eqn:H; cbn [bind]; [|discriminate].
  intros [= <-] a sec i q'. cbn [lists dicts]. intros Ha Hi Hq'.
  destruct (complete_keys_text _ _ _ _ _ H i q' Hq') as (q & Hq & ->).
  eapply Ht; eassumption.
Qed.

Lemma md_script_to_dictionary_texted md_script st :
  md_script_to_dictionary md_script = Ok st -> texted st.
Proof.
  unfold md_script_to_dictionary.
  destruct (parse_rows initial _) as [ps|e] eqn:H; cbn [bind]; [|discriminate].
  apply completing_dictionary_texted.
  eapply parse_rows_texted; [apply wf_initial|apply texted_initial|exact H].
Qed.

Lemma section_view_in st a q :
  q ∈ section_view st a ->
  exists sec i, lists st !! a = Some sec /\ i ∈ sec /\ dicts st !! i = Some q.
Proof.
  unfold section_view. intros (i & Hi & Hq)%list_elem_of_omap.
  destruct (lists st !! a) as [sec|]; [eauto|]. inversion Hi.
Qed.

Lemma completed_renderable q :
  completed q -> q_text q <> None -> renderable q.
Proof.
  intros Hc Ht. destruct (completed_inv _ Hc) as (answers & Ha & Hs & _).
  split; [destruct (q_text q); [eauto|congruence]|].
  split; [eauto|]. exists answers. split; [assumption|].
  apply Forall_forall. intros a Hin.
  rewrite (completed_weight q answers a Hc Ha Hin). discriminate.
Qed.

(** Every question of a parsed document has the keys the assembler
    reads. *)
Lemma md_script_renderable md_script st key a :
  md_script_to_dictionary md_script = Ok st ->
  dict_get (dictionary st) key = Some a ->
  Forall renderable (section_view st a).
Proof.
  intros Hst Hkey. apply Forall_forall. intros q Hq.
  destruct (section_view_in st a q Hq) as (sec & i & Hsec & Hi & Hqi).
  apply completed_renderable.
  - pose proof Hst as (ps & _ & _ & Hc)%md_script_to_dictionary_Ok.
    apply completing_dictionary_completed in Hc as (_ & _ & Hall).
    apply Hall. exists i. split; [|assumption]. exists key, a, sec. auto.
  - eapply (md_script_to_dictionary_texted _ _ Hst); eassumption.
Qed.

Section AssemblerFacts.

Variable markdown : str -> str.
Variable convert_code_image_base64 : str -> str -> str.
Variable isabs : str -> bool.
Variable path_join : str -> str -> str.
Variable build_image_tag : str -> str.
Variable float_str : spec_float -> str.
Variable md5_hexdigest : str -> str.
Variable rng : Type.
Variable random : rng -> spec_float * rng.

Lemma answers_to_xml_total answers : forall xml,
  Forall (fun a => a_weight a <> None) answers ->
  exists xml', answers_to_xml markdown float_str xml answers = XOk xml'.
Proof.
  induction answers as [|a answers IH]; intros xml Hall; cbn [answers_to_xml]; [eauto|].
  apply Forall_cons in Hall as [Ha Hall]. unfold answer_to_xml.
  destruct (a_weight a); [|congruence]. apply IH, Hall.
Qed.

Lemma question_to_xml_total q index md_dir_path g :
  renderable q -> encodable_text q = true ->
  (forall draw, encodable (float_str draw) = true) ->
  exists xml g',
    question_to_xml markdown convert_code_image_base64 isabs path_join build_image_tag
                    float_str md5_hexdigest rng random q index md_dir_path g =
    XOk (xml, g').
Proof.
  intros ((text & Ht) & (single & Hs) & answers & Ha & Hw) Henc Hdraw.
  unfold question_to_xml, encodable_text in *. rewrite Ht in *. rewrite Hs, Ha.
  destruct (random g) as [draw g'].
  unfold encodable in *. rewrite forallb_app, Henc. fold (encodable (float_str draw)).
  rewrite Hdraw. cbn [andb negb].
  match goal with
  | |- context [answers_to_xml _ _ ?x answers] =>
      destruct (answers_to_xml_total answers x Hw) as (xml' & ->)
  end.
  eauto.
Qed.

Lemma questions_to_xml_total md_dir_path section : forall xml index g,
  Forall renderable section -> forallb encodable_text section = true ->
  (forall draw, encodable (float_str draw) = true) ->
  exists xml' g',
    questions_to_xml markdown convert_code_image_base64 isabs path_join build_image_tag
                     float_str md5_hexdigest rng random xml index section md_dir_path g =
    XOk (xml', g').
Proof.
  induction section as [|q section IH]; intros xml index g Hall Henc Hdraw;
    cbn [questions_to_xml]; [eauto|].
  apply Forall_cons in Hall as [Hq Hall].
  cbn [forallb] in Henc. apply andb_prop in Henc as [Hqe Henc].
  destruct (question_to_xml_total q index md_dir_path g Hq Hqe Hdraw) as (x & g' & ->).
  apply IH; assumption.
Qed.

Lemma section_to_xml_total md_script st key a md_dir_path g :
  md_script_to_dictionary md_script = Ok st ->
  dict_get (dictionary st) key = Some a ->
  forallb encodable_text (section_view st a) = true ->
  (forall draw, encodable (float_str draw) = true) ->
  exists xml g',
    section_to_xml markdown convert_code_image_base64 isabs path_join build_image_tag
                   float_str md5_hexdigest rng random key (section_view st a)
                   md_dir_path g =
    XOk (xml, g').
Proof.
  intros Hst Hkey Henc Hdraw. unfold section_to_xml.
  match goal with
  | |- context [questions_to_xml _ _ _ _ _ _ _ _ _ ?x 0 _ _ _] =>
      destruct (questions_to_xml_total md_dir_path (section_view st a) x 0 g
                  (md_script_renderable md_script st key a Hst Hkey) Henc Hdraw)
        as (xml & g' & ->)
  end.
  eauto.
Qed.

End AssemblerFacts.

(** ** The code passes on every text *)

Lemma back_first k pos s : forall n,
  (forall j, j < n -> k (pos + j) (drop j s) = None) ->
  back k pos s n = k (pos + n) (drop n s).
Proof.
  induction n as [|n IH]; intros Hnone; cbn [back].
  - destruct (k (pos + 0) (drop 0 s)); reflexivity.
  - destruct (k (pos + S n) (drop (S n) s)); [reflexivity|].
    rewrite IH by (intros j Hj; apply Hnone; lia).
    apply Hnone. lia.
Qed.

Lemma drop_run cls s : forall j,
  j < run cls s -> exists c t, drop j s = c :: t /\ cls c = true.
Proof.
  induction s as [|x s IH]; intros j Hj; cbn [run] in Hj; [lia|].
  destruct (cls x) eqn:E; [|lia].
  destruct j as [|j]; [exists x, s; auto|].
  cbn [drop]. apply IH. lia.
Qed.

Lemma drop_run_stop cls s c t :
  drop (run cls s) s = c :: t -> cls c = false.
Proof.
  induction s as [|x s IH]; cbn [run]; [discriminate|].
  destruct (cls x) eqn:E; [apply IH|].
  cbn [drop]. intros [= <- _]. exact E.
Qed.

(** The replacement by [Re.sub] of the matches of a pattern that has a
    match exactly where [find] sees a span. *)
Lemma sub_from_rewrite p repl find subject :
  (forall pos, exec p pos [] = None) ->
  (forall pos s, drop pos subject = s ->
     match exec p pos s with
     | Some (ms, e) => find s = Some (repl (MatchObj subject pos ms e), e - pos) /\ pos < e
     | None => find s = None
     end) ->
  forall s skip pos, drop pos subject = s ->
    sub_from p repl subject skip pos s = rewrite_from find skip s.
Proof.
  intros Hnil Hfind. induction s as [|c s IH]; intros skip pos Hs.
  - destruct skip; cbn [sub_from rewrite_from]; [rewrite Hnil|]; reflexivity.
  - destruct skip as [|skip]; cbn [sub_from rewrite_from].
    + pose proof (Hfind pos (c :: s) Hs) as H.
      destruct (exec p pos (c :: s)) as [[ms e]|].
      * destruct H as [-> Hlt].
        destruct (e <=? pos) eqn:L; [apply Nat.leb_le in L; lia|].
        rewrite (IH _ (S pos) (drop_tail _ _ _ _ Hs)). reflexivity.
      * rewrite H. f_equal. apply IH. eapply drop_tail, Hs.
    + apply IH. eapply drop_tail, Hs.
Qed.

Lemma close_backtick p t :
  exec [Close; Atom (lit bq) One] p t =
  if Str.startswith [bq] t then Some ([p], S p) else None.
Proof.
  rewrite exec_Close. destruct t as [|c t]; [reflexivity|].
  rewrite exec_one, lit_sym. cbn [Str.startswith].
  destruct (char_eqb bq c); reflexivity.
Qed.

Lemma startswith_non a c t : non a c = true -> Str.startswith [a] (c :: t) = false.
Proof.
  unfold non, char_eqb. cbn [Str.startswith]. unfold char_eqb.
  rewrite (N.eqb_sym a c). destruct (N.eqb c a); [discriminate|reflexivity].
Qed.

(** The inline-code pattern matches where a code span opens, and its
    group is the body of the span. *)
Lemma exec_single_line_code pos s :
  exec SINGLE_LINE_CODE_PATTERN pos s =
  match code_span s with
  | Some body => Some ([S pos; S pos + length body], S (S pos) + length body)
  | None => None
  end.
Proof.
  unfold SINGLE_LINE_CODE_PATTERN, code_span.
  destruct s as [|c s]; [reflexivity|].
  rewrite exec_one. unfold lit at 1.
  destruct (char_eqb c bq); [|reflexivity].
  rewrite exec_Open. destruct s as [|b s]; [reflexivity|].
  rewrite exec_plus. cbn [run]. destruct (non bq b) eqn:Hb; [|reflexivity].
  rewrite star_back, back_first.
  2:{ intros j Hj. destruct (drop_run _ _ _ Hj) as (x & t & -> & Hx).
      rewrite close_backtick, (startswith_non _ _ _ Hx). reflexivity. }
  rewrite close_backtick. cbn [Nat.ltb Nat.leb andb drop take].
  destruct (Str.startswith [bq] (drop (run (non bq) s) s)); [|reflexivity].
  cbn [mark length]. rewrite length_take_le by apply run_le.
  rewrite <- !plus_n_Sm. reflexivity.
Qed.

Lemma code_span_take s body :
  code_span s = Some body -> body = take (length body) (drop 1 s) /\ 1 <= length body.
Proof.
  unfold code_span. destruct s as [|c s]; [discriminate|].
  destruct (char_eqb c bq); [|discriminate].
  destruct (0 <? run (non bq) s) eqn:L; [|discriminate]. apply Nat.ltb_lt in L.
  cbn [andb drop]. destruct (Str.startswith [bq] _); [|discriminate].
  intros [= <-]. rewrite length_take_le by apply run_le. change (drop 0 s) with s.
  split; [reflexivity|lia].
Qed.

Lemma replace_single_line_code_eq subject pos a b e :
  replace_single_line_code (MatchObj subject pos [a; b] e) =
  inline_code (slice subject a b).
Proof. reflexivity. Qed.

(** The inline-code pass of the code is the replacement of every code
    span. *)
Lemma sub_single_line_code_all s :
  Re.sub SINGLE_LINE_CODE_PATTERN replace_single_line_code s =
  rewrite_spans find_code s.
Proof.
  unfold Re.sub, rewrite_spans. apply sub_from_rewrite; [reflexivity| |reflexivity].
  intros pos t Ht. rewrite exec_single_line_code. unfold find_code.
  destruct (code_span t) as [body|] eqn:E; [|reflexivity].
  apply code_span_take in E as [Hbody Hlen].
  rewrite replace_single_line_code_eq. unfold slice.
  replace (drop (S pos) s) with (drop 1 t)
    by (rewrite <- Ht, drop_drop; f_equal; lia).
  replace (S pos + length body - S pos) with (length body) by lia.
  rewrite <- Hbody. split; [|lia]. do 2 f_equal. lia.
Qed.

Lemma run_any s : run any s = length s.
Proof. induction s as [|c s IH]; cbn [run length]; [reflexivity|]. rewrite IH. reflexivity. Qed.

Lemma close_fence p t :
  exec [Close; Atom (lit bq) One; Atom (lit bq) One; Atom (lit bq) One] p t =
  if Str.startswith (u "```") t then Some ([p], S (S (S p))) else None.
Proof.
  rewrite exec_Close. change (u "```") with [bq; bq; bq].
  destruct t as [|c1 t]; [reflexivity|].
  rewrite exec_one, lit_sym. cbn [Str.startswith].
  destruct (char_eqb bq c1); [|reflexivity].
  destruct t as [|c2 t]; [reflexivity|].
  rewrite exec_one, lit_sym. cbn [Str.startswith].
  destruct (char_eqb bq c2); [|reflexivity].
  destruct t as [|c3 t]; [reflexivity|].
  rewrite exec_one, lit_sym. cbn [Str.startswith].
  destruct (char_eqb bq c3); reflexivity.
Qed.

(** What follows the language tag: the line feed, and the code up to the
    last fence. *)
Lemma exec_below_tag p t :
  exec [Close; Atom (lit nl) One; Open; Atom any OneOrMore; Close;
        Atom (lit bq) One; Atom (lit bq) One; Atom (lit bq) One] p t =
  if Str.startswith [nl] t then
    match longest_body (u "```") (drop 1 t) (length (drop 1 t)) with
    | Some code => Some ([p; S p; S p + length code], S (S (S (S p + length code))))
    | None => None
    end
  else None.
Proof.
  rewrite exec_Close. destruct t as [|c t]; [reflexivity|].
  rewrite exec_one, lit_sym. cbn [Str.startswith drop].
  destruct (char_eqb nl c); [|reflexivity]. cbn [andb]. change (drop 0 t) with t.
  rewrite exec_Open. destruct t as [|b t]; [reflexivity|].
  rewrite exec_plus. change (any b) with true. cbn iota.
  rewrite star_back, run_any.
  rewrite (back_longest (u "```") _ (fun q => ([q], S (S (S q)))) close_fence
             (length t) b t (S p) (Nat.le_refl _)).
  cbn [length].
  destruct (longest_body (u "```") (b :: t) (S (length t))); reflexivity.
Qed.

Lemma startswith_cons a p c s :
  Str.startswith (a :: p) (c :: s) = char_eqb a c && Str.startswith p s.
Proof. reflexivity. Qed.

Lemma dot_not_nl x t : dot x = true -> Str.startswith [nl] (x :: t) = false.
Proof.
  unfold dot, char_eqb. cbn [Str.startswith]. unfold char_eqb.
  rewrite (N.eqb_sym nl x). destruct (N.eqb x nl); [discriminate|reflexivity].
Qed.

(** The fenced-code pattern matches where a fenced block opens; its
    groups are the tag and the code of the block. *)
Lemma exec_multi_line_code pos s :
  exec MULTI_LINE_CODE_PATTERN pos s =
  match fenced_block s with
  | Some (tag, code) =>
      Some ([pos + 3; pos + 3 + length tag; pos + 4 + length tag;
             pos + 4 + length tag + length code],
            pos + 7 + length tag + length code)
  | None => None
  end.
Proof.
  unfold MULTI_LINE_CODE_PATTERN, fenced_block. change (u "```") with [bq; bq; bq].
  destruct s as [|c1 s]; [reflexivity|].
  rewrite exec_one, lit_sym, startswith_cons.
  destruct (char_eqb bq c1); [|reflexivity].
  destruct s as [|c2 s]; [reflexivity|].
  rewrite exec_one, lit_sym, startswith_cons.
  destruct (char_eqb bq c2); [|reflexivity].
  destruct s as [|c3 s]; [reflexivity|].
  rewrite exec_one, lit_sym, startswith_cons.
  destruct (char_eqb bq c3); [|reflexivity].
  change (Str.startswith [] s) with true. cbn [andb].
  change (drop 3 (c1 :: c2 :: c3 :: s)) with s.
  rewrite exec_Open, exec_star, star_back, back_first.
  2:{ intros j Hj. destruct (drop_run _ _ _ Hj) as (x & t & Ht & Hx).
      rewrite exec_below_tag, Ht, (dot_not_nl _ _ Hx). reflexivity. }
  rewrite exec_below_tag.
  destruct (Str.startswith [nl] (drop (run dot s) s)); [|reflexivity].
  rewrite drop_drop. replace (run dot s + 1) with (S (run dot s)) by lia.
  change [bq; bq; bq] with (u "```").
  destruct (longest_body (u "```") (drop (S (run dot s)) s)
              (length (drop (S (run dot s)) s))) as [code|]; [|reflexivity].
  cbn [mark]. rewrite length_take_le by apply run_le.
  do 2 f_equal; [|lia]. repeat (f_equal; try lia).
Qed.

Lemma fenced_block_take s tag code :
  fenced_block s = Some (tag, code) ->
  Str.startswith (u "```") s = true /\
  tag = take (length tag) (drop 3 s) /\
  code = take (length code) (drop (4 + length tag) s) /\ 1 <= length code.
Proof.
  unfold fenced_block. destruct (Str.startswith (u "```") s); [|discriminate].
  destruct (Str.startswith [nl] _); [|discriminate].
  destruct (longest_body _ _ _) as [code'|] eqn:E; [|discriminate].
  intros [= <- <-]. apply longest_body_take in E as [Hcode Hlen]; [|reflexivity].
  rewrite length_take_le by apply run_le.
  split; [reflexivity|]. split; [reflexivity|]. split; [|assumption].
  rewrite drop_drop in Hcode.
  replace (4 + run dot (drop 3 s)) with (3 + S (run dot (drop 3 s))) by lia.
  exact Hcode.
Qed.

Lemma replace_multi_line_code_eq conv subject pos a b c d e :
  replace_multi_line_code conv (MatchObj subject pos [a; b; c; d] e) =
  fenced_code conv (slice subject a b) (slice subject c d).
Proof. reflexivity. Qed.

(** The fenced-code pass of the code is the replacement of every fenced
    block. *)
Lemma sub_multi_line_code_all conv s :
  Re.sub MULTI_LINE_CODE_PATTERN (replace_multi_line_code conv) s =
  rewrite_spans (find_fenced conv) s.
Proof.
  unfold Re.sub, rewrite_spans. apply sub_from_rewrite; [reflexivity| |reflexivity].
  intros pos t Ht. rewrite exec_multi_line_code. unfold find_fenced.
  destruct (fenced_block t) as [[tag code]|] eqn:E; [|reflexivity].
  apply fenced_block_take in E as (_ & Htag & Hcode & Hlen).
  rewrite replace_multi_line_code_eq. unfold slice.
  replace (drop (pos + 3) s) with (drop 3 t) by (rewrite <- Ht, drop_drop; reflexivity).
  replace (drop (pos + 4 + length tag) s) with (drop (4 + length tag) t)
    by (rewrite <- Ht, drop_drop; f_equal; lia).
  replace (pos + 3 + length tag - (pos + 3)) with (length tag) by lia.
  replace (pos + 4 + length tag + length code - (pos + 4 + length tag))
    with (length code) by lia.
  rewrite <- Htag, <- Hcode. split; [|lia]. do 2 f_equal. lia.
Qed.

Lemma back_latest k pos s : forall n,
  back k pos s n = latest (fun j => k (pos + j) (drop j s)) n.
Proof. induction n as [|n IH]; cbn [back latest]; [|rewrite IH]; reflexivity. Qed.

Lemma latest_map {A B} (f : nat -> option A) (h : nat -> option B) (g : B -> A) :
  (forall j, f j = option_map g (h j)) ->
  forall n, latest f n = option_map g (latest h n).
Proof.
  intros H. induction n as [|n IH]; cbn [latest]; rewrite H.
  - destruct (h 0); reflexivity.
  - destruct (h (S n)); [reflexivity|]. exact IH.
Qed.

Lemma latest_Some {A} (h : nat -> option A) x : forall n,
  latest h n = Some x -> exists j, j <= n /\ h j = Some x.
Proof.
  induction n as [|n IH]; cbn [latest].
  - destruct (h 0) eqn:E; [|discriminate]. intros [= <-]. exists 0. auto.
  - destruct (h (S n)) eqn:E.
    + intros [= <-]. exists (S n). auto.
    + intros (j & Hj & Hx)%IH. exists j. split; [lia|assumption].
Qed.

Lemma close_paren p t :
  exec [Close; Atom (lit (ch ")")) One] p t =
  if Str.startswith (u ")") t then Some ([p], S p) else None.
Proof.
  rewrite exec_Close. destruct t as [|c t]; [reflexivity|].
  rewrite exec_one, lit_sym. change (u ")") with [ch ")"]. rewrite startswith_cons.
  destruct (char_eqb (ch ")") c); reflexivity.
Qed.

(** What follows the alternative text: the bracket, the parenthesis and
    the file name up to the last closing parenthesis of the line. *)
Lemma exec_file_name p rest n :
  exec [Atom (lit (ch "]")) One; Atom (lit (ch "(")) One; Open; Atom dot OneOrMore;
        Close; Atom (lit (ch ")")) One] (p + n) (drop n rest) =
  option_map (fun '(n, file) => ([p + n + 2; p + n + 2 + length file],
                                 p + n + 3 + length file))
             (file_name_from rest n).
Proof.
  unfold file_name_from. rewrite <- (drop_drop rest 2 n).
  change (u "](") with [ch "]"; ch "("].
  destruct (drop n rest) as [|c1 t]; [reflexivity|].
  rewrite exec_one, lit_sym, startswith_cons.
  destruct (char_eqb (ch "]") c1); [|reflexivity].
  destruct t as [|c2 t]; [reflexivity|].
  rewrite exec_one, lit_sym, startswith_cons.
  destruct (char_eqb (ch "(") c2); [|reflexivity].
  change (Str.startswith [] t) with true. cbn [andb].
  change (drop 2 (c1 :: c2 :: t)) with t.
  rewrite exec_Open. destruct t as [|b t]; [reflexivity|].
  rewrite exec_plus. cbn [run]. destruct (dot b); [|reflexivity].
  rewrite star_back.
  rewrite (back_longest (u ")") _ (fun q => ([q], S q)) close_paren
             (run dot t) b t (S (S (p + n))) (run_le dot t)).
  destruct (longest_body (u ")") (b :: t) (S (run dot t))) as [file|]; [|reflexivity].
  cbn [mark option_map]. do 2 f_equal; [|lia]. repeat (f_equal; try lia).
Qed.

(** The image pattern matches where an image link opens, and its group
    is the file name. *)
Lemma exec_image pos s :
  exec IMAGE_PATTERN pos s =
  option_map (fun '(n, file) => ([pos + n + 4; pos + n + 4 + length file],
                                 pos + n + 5 + length file))
             (image_link s).
Proof.
  unfold IMAGE_PATTERN, image_link. change (u "![") with [ch "!"; ch "["].
  destruct s as [|c1 s]; [reflexivity|].
  rewrite exec_one, lit_sym, startswith_cons.
  destruct (char_eqb (ch "!") c1); [|reflexivity].
  destruct s as [|c2 s]; [reflexivity|].
  rewrite exec_one, lit_sym, startswith_cons.
  destruct (char_eqb (ch "[") c2); [|reflexivity].
  change (Str.startswith [] s) with true. cbn [andb].
  change (drop 2 (c1 :: c2 :: s)) with s.
  rewrite exec_star, star_back, back_latest.
  apply latest_map. intros j.
  rewrite (exec_file_name (S (S pos)) s j).
  destruct (file_name_from s j) as [[n file]|]; [|reflexivity].
  cbn [option_map]. do 2 f_equal; [|lia]. repeat (f_equal; try lia).
Qed.

Lemma image_link_take s n file :
  image_link s = Some (n, file) ->
  file = take (length file) (drop (n + 4) s) /\ 1 <= length file.
Proof.
  unfold image_link. destruct (Str.startswith (u "![") s); [|discriminate].
  intros (j & _ & Hj)%latest_Some. unfold file_name_from in Hj.
  destruct (Str.startswith (u "](") _); [|discriminate].
  destruct (longest_body _ _ _) as [file'|] eqn:E; [|discriminate].
  injection Hj as -> ->.
  apply longest_body_take in E as [Hfile Hlen]; [|apply run_le].
  split; [|assumption]. rewrite drop_drop in Hfile.
  replace (n + 4) with (2 + (n + 2)) by lia. exact Hfile.
Qed.

Lemma replace_image_wrapper_eq isabs path_join build md_dir_path subject pos a b e :
  replace_image_wrapper isabs path_join build md_dir_path (MatchObj subject pos [a; b] e) =
  image_tag isabs path_join build md_dir_path (slice subject a b).
Proof. reflexivity. Qed.

(** The image pass of the code is the replacement of every image link. *)
Lemma sub_image_all isabs path_join build md_dir_path s :
  Re.sub IMAGE_PATTERN (replace_image_wrapper isabs path_join build md_dir_path) s =
  rewrite_spans (find_image isabs path_join build md_dir_path) s.
Proof.
  unfold Re.sub, rewrite_spans. apply sub_from_rewrite; [reflexivity| |reflexivity].
  intros pos t Ht. rewrite exec_image. unfold find_image.
  destruct (image_link t) as [[n file]|] eqn:E; [|reflexivity].
  apply image_link_take in E as [Hfile Hlen]. cbn [option_map].
  rewrite replace_image_wrapper_eq. unfold slice.
  replace (drop (pos + n + 4) s) with (drop (n + 4) t)
    by (rewrite <- Ht, drop_drop; f_equal; lia).
  replace (pos + n + 4 + length file - (pos + n + 4)) with (length file) by lia.
  rewrite <- Hfile. split; [|lia]. do 2 f_equal. lia.
Qed.

(** [render_text] without patterns: the five passes, one after the
    other, and [markdown]. *)
Lemma render_text_passes markdown conv isabs path_join build text md_dir_path :
  render_text markdown conv isabs path_join build text md_dir_path =
  markdown
    (collapse_math (u "$")
       (collapse_math (u "$$")
          (rewrite_spans (find_image isabs path_join build md_dir_path)
             (rewrite_spans find_code
                (rewrite_spans (find_fenced conv) text))))).
Proof.
  unfold render_text.
  rewrite sub_multi_line_code_all, sub_single_line_code_all, sub_image_all,
    sub_double_dollar_all, sub_single_dollar_all.
  reflexivity.
Qed.

(** [Re.search] finds a match exactly when a span is somewhere in the
    text. *)
Lemma search_from_anywhere {A} p (find : str -> option A) subject :
  (forall pos s, match exec p pos s with
                 | Some _ => find s <> None
                 | None => find s = None
                 end) ->
  forall s pos,
    match search_from p subject pos s with
    | Some _ => anywhere find s = true
    | None => anywhere find s = false
    end.
Proof.
  intros H. induction s as [|c s IH]; intros pos; cbn [search_from anywhere];
    pose proof (H pos) as Hs.
  - specialize (Hs []). destruct (exec p pos []) as [[ms e]|].
    + destruct (find []); [reflexivity|congruence].
    + rewrite Hs. reflexivity.
  - specialize (Hs (c :: s)). destruct (exec p pos (c :: s)) as [[ms e]|].
    + destruct (find (c :: s)); [reflexivity|congruence].
    + rewrite Hs. apply IH.
Qed.

Lemma search_code_anywhere s :
  match Re.search SINGLE_LINE_CODE_PATTERN s with
  | Some _ => anywhere code_span s = true
  | None => anywhere code_span s = false
  end.
Proof.
  apply search_from_anywhere. intros pos t. rewrite exec_single_line_code.
  destruct (code_span t); [discriminate|reflexivity].
Qed.

Lemma search_math_anywhere s :
  match Re.search SINGLE_DOLLAR_LATEX_PATTERN s with
  | Some _ => anywhere (math_span (u "$")) s = true
  | None => anywhere (math_span (u "$")) s = false
  end.
Proof.
  apply search_from_anywhere. intros pos t. rewrite exec_single_dollar_span.
  destruct (math_span (u "$") t); [discriminate|reflexivity].
Qed.

Lemma render_answer_words markdown text :
  render_answer markdown text = answer_in_words markdown text.
Proof.
  unfold render_answer, answer_in_words.
  pose proof (search_code_anywhere text) as Hc.
  destruct (Re.search SINGLE_LINE_CODE_PATTERN text); rewrite Hc.
  - rewrite sub_single_line_code_all.
    pose proof (search_math_anywhere (rewrite_spans find_code (sanitize_entities text)))
      as Hm.
    destruct (Re.search SINGLE_DOLLAR_LATEX_PATTERN _); rewrite Hm.
    + rewrite sub_single_dollar_all. reflexivity.
    + reflexivity.
  - pose proof (search_math_anywhere text) as Hm.
    destruct (Re.search SINGLE_DOLLAR_LATEX_PATTERN text); rewrite Hm.
    + rewrite sub_single_dollar_all. reflexivity.
    + reflexivity.
Qed.

(** * Properties of the rest of the code *)

(** ** What the classifiers read *)

(** X1: on a row without line feed [get_header] returns a caption exactly
    when the row is optional white space, [# ] and that caption. *)
Theorem get_header_iff s caption :
  lacks nl s = true ->
  get_header s = Some caption <->
  exists ws, blank ws = true /\ s = ws ++ header_row caption.
Proof. apply get_header_shape. Qed.

Lemma get_header_iff_witness :
  lacks nl (u "  # Sec 1") = true /\
  (get_header (u "  # Sec 1") = Some (u "Sec 1") <->
   exists ws, blank ws = true /\ u "  # Sec 1" = ws ++ header_row (u "Sec 1")).
Proof.
  split; [reflexivity|].
  apply (get_header_iff (u "  # Sec 1") (u "Sec 1")). reflexivity.
Defined.

(** X2: on a row without line feed [get_question] returns a text exactly
    when the row is optional white space, an asterisk, one white-space
    character and that text. *)
Theorem get_question_iff s text :
  lacks nl s = true ->
  get_question s = Some text <->
  exists ws sp, blank ws = true /\ space sp = true /\ s = ws ++ ch "*" :: sp :: text.
Proof. apply get_question_shape. Qed.

Lemma get_question_iff_witness :
  lacks nl (question_row (u "What is 2+2?")) = true /\
  (get_question (question_row (u "What is 2+2?")) = Some (u "What is 2+2?") <->
   exists ws sp, blank ws = true /\ space sp = true /\
     question_row (u "What is 2+2?") = ws ++ ch "*" :: sp :: u "What is 2+2?").
Proof.
  split; [reflexivity|].
  apply (get_question_iff (question_row (u "What is 2+2?")) (u "What is 2+2?")).
  reflexivity.
Defined.

(** X3: on a row without line feed [get_correct_answer] returns a text
    exactly when the row is optional white space, a dash, one white-space
    character, an exclamation mark and that text. *)
Theorem get_correct_answer_iff s text :
  lacks nl s = true ->
  get_correct_answer s = Some text <->
  exists ws sp, blank ws = true /\ space sp = true /\
    s = ws ++ ch "-" :: sp :: ch "!" :: text.
Proof. apply get_correct_answer_shape. Qed.

Lemma get_correct_answer_iff_witness :
  lacks nl (correct_row (u "4")) = true /\
  (get_correct_answer (correct_row (u "4")) = Some (u "4") <->
   exists ws sp, blank ws = true /\ space sp = true /\
     correct_row (u "4") = ws ++ ch "-" :: sp :: ch "!" :: u "4").
Proof.
  split; [reflexivity|].
  apply (get_correct_answer_iff (correct_row (u "4")) (u "4")). reflexivity.
Defined.

(** X4: on a row without line feed [get_wrong_answer] returns a text
    exactly when the row is optional white space, a dash, one white-space
    character and that text, and the text ends in a character that is not
    the blank. *)
Theorem get_wrong_answer_iff s text :
  lacks nl s = true ->
  get_wrong_answer s = Some text <->
  exists ws sp, blank ws = true /\ space sp = true /\
    s = ws ++ ch "-" :: sp :: text /\ ends_unblank text = true.
Proof. apply get_wrong_answer_shape. Qed.

Lemma get_wrong_answer_iff_witness :
  lacks nl (wrong_row (u "3")) = true /\
  (get_wrong_answer (wrong_row (u "3")) = Some (u "3") <->
   exists ws sp, blank ws = true /\ space sp = true /\
     wrong_row (u "3") = ws ++ ch "-" :: sp :: u "3" /\ ends_unblank (u "3") = true).
Proof.
  split; [reflexivity|].
  apply (get_wrong_answer_iff (wrong_row (u "3")) (u "3")). reflexivity.
Defined.

(** X5: a row with a dash and white space whose text is empty or ends in
    a blank, and does not start with an exclamation mark, is no answer:
    the parser appends it, with a line feed, to the text of the current
    question. *)
Theorem answer_ending_in_blank_is_text ps q ws sp text :
  dicts (heap ps) !! current_question ps = Some q ->
  blank ws = true -> space sp = true ->
  lacks nl (ws ++ ch "-" :: sp :: text) = true ->
  unmarked text = true -> ends_unblank text = false ->
  parse_row ps (ws ++ ch "-" :: sp :: text) =
  Ok (set_text ps q (match q_text q with Some t => t | None => [] end ++
                     (ws ++ ch "-" :: sp :: text) ++ [nl])).
Proof. apply parse_row_blank_ended_answer. Qed.

Lemma answer_ending_in_blank_is_text_witness :
  dicts (heap fenced_state) !! current_question fenced_state =
    Some (Question (Some (u "```")) (Some []) None) /\
  ends_unblank (u "3 ") = false /\
  parse_row fenced_state (u "- 3 ") =
  Ok (set_text fenced_state (Question (Some (u "```")) (Some []) None)
               (u "```" ++ u "- 3 " ++ [nl])).
Proof.
  split; [reflexivity|]. split; [reflexivity|].
  apply (answer_ending_in_blank_is_text fenced_state
           (Question (Some (u "```")) (Some []) None) [] (ch " ") (u "3 "));
    reflexivity.
Defined.

(** ** Quizzes written in the dialect *)

(** X6: a quiz written in the dialect, one row for each caption, question
    and answer and a line feed between the rows, is read back as that
    quiz: the parser returns a document with the same captions, questions
    and answers in the same order, each question scored. *)
Theorem quiz_is_read_back z :
  valid_quiz z = true ->
  exists st,
    md_script_to_dictionary (join_lines (quiz_rows z)) = Ok st /\
    document st = scored_document z.
Proof.
  intros Hz. exists (scored_store z). split.
  - exact (md_script_quiz z Hz).
  - exact (document_scored_store z).
Qed.

Lemma quiz_is_read_back_witness :
  valid_quiz sample_sections = true /\
  join_lines (quiz_rows sample_sections) =
    join_lines [u "# Sec1"; u "* What is 2+2?"; u "- 3"; u "- !4"] /\
  scored_document sample_sections = [(u "Sec1", [sample_question])] /\
  exists st,
    md_script_to_dictionary (join_lines (quiz_rows sample_sections)) = Ok st /\
    document st = scored_document sample_sections.
Proof.
  split; [reflexivity|]. split; [reflexivity|]. split; [vm_compute; reflexivity|].
  apply (quiz_is_read_back sample_sections). reflexivity.
Defined.

(** X7: the parser raises, and then [KeyError] on ['answers'], exactly
    when among the rows that are a question or an answer the first is an
    answer; in every other case it returns a document. *)
Theorem parser_raises_iff_answer_first md_script :
  (md_script_to_dictionary md_script = Raise (KeyError (u "answers")) <->
   answer_first (Str.split md_script NEW_LINE) = true) /\
  ((exists st, md_script_to_dictionary md_script = Ok st) <->
   answer_first (Str.split md_script NEW_LINE) = false).
Proof.
  pose proof (md_script_answer_first md_script) as H.
  destruct (answer_first (Str.split md_script NEW_LINE)).
  - rewrite H. split; split; try reflexivity; try discriminate.
    intros (st & [=]).
  - destruct H as (st & ->). split; split; try reflexivity; try discriminate.
    intros _. exists st. reflexivity.
Qed.





(** X10: an answer row that comes after a header, before any question of
    the new section, is added to the last question of the section before:
    a header starts a new section and leaves the current question as it
    is. *)
Theorem answer_after_header_joins_last_question z c qs t ans c' a :
  valid_quiz (z ++ [(c, qs ++ [(t, ans)]); (c', [])]) = true ->
  valid_answer a = true ->
  exists st,
    md_script_to_dictionary
      (join_lines (quiz_rows (z ++ [(c, qs ++ [(t, ans)]); (c', [])]) ++
                   [answer_row a])) = Ok st /\
    document st = scored_document (z ++ [(c, qs ++ [(t, ans ++ [a])]); (c', [])]).
Proof.
  intros Hz Ha. exists (scored_store (z ++ [(c, qs ++ [(t, ans ++ [a])]); (c', [])])).
  split.
  - exact (md_script_answer_after_header z c qs t ans c' a Hz Ha).
  - exact (document_scored_store _).
Qed.

Lemma answer_after_header_joins_last_question_witness :
  valid_quiz late_answer_sections = true /\
  valid_answer (u "x", true) = true /\
  join_lines (quiz_rows late_answer_sections ++ [answer_row (u "x", true)]) =
    join_lines [u "# A"; u "* q"; u "# B"; u "- !x"] /\
  exists st,
    md_script_to_dictionary
      (join_lines (quiz_rows late_answer_sections ++ [answer_row (u "x", true)])) =
      Ok st /\
    document st = scored_document [(u "A", [(u "q", [(u "x", true)])]); (u "B", [])].
Proof.
  split; [reflexivity|]. split; [reflexivity|]. split; [reflexivity|].
  apply (answer_after_header_joins_last_question
           [] (u "A") [] (u "q") [] (u "B") (u "x", true)); reflexivity.
Defined.

(** ** Escaping *)

(** X11: the text [sanitize_entities] returns has no angle bracket. *)
Theorem sanitize_entities_no_angle_bracket text :
  lacks (ch "<") (sanitize_entities text) = true /\
  lacks (ch ">") (sanitize_entities text) = true.
Proof. exact (sanitize_entities_lacks text). Qed.

(** ** The XML assembler *)



(** ** The passes of the renderers, on every text *)

(** X13: the inline-code pass replaces every code span and nothing else.
    Going through the text from left to right, a code span is a backtick,
    one or more characters other than the backtick (line feeds too) and a
    backtick; it is replaced by its body, escaped by [sanitize_entities],
    in [code] tags, and the text is taken up again after its closing
    backtick. *)
Theorem inline_code_pass_replaces_every_span text :
  Re.sub SINGLE_LINE_CODE_PATTERN replace_single_line_code text =
  rewrite_spans find_code text.
Proof. exact (sub_single_line_code_all text). Qed.


(** X15: the image pass replaces every image link and nothing else.  An
    image link is an exclamation mark, an alternative text in brackets and
    a file name in parentheses that is not empty, all on one line; the
    alternative text is the longest that leaves a file name, so that two
    links on a line are taken as one, with the file name of the second.
    The link is replaced by the image tag of the file, looked for in the
    directory of the script unless its name is absolute or holds [://]. *)
Theorem image_pass_replaces_every_link
        (isabs : str -> bool) (path_join : str -> str -> str)
        (build_image_tag : str -> str) (md_dir_path text : str) :
  Re.sub IMAGE_PATTERN (replace_image_wrapper isabs path_join build_image_tag md_dir_path)
         text =
  rewrite_spans (find_image isabs path_join build_image_tag md_dir_path) text.
Proof. exact (sub_image_all isabs path_join build_image_tag md_dir_path text). Qed.


(** Two fenced blocks, two image links and two code spans in one text,
    as the passes take them. *)
Lemma passes_examples :
  rewrite_spans (find_fenced (fun _ _ => []))
    (join_lines [u "```py"; u "a"; u "``` and ```js"; u "b"; u "```"]) =
    u "<pre><code>" ++ join_lines [u "a"; u "``` and ```js"; u "b"; u ""] ++
    u "</code></pre>" /\
  rewrite_spans (find_image (fun _ => true) (fun _ f => f) (fun f => u "<img " ++ f ++ u ">")
                            [])
    (u "![a](b) and ![c](d)") = u "<img d>" /\
  rewrite_spans find_code (u "`a` and `b<c`") =
    u "<code>a</code> and <code>b&lt;c</code>".
Proof. vm_compute. repeat split. Qed.
